(** * p_laszip: the parallel LAS <-> LAZ coordinator of [src/laszip.cpp]

    A shallow embedding of the MPI driver in [main] (the "straight las -> laz
    file conversion case"): the point-range partitioner, the two encode
    passes, the placement exchange and the chunk-table assembly on the last
    rank, together with the properties the specification states about them.

    Beside the parallel path the file covers the argument loop, the header
    check for waveform data, the waveform loop and the serial lax and
    end-of-points loops of [main].

    Integers of the source ([I64], [int]) are modelled in [Z]; C++ division
    and remainder truncate towards zero, hence [Z.quot] and [Z.rem].  [U32]
    counters are modelled in [Z] with their wrap-around written out. *)

From Stdlib Require Import Strings.Byte.
From Stdlib Require Sorting.Sorted.
From stdpp Require Import base list numbers.
From stdpp Require strings gmap.

Local Open Scope Z_scope.

(** ** Arithmetic helpers *)

(** Sum of a list of integers (the mathematical sum, no wrap-around). *)
Definition Zsum (l : list Z) : Z := foldr Z.add 0 l.

(** Ceiling of a quotient, for positive divisors. *)
Definition cdiv (a b : Z) : Z := (a + b - 1) / b.

(** ** The partitioner (laszip.cpp, lines 807-858) *)

Module Partitioner.

(** First loop of the las -> laz branch (lines 823-831):
<<
  for (int i = 0; i < process_count; i++) {
    all_process_chunks[i] = process_chunks;
    if (left_over_chunks) { all_process_chunks[i]++; left_over_chunks--; }
  }
>>
    [n] counts the iterations still to run; the mutable [left_over_chunks]
    is threaded through. *)
Fixpoint deal_chunks (n : nat) (process_chunks left_over_chunks : Z) : list Z :=
  match n with
  | O => []
  | S n' =>
      if left_over_chunks =? 0
      then process_chunks :: deal_chunks n' process_chunks left_over_chunks
      else (process_chunks + 1) :: deal_chunks n' process_chunks (left_over_chunks - 1)
  end.

(** Second loop (lines 833-838):
<<
  for (int i = 0; i < process_count; i++) {
    all_point_start[i] = cur_point_start;
    cur_point_start += all_process_chunks[i] * chunk_size;
  }
>> *)
Fixpoint point_starts (all_process_chunks : list Z) (chunk_size cur_point_start : Z)
  : list Z :=
  match all_process_chunks with
  | [] => []
  | c :: rest =>
      cur_point_start :: point_starts rest chunk_size (cur_point_start + c * chunk_size)
  end.

(** The array [all_process_chunks] as the source fills it (lines 817-831).
    With [chunk_size = 0] or [process_count = 0] the divisions of lines
    818-821 trap in the source: [Z.quot] and [Z.rem] are the C++ operators
    for non-zero divisors only, so this is the source's array for a positive
    [chunk_size] and a positive [process_count]. *)
Definition all_process_chunks (npoints chunk_size process_count : Z) : list Z :=
  let chunks := npoints `quot` chunk_size in
  let process_chunks := chunks `quot` process_count in
  let left_over_chunks := chunks `rem` process_count in
  deal_chunks (Z.to_nat process_count) process_chunks left_over_chunks.

(** The array [all_point_start] (lines 832-838). *)
Definition all_point_start (npoints chunk_size process_count : Z) : list Z :=
  point_starts (all_process_chunks npoints chunk_size process_count) chunk_size 0.

(** A peer's range [(point_start, point_end)]. *)
Definition range : Type := Z * Z.

(** las -> laz branch (lines 813-849).  Reading an array outside its bounds
    is undefined in the source and gives some fixed value here; for
    [0 <= rank < process_count] it does not happen. *)
Definition las2laz_range (npoints chunk_size process_count rank : Z) : range :=
  let left_over_points := npoints `rem` chunk_size in
  let process_points :=
    (all_process_chunks npoints chunk_size process_count !!! Z.to_nat rank) * chunk_size in
  let point_start := all_point_start npoints chunk_size process_count !!! Z.to_nat rank in
  let point_end := point_start + process_points in
  (point_start,
   if rank =? process_count - 1 then point_end + left_over_points else point_end).

(** laz -> las branch (lines 850-858).  [process_count], the size of
    [MPI_COMM_WORLD], is at least 1; the division by 0 of the source is not
    modelled. *)
Definition laz2las_range (npoints process_count rank : Z) : range :=
  let left_over_points := npoints `rem` process_count in
  let process_points := npoints `quot` process_count in
  let point_start := rank * process_points in
  let point_end := point_start + process_points in
  (point_start,
   if rank =? process_count - 1 then point_end + left_over_points else point_end).

(** The [if (lasreader->header.laszip == NULL)] switch of line 813:
    [las2laz = true] when the input header carries no laszip descriptor. *)
Definition point_range (las2laz : bool) (npoints chunk_size process_count rank : Z)
  : range :=
  if las2laz then las2laz_range npoints chunk_size process_count rank
  else laz2las_range npoints process_count rank.

(** The deal in closed form, with floor division: how many whole chunks
    peer [R] is dealt, and where its range starts. *)
Definition chunks_of (N C P R : Z) : Z :=
  let K := N `div` C in
  if R <? K `mod` P then K `div` P + 1 else K `div` P.

Definition start_of (N C P R : Z) : Z :=
  let K := N `div` C in
  (R * (K `div` P) + Z.min R (K `mod` P)) * C.

End Partitioner.

(** ** Collaborators: the LAS/LAZ library behind [LASreader] and [LASwriter]

    The reader, the writer and the entropy coder live in LASlib and LASzip,
    outside [src/laszip.cpp]; the driver only calls them.  They are modelled
    here from section 6 of the specification ("External interfaces"). *)

Abbreviation byte := Byte.byte.

(** One write that reached the output file: an absolute offset and bytes. *)
Definition extent : Type := Z * list byte.

(** Modelled from the spec: the per-run constants of the LAS/LAZ library
    (header emission, point records, chunk-table writer), whose code is not
    part of the driver.  [header_image] is what opening a writer emits (header
    and VLRs, the same for every peer since the header-write pass is
    deterministic); [table_pointer] is the value the library gives
    [chunk_table_start_position] when a writer is opened; [raw_point] is the
    uncompressed record of a point; [chunk_table_image pos start n bytes] are
    the writes performed by the library's chunk-table writer when the stream
    is at [pos] and the writer holds [chunk_table_start_position = start],
    [number_chunks = n] and [chunk_bytes = bytes]. *)
Class Collaborators := {
  point : Type;
  header_image : list byte;
  table_pointer : Z;
  raw_point : point → list byte;
  chunk_table_image : Z → Z → Z → list Z → list extent;
}.

Module Stream.

(** Modelled from the spec: the byte sink of a writer, "open-to-null and
    open-to-real modes; current-stream-position (tell); absolute seek".  The
    null sink counts bytes but discards them. *)
Record stream := {
  use_nil : bool;
  pos : Z;
  extents : list extent;
}.

(** Modelled from the spec: writing bytes advances the position; only a
    real sink keeps them. *)
Definition put (bs : list byte) (s : stream) : stream :=
  {| use_nil := use_nil s;
     pos := pos s + Z.of_nat (length bs);
     extents := if use_nil s then extents s else extents s ++ [(pos s, bs)] |}.

(** Modelled from the spec: writes at explicit offsets, as the chunk-table
    writer makes them; the position is left where it was. *)
Definition puts (es : list extent) (s : stream) : stream :=
  {| use_nil := use_nil s;
     pos := pos s;
     extents := if use_nil s then extents s else extents s ++ es |}.

(** Modelled from the spec: "absolute seek". *)
Definition seek (off : Z) (s : stream) : stream :=
  {| use_nil := use_nil s; pos := off; extents := extents s |}.

(** The stream once everything written so far has reached the file (at a
    barrier): the record of writes starts afresh. *)
Definition flushed (s : stream) : stream :=
  {| use_nil := use_nil s; pos := pos s; extents := [] |}.

End Stream.

Module File.

(** The output file as a byte sequence; a write past the end leaves a hole
    of zero bytes, as a seek past the end of a file does. *)
Definition pwrite (f : list byte) (e : extent) : list byte :=
  let off := Z.to_nat e.1 in
  take off f ++ replicate (off - length f)%nat Byte.x00 ++ e.2
    ++ drop (off + length e.2) f.

Definition pwrites (es : list extent) (f : list byte) : list byte :=
  foldl pwrite f es.

(** Byte strings laid out back to back from offset [off]. *)
Fixpoint layout (off : Z) (ss : list (list byte)) : list extent :=
  match ss with
  | [] => []
  | s :: ss' => (off, s) :: layout (off + Z.of_nat (length s)) ss'
  end.

(** Two writes that touch no common byte. *)
Definition apart (e1 e2 : extent) : Prop :=
  (Z.to_nat e1.1 + length e1.2 ≤ Z.to_nat e2.1)%nat
  ∨ (Z.to_nat e2.1 + length e2.2 ≤ Z.to_nat e1.1)%nat.

(** Writes that are pairwise apart. *)
Fixpoint all_apart (es : list extent) : Prop :=
  match es with
  | [] => True
  | e :: es' => Forall (apart e) es' ∧ all_apart es'
  end.

(** The lengths of a list of strings (of bytes, of table entries). *)
Definition lengths {A} (ss : list (list A)) : list Z :=
  (λ s, Z.of_nat (length s)) <$> ss.

End File.

Module Writer.
Import Stream.

Section writer.
Context `{Collaborators}.

(** Modelled from the spec: the entropy coder seen from outside, the bytes
    of one chunk, i.e. of the points handed to it between two [done()] calls
    ("a contiguous run of points encoded as an independent arithmetic-coder
    stream"). *)
Definition encoder : Type := list point → list byte.

(** Modelled from the spec: the writer collaborator ([LASwriter] with its
    [LASwritePoint]), section 6: a point counter, the stream, and the chunk
    accounting [chunk_start_position], [number_chunks], [chunk_bytes],
    [chunk_table_start_position] the coordinator reads and overrides. *)
Record writer := {
  compress : bool;
  enc : encoder;
  chunk_size : Z;
  p_count : Z;
  stream_ : stream;
  pending : list point;
  chunk_count : Z;
  chunk_start_position : Z;
  number_chunks : Z;
  chunk_bytes : list Z;
  chunk_table_start_position : Z;
}.

Definition with_stream (s : stream) (w : writer) : writer :=
  {| compress := compress w; enc := enc w; chunk_size := chunk_size w;
     p_count := p_count w; stream_ := s; pending := pending w;
     chunk_count := chunk_count w;
     chunk_start_position := chunk_start_position w;
     number_chunks := number_chunks w; chunk_bytes := chunk_bytes w;
     chunk_table_start_position := chunk_table_start_position w |}.

(** Modelled from the spec: [laswriteopener.open(&lasreader->header)], a
    fresh writer whose stream stands right after the header and VLRs. *)
Definition open (nil compressed : bool) (e : encoder) (C : Z) : writer :=
  let s := put header_image {| use_nil := nil; pos := 0; extents := [] |} in
  {| compress := compressed; enc := e; chunk_size := C;
     p_count := 0; stream_ := s; pending := [];
     chunk_count := 0;
     chunk_start_position := pos s;
     number_chunks := 0; chunk_bytes := [];
     chunk_table_start_position := table_pointer |}.

(** Modelled from the spec: [laswriter->get_stream()->tell()]. *)
Definition tell (w : writer) : Z := pos (stream_ w).

(** Modelled from the spec: [enc->done()], "force chunk completion": the
    current arithmetic-coder stream is closed and its bytes are all in the
    sink. *)
Definition enc_done (w : writer) : writer :=
  {| compress := compress w; enc := enc w; chunk_size := chunk_size w;
     p_count := p_count w;
     stream_ := put (enc w (pending w)) (stream_ w);
     pending := [];
     chunk_count := chunk_count w;
     chunk_start_position := chunk_start_position w;
     number_chunks := number_chunks w; chunk_bytes := chunk_bytes w;
     chunk_table_start_position := chunk_table_start_position w |}.

(** Modelled from the spec: [add_chunk_to_table()], "append the completed
    chunk's byte count to chunk_bytes". *)
Definition add_chunk_to_table (w : writer) : writer :=
  {| compress := compress w; enc := enc w; chunk_size := chunk_size w;
     p_count := p_count w; stream_ := stream_ w; pending := pending w;
     chunk_count := chunk_count w;
     chunk_start_position := tell w;
     number_chunks := number_chunks w + 1;
     chunk_bytes := chunk_bytes w ++ [tell w - chunk_start_position w];
     chunk_table_start_position := chunk_table_start_position w |}.

(** Modelled from the spec: the steps of a compressed [write_point].  A
    chunk is closed when a point arrives and [chunk_size] points are already
    in it; then the point joins the open chunk. *)
Definition take_point (p : point) (w : writer) : writer :=
  {| compress := compress w; enc := enc w; chunk_size := chunk_size w;
     p_count := p_count w + 1; stream_ := stream_ w;
     pending := pending w ++ [p];
     chunk_count := chunk_count w + 1;
     chunk_start_position := chunk_start_position w;
     number_chunks := number_chunks w; chunk_bytes := chunk_bytes w;
     chunk_table_start_position := chunk_table_start_position w |}.

Definition new_chunk (w : writer) : writer :=
  {| compress := compress w; enc := enc w; chunk_size := chunk_size w;
     p_count := p_count w; stream_ := stream_ w; pending := pending w;
     chunk_count := 0;
     chunk_start_position := chunk_start_position w;
     number_chunks := number_chunks w; chunk_bytes := chunk_bytes w;
     chunk_table_start_position := chunk_table_start_position w |}.

Definition count_point (w : writer) : writer :=
  {| compress := compress w; enc := enc w; chunk_size := chunk_size w;
     p_count := p_count w + 1; stream_ := stream_ w; pending := pending w;
     chunk_count := chunk_count w;
     chunk_start_position := chunk_start_position w;
     number_chunks := number_chunks w; chunk_bytes := chunk_bytes w;
     chunk_table_start_position := chunk_table_start_position w |}.

(** Modelled from the spec: [write_point(p)] "with internal chunking on
    C-point boundaries" for a compressing writer; an uncompressed writer
    stores the raw record. *)
Definition write_point (p : point) (w : writer) : writer :=
  if compress w then
    take_point p
      (if chunk_count w =? chunk_size w
       then new_chunk (add_chunk_to_table (enc_done w))
       else w)
  else count_point (with_stream (put (raw_point p) (stream_ w)) w).

(** Assignments the driver makes to the writer's public fields. *)
Definition set_chunk_start_position (v : Z) (w : writer) : writer :=
  {| compress := compress w; enc := enc w; chunk_size := chunk_size w;
     p_count := p_count w; stream_ := stream_ w; pending := pending w;
     chunk_count := chunk_count w;
     chunk_start_position := v;
     number_chunks := number_chunks w; chunk_bytes := chunk_bytes w;
     chunk_table_start_position := chunk_table_start_position w |}.

Definition set_chunk_table (start n : Z) (bytes : list Z) (w : writer) : writer :=
  {| compress := compress w; enc := enc w; chunk_size := chunk_size w;
     p_count := p_count w; stream_ := stream_ w; pending := pending w;
     chunk_count := chunk_count w;
     chunk_start_position := chunk_start_position w;
     number_chunks := n; chunk_bytes := bytes;
     chunk_table_start_position := start |}.

(** Modelled from the spec: [write_chunk_table()], the library's table
    writer, run on the writer's current fields at the current stream
    position. *)
Definition write_chunk_table (w : writer) : writer :=
  with_stream
    (puts (chunk_table_image (tell w) (chunk_table_start_position w)
             (number_chunks w) (chunk_bytes w)) (stream_ w)) w.

End writer.
End Writer.

(** ** The driver (laszip.cpp, lines 797-1010) *)

Module Driver.
Import Stream Writer Partitioner.

(** Calls the driver makes on its collaborators (reader, writer, stream and
    the message-passing substrate), in program order. *)
Inductive call :=
| Open (nil : bool)
| Tell
| StreamSeek (off : Z)
| ReaderSeek (p : Z)
| ReadPoint
| WritePoint
| EncDone
| AddChunkToTable
| SetChunkStart
| WriteChunkTable
| Barrier
| Allgather
| Gather
| Send (dest tag : Z)
| Recv (source tag : Z).

(** Calls that terminate a chunk, exchange chunk metadata or write the
    chunk table. *)
Definition chunk_call (c : call) : bool :=
  match c with
  | EncDone | AddChunkToTable | WriteChunkTable
  | Gather | Send _ _ | Recv _ _ => true
  | _ => false
  end.

(** A 32-bit unsigned value: arithmetic on [U32] wraps. *)
Definition u32 (x : Z) : Z := x `mod` 2 ^ 32.

Section driver.
Context `{Collaborators}.

(** What one run is given: the input file's points, whether its header
    lacks a laszip descriptor ([lasreader->header.laszip == NULL], the
    las -> laz direction), [laswriteopener.get_chunk_size()], the size of
    [MPI_COMM_WORLD], and the entropy coder behind each of the two writers the
    driver opens.  The output is compressed exactly in the las -> laz
    direction, and the header's point count is the number of point records
    in the file. *)
Record job := {
  las2laz : bool;
  points : list point;
  get_chunk_size : Z;
  process_count : Z;
  sizing_enc : encoder;
  final_enc : encoder;
}.

(** [lasreader->npoints]. *)
Definition npoints (j : job) : Z := Z.of_nat (length (points j)).

(** Modelled from the spec: the reader collaborator, "seek(point_index) with
    byte-exact resumption; read_point() -> bool (false at end)": after
    [seek p] the reader has the points from index [p] on ahead of it. *)
Definition reader_seek (p : Z) (pts : list point) : list point :=
  drop (Z.to_nat p) pts.

(** One peer: its writer, the points still ahead of its reader, and the
    calls it has made so far. *)
Record peer := {
  laswriter : writer;
  ahead : list point;
  calls : list call;
}.

(** [write_point] called on each point of a list in turn. *)
Definition feed (pts : list point) (w : writer) : writer :=
  foldl (λ w p, write_point p w) w pts.

(** The encode loop of both passes (lines 865-872 and 918-925):
<<
  while (lasreader->read_point()) {
    laswriter->write_point(&lasreader->point);
    if (laswriter->p_count == point_end-point_start) break;
  }
>> *)
Fixpoint encode_loop (src : list point) (len : Z) (w : writer) (tr : list call)
  : peer :=
  match src with
  | [] => {| laswriter := w; ahead := []; calls := tr ++ [ReadPoint] |}
  | p :: rest =>
      let w' := write_point p w in
      let tr' := tr ++ [ReadPoint; WritePoint] in
      if p_count w' =? len
      then {| laswriter := w'; ahead := rest; calls := tr' |}
      else encode_loop rest len w' tr'
  end.

(** Lines 873-879 and 926-932: between two barriers, the las -> laz
    direction closes the coder and records the chunk. *)
Definition terminate_chunk (to_laz : bool) (pr : peer) : peer :=
  if to_laz then
    {| laswriter := add_chunk_to_table (enc_done (laswriter pr));
       ahead := ahead pr;
       calls := calls pr ++ [Barrier; EncDone; AddChunkToTable; Barrier] |}
  else
    {| laswriter := laswriter pr; ahead := ahead pr;
       calls := calls pr ++ [Barrier; Barrier] |}.

(** What the sizing pass leaves behind on a peer. *)
Record sized := {
  point_start : Z;
  point_end : Z;
  sizing_peer : peer;
  point_start_offset : Z;
  point_end_offset : Z;
}.

(** Line 882. *)
Definition point_bytes_written (s : sized) : Z :=
  point_end_offset s - point_start_offset s.

(** First iteration (lines 587-588 and 800-882): open the writer on the
    null sink, compute the range, encode it, read the stream position. *)
Definition sizing_pass (j : job) (rank : Z) : sized :=
  let w := open true (las2laz j) (sizing_enc j) (get_chunk_size j) in
  let r := point_range (las2laz j) (npoints j) (get_chunk_size j)
             (process_count j) rank in
  let start_offset := tell w in
  let pr := encode_loop (reader_seek r.1 (points j)) (r.2 - r.1) w
              [Open true; Tell; ReaderSeek r.1] in
  let pr := terminate_chunk (las2laz j) pr in
  {| point_start := r.1; point_end := r.2; sizing_peer := pr;
     point_start_offset := start_offset;
     point_end_offset := tell (laswriter pr) |}.

(** Lines 905-909:
<<
  I64 write_point_offset = laswriter->get_stream()->tell();
  for(int i=0; i< rank; i++) write_point_offset += all_point_bytes_written[i];
>>
    ([rank] never exceeds the array's length.) *)
Definition write_point_offset (stream_tell : Z) (all_point_bytes_written : list Z)
    (rank : Z) : Z :=
  foldl (λ off i, off + all_point_bytes_written !!! i) stream_tell
    (seq 0 (Z.to_nat rank)).

(** Line 901: the writer reopened on the real output file. *)
Definition reopened (j : job) : writer :=
  open false (las2laz j) (final_enc j) (get_chunk_size j).

(** Second iteration (lines 885-932).  [all_point_bytes_written] is the
    result of the all-gather.  The header written by [open] is in the file
    once the barrier of line 902 is passed; the extents of the returned
    writer are the writes made after it. *)
Definition final_pass (j : job) (rank : Z) (s : sized)
    (all_point_bytes_written : list Z) : peer :=
  let w := reopened j in
  let w := with_stream (flushed (stream_ w)) w in
  let off := write_point_offset (tell w) all_point_bytes_written rank in
  let w := with_stream (seek off (stream_ w)) w in
  let w := if las2laz j then set_chunk_start_position (tell w) w else w in
  let tr := calls (sizing_peer s)
            ++ [Tell; Barrier; Barrier; Allgather; Barrier; Open false; Barrier;
                Tell; StreamSeek off]
            ++ (if las2laz j then [Tell; SetChunkStart] else [])
            ++ [ReaderSeek (point_start s)] in
  terminate_chunk (las2laz j)
    (encode_loop (reader_seek (point_start s) (points j))
       (point_end s - point_start s) w tr).

(** Lines 941-948: the total is only summed on the last rank. *)
Definition number_chunks_total (number_chunks : list Z) (P : Z) : Z :=
  foldl (λ tot i, u32 (tot + number_chunks !!! i)) 0 (seq 0 (Z.to_nat P)).

(** Lines 955-961: the running offsets of the peers' rows. *)
Definition number_chunks_offsets (number_chunks : list Z) (P : Z) : list Z :=
  (foldl (λ st i, (st.1 ++ [st.2], u32 (st.2 + number_chunks !!! i)))
     ([], 0) (seq 0 (Z.to_nat P))).1.

(** [malloc (sizeof(U32) * n)]: [n] cells holding whatever the allocator
    hands back, here the first cells of [junk]. *)
Definition malloc_u32 (n : Z) (junk : list Z) : list Z :=
  take (Z.to_nat n) (junk ++ replicate (Z.to_nat n) 0).

(** Lines 964-972, on the last rank: peer [i]'s message is received at
    [chunk_bytes + number_chunks_offsets[i]], at most [number_chunks[i]]
    elements of it. *)
Definition recv_chunk_bytes (buf offsets number_chunks : list Z)
    (messages : list (list Z)) (P : Z) : list Z :=
  foldl (λ b i, list_inserts (Z.to_nat (offsets !!! i))
                  (take (Z.to_nat (number_chunks !!! i)) (messages !!! i)) b)
    buf (seq 0 (Z.to_nat P)).

(** The calls of lines 939-1009 on one rank. *)
Definition table_calls (P rank : Z) : list call :=
  let last := rank =? P - 1 in
  [Gather; Send (P - 1) 2]
  ++ (if last then (λ i, Recv (Z.of_nat i) 2) <$> seq 0 (Z.to_nat P) else [])
  ++ [Barrier]
  ++ (if rank =? 0 then [Send (P - 1) 3] else [])
  ++ (if last then [Recv 0 3] else [])
  ++ [Barrier]
  ++ (if last then [WriteChunkTable] else []).

(** Lines 934-1010.  [number_chunks] is the local array after [MPI_Gather]
    (the gathered counts on the last rank), [messages] the [chunk_bytes]
    arrays sent by the peers with tag 2, [table_position] the value rank 0
    sent with tag 3.  The writes of the final pass are in the file by now
    (barrier of line 932). *)
Definition table_pass (j : job) (rank : Z) (pr : peer)
    (number_chunks junk : list Z) (messages : list (list Z))
    (table_position : Z) : peer :=
  if las2laz j then
    let P := process_count j in
    let w := with_stream (flushed (stream_ (laswriter pr))) (laswriter pr) in
    let w :=
      if rank =? P - 1 then
        let total := number_chunks_total number_chunks P in
        let offsets := number_chunks_offsets number_chunks P in
        let buf := recv_chunk_bytes (malloc_u32 total junk) offsets
                     number_chunks messages P in
        write_chunk_table (set_chunk_table table_position total buf w)
      else w in
    {| laswriter := w; ahead := ahead pr;
       calls := calls pr ++ table_calls P rank |}
  else pr.

(** The way out of [main] on this path: [byebye(false, argc==1)], that is
    [MPI_Finalize(); exit(0)]. *)
Definition exit_status : Z := 0.

Record outcome := {
  exit_code : Z;
  final_peer : peer;
}.

(** One peer's run of the parallel path, given what the collectives
    deliver to it. *)
Definition peer_main (j : job) (rank : Z) (all_point_bytes_written : list Z)
    (number_chunks junk : list Z) (messages : list (list Z))
    (table_position : Z) : outcome :=
  let s := sizing_pass j rank in
  let pr := final_pass j rank s all_point_bytes_written in
  let pr := table_pass j rank pr number_chunks junk messages table_position in
  {| exit_code := exit_status; final_peer := pr |}.

End driver.
End Driver.

(** ** The cohort: all peers of one run, tied by the collectives *)

Module Cohort.
Import Stream Writer Partitioner Driver File.

Section cohort.
Context `{Collaborators}.

(** Ranks [0 .. process_count - 1]. *)
Definition ranks (j : job) : list Z := seqZ 0 (process_count j).

(** [MPI_Allgather] of line 890: every peer's [point_bytes_written], in
    rank order, on every peer. *)
Definition all_point_bytes_written (j : job) : list Z :=
  (λ r, point_bytes_written (sizing_pass j r)) <$> ranks j.

(** Every peer after line 932. *)
Definition finals (j : job) : list peer :=
  (λ r, final_pass j r (sizing_pass j r) (all_point_bytes_written j)) <$> ranks j.

(** [MPI_Gather] of line 940: each writer's [U32 number_chunks]. *)
Definition gathered_number_chunks (j : job) : list Z :=
  (λ pr, u32 (number_chunks (laswriter pr))) <$> finals j.

(** [MPI_Send] of line 953: [number_chunks] elements of [chunk_bytes]. *)
Definition chunk_bytes_messages (j : job) : list (list Z) :=
  (λ pr, take (Z.to_nat (number_chunks (laswriter pr)))
           (chunk_bytes (laswriter pr))) <$> finals j.

(** [MPI_Send] of line 979: rank 0's [chunk_table_start_position]. *)
Definition table_position_message (j : job) : Z :=
  from_option (λ pr, chunk_table_start_position (laswriter pr)) 0 (finals j !! 0%nat).

(** The last rank after line 1009. *)
Definition table_writer (j : job) (junk : list Z) : option peer :=
  (λ pr, table_pass j (process_count j - 1) pr (gathered_number_chunks j) junk
           (chunk_bytes_messages j) (table_position_message j))
    <$> finals j !! Z.to_nat (process_count j - 1).

(** The output file once every peer is through: the headers written at
    [open] (before the barrier of line 902), then the peers' point bytes
    (before the barrier of line 932), then the last rank's chunk table.
    Within a phase the writes are applied in rank order. *)
Definition header_phase (j : job) : list byte :=
  pwrites (concat ((λ _, extents (stream_ (reopened j))) <$> ranks j)) [].

Definition points_phase (j : job) : list byte :=
  pwrites (concat ((λ pr, extents (stream_ (laswriter pr))) <$> finals j))
    (header_phase j).

Definition output_file (j : job) (junk : list Z) : list byte :=
  if las2laz j then
    pwrites (from_option (λ pr, extents (stream_ (laswriter pr))) []
               (table_writer j junk))
      (points_phase j)
  else points_phase j.

End cohort.
End Cohort.

(** ** The serial reference encoder and decoder, in the specification's words *)

Module SerialReference.
Import File Writer.

Section serial.
Context `{Collaborators}.

(** Modelled from the spec: "Chunk. A contiguous run of exactly C points
    [...] every chunk except possibly the last in the file contains exactly
    C points."  [fuel] bounds the number of chunks. *)
Fixpoint split_chunks (fuel C : nat) (pts : list point) : list (list point) :=
  match fuel with
  | O => []
  | S fuel' =>
      match pts with
      | [] => []
      | _ => take C pts :: split_chunks fuel' C (drop C pts)
      end
  end.

Definition chunks (C : Z) (pts : list point) : list (list point) :=
  split_chunks (length pts) (Z.to_nat C) pts.

(** Modelled from the spec: the LAZ stream of a serial encoder, "header,
    compressed point bytes in order, chunk table": every chunk is an
    independent coder stream, the table lists the chunks' byte lengths and is
    written at the file tail by the library's table writer. *)
Definition serial_laz (e : encoder) (C : Z) (pts : list point) : list byte :=
  let streams := e <$> chunks C pts in
  let body := header_image ++ concat streams in
  pwrites
    (chunk_table_image (Z.of_nat (length body)) table_pointer
       (Z.of_nat (length streams)) ((λ s, Z.of_nat (length s)) <$> streams))
    body.

(** Modelled from the spec: the LAS output of a serial decoder, the header
    followed by the uncompressed point records in order. *)
Definition serial_las (pts : list point) : list byte :=
  header_image ++ concat (raw_point <$> pts).

End serial.
End SerialReference.

(** ** Bookkeeping used by the proofs *)

Module Accounting.
Import Stream Writer Driver File Cohort SerialReference.

Section accounting.
Context `{Collaborators}.

(** The runs of points on which a coder is closed when the points [pts]
    are written and the chunk is then terminated: the chunks of [pts], or one
    empty run when there is no point at all ([done()] is called
    unconditionally after the loop). *)
Definition coder_runs (C : Z) (pts : list point) : list (list point) :=
  match pts with
  | [] => [[]]
  | _ => chunks C pts
  end.

(** The points an encode loop writes when the reader stands before [src]
    and the writer has counted no point yet: the first [len] of them when
    [len] is positive, all of them otherwise (the loop's test follows the
    write, so it never succeeds for [len <= 0]). *)
Definition loop_points (src : list point) (len : Z) : list point :=
  if 0 <? len then take (Z.to_nat len) src else src.

(** The points peer [rank] writes in either pass. *)
Definition peer_points (j : job) (rank : Z) : list point :=
  let s := sizing_pass j rank in
  loop_points (reader_seek (point_start s) (points j)) (point_end s - point_start s).

(** The writer at the head of the final encode loop (lines 901-915), once
    it has sought to [off]. *)
Definition final_start (j : job) (off : Z) : writer :=
  let w := with_stream (seek off (flushed (stream_ (reopened j)))) (reopened j) in
  if las2laz j then set_chunk_start_position (tell w) w else w.

(** Where peer [rank] seeks before its final encode loop. *)
Definition placement (j : job) (rank : Z) : Z :=
  write_point_offset (tell (reopened j)) (all_point_bytes_written j) rank.

(** The coder streams of a peer's points, for a coder [e]. *)
Definition peer_streams (j : job) (e : encoder) (rank : Z) : list (list byte) :=
  e <$> coder_runs (get_chunk_size j) (peer_points j rank).

(** All peers' coder streams, in rank order. *)
Definition cohort_streams (j : job) (e : encoder) : list (list byte) :=
  concat (peer_streams j e <$> ranks j).

(** All peers' raw records, in rank order. *)
Definition cohort_records (j : job) : list (list byte) :=
  concat ((λ r, raw_point <$> peer_points j r) <$> ranks j).

(** The calls of lines 873-879 and 926-932. *)
Definition terminate_calls (to_laz : bool) : list call :=
  if to_laz then [Barrier; EncDone; AddChunkToTable; Barrier]
  else [Barrier; Barrier].

(** The calls between the two encode loops (lines 881-916). *)
Definition exchange_calls (to_laz : bool) (off start : Z) : list call :=
  [Tell; Barrier; Barrier; Allgather; Barrier; Open false; Barrier;
   Tell; StreamSeek off]
  ++ (if to_laz then [Tell; SetChunkStart] else [])
  ++ [ReaderSeek start].

(** Calls of an encode loop. *)
Definition loop_call (c : call) : Prop := c = ReadPoint ∨ c = WritePoint.

(** The writer is between two points of a compressed stream: the open chunk
    holds at most [chunk_size] points, all counted, and nothing of it is in
    the sink yet. *)
Definition chunk_inv (w : writer) : Prop :=
  compress w = true
  ∧ 1 ≤ chunk_size w
  ∧ chunk_count w = Z.of_nat (length (pending w))
  ∧ Z.of_nat (length (pending w)) ≤ chunk_size w
  ∧ chunk_start_position w = tell w.

(** From [w] to [w'] exactly the coder streams [ss] were put into the sink
    and entered into the chunk accounting. *)
Definition emitted (w w' : writer) (ss : list (list byte)) : Prop :=
  use_nil (stream_ w') = use_nil (stream_ w)
  ∧ tell w' = tell w + Zsum (lengths ss)
  ∧ extents (stream_ w')
    = extents (stream_ w) ++ (if use_nil (stream_ w) then [] else layout (tell w) ss)
  ∧ number_chunks w' = number_chunks w + Z.of_nat (length ss)
  ∧ chunk_bytes w' = chunk_bytes w ++ lengths ss
  ∧ chunk_start_position w' = tell w'
  ∧ chunk_table_start_position w' = chunk_table_start_position w.

(** The bytes a peer's final pass puts into the file.  The driver never
    computes this number. *)
Definition final_bytes_written (j : job) (rank : Z) : Z :=
  tell (laswriter (final_pass j rank (sizing_pass j rank) (all_point_bytes_written j)))
  - write_point_offset (tell (reopened j)) (all_point_bytes_written j) rank.

End accounting.
End Accounting.

(** ** A small concrete instance, to run the model on *)

Module Toy.
Import Writer Driver.

Definition octet (z : Z) : byte :=
  default Byte.x00 (Byte.of_N (Z.to_N (z `mod` 256))).

(** Points are small integers; the header is "LASF" followed by a one-byte
    slot for the chunk-table pointer; the table writer patches the slot and
    writes the chunk count and the byte counts at the stream position. *)
Definition toy : Collaborators := {|
  point := Z;
  header_image := octet <$> [76; 65; 83; 70; 0];
  table_pointer := 4;
  raw_point := λ p, [octet p; octet 255];
  chunk_table_image := λ pos start n bytes,
    [(start, [octet pos]); (pos, octet n :: (octet <$> bytes))];
|}.

#[local] Existing Instance toy.

(** A coder whose stream is a length byte followed by the points. *)
Definition toy_enc : @encoder toy :=
  λ pts, octet (200 + Z.of_nat (length pts)) :: (octet <$> pts).

(** A coder that behaves differently: it has no length byte. *)
Definition other_enc : @encoder toy := λ pts, octet <$> pts.

Definition toy_job (to_laz : bool) (pts : list Z) (C P : Z) : @job toy :=
  {| las2laz := to_laz; points := pts; get_chunk_size := C; process_count := P;
     sizing_enc := toy_enc; final_enc := toy_enc |}.

(** The same job with a final-pass coder that differs from the sizing one. *)
Definition skewed_job (pts : list Z) (C P : Z) : @job toy :=
  {| las2laz := true; points := pts; get_chunk_size := C; process_count := P;
     sizing_enc := toy_enc; final_enc := other_enc |}.

End Toy.

(** ** What a trace asks of the message-passing substrate *)

Module Messaging.
Import Driver.

(** Calls every rank of [MPI_COMM_WORLD] has to make for any of them to
    return. *)
Definition collective (c : call) : bool :=
  match c with
  | Barrier | Allgather | Gather => true
  | _ => false
  end.

(** The point-to-point messages a rank posts, as (source, destination,
    tag), in program order. *)
Fixpoint sent (rank : Z) (tr : list call) : list (Z * Z * Z) :=
  match tr with
  | [] => []
  | Send dest tag :: tr' => (rank, dest, tag) :: sent rank tr'
  | _ :: tr' => sent rank tr'
  end.

(** The point-to-point messages a rank waits for, as (source, destination,
    tag), in program order. *)
Fixpoint awaited (rank : Z) (tr : list call) : list (Z * Z * Z) :=
  match tr with
  | [] => []
  | Recv source tag :: tr' => (source, rank, tag) :: awaited rank tr'
  | _ :: tr' => awaited rank tr'
  end.

End Messaging.

(** ** The waveform loop (laszip.cpp, lines 599-708) *)

Module Waveform.
Import stdpp.gmap.
Import Driver.
Local Open Scope Z_scope.

(** A 64-bit unsigned value: arithmetic on [U64] wraps. *)
Definition u64 (x : Z) : Z := x `mod` 2 ^ 64.

(** [my_offset_size_map] (line 77): [std::map<U64, OffsetSize>], from an
    offset in the input waveform file to the offset and size of the copy. *)
Abbreviation my_offset_size_map := (gmap Z (Z * Z)).

(** [std::map::insert]: a key that is already present keeps its value. *)
Definition std_map_insert (k : Z) (v : Z * Z) (m : my_offset_size_map)
  : my_offset_size_map :=
  match m !! k with
  | Some _ => m
  | None => <[k := v]> m
  end.

Section waveform.

(** Everything of a point but its wave packet, and the state of the two
    waveform files behind [laswaveform13reader] and [laswaveform13writer]. *)
Variables attributes waveforms : Type.

(** [lasreader->point] as the loop sees it: its wave packet's descriptor
    index ([U8], 0 when the point has no waveform), byte offset ([U64]) and
    size ([U32]), and the rest. *)
Record wpoint := {
  attrs : attributes;
  getIndex : Z;
  getOffset : Z;
  getSize : Z;
}.

Definition setOffset (v : Z) (p : wpoint) : wpoint :=
  {| attrs := attrs p; getIndex := getIndex p; getOffset := v;
     getSize := getSize p |}.

Definition setSize (v : Z) (p : wpoint) : wpoint :=
  {| attrs := attrs p; getIndex := getIndex p; getOffset := getOffset p;
     getSize := v |}.

(** Lines 653-654, [read_waveform(&point)] followed by
    [write_waveform(&point, samples)]: library code outside [src/], which
    copies the waveform the point refers to and leaves in the point's wave
    packet where the copy went.  The model is parametric in it. *)
Variable copy_waveform : waveforms → wpoint → waveforms * wpoint.

(** The loop's variables (lines 604-611), the waveform files, the writer's
    point counter, and what the loop has asked of its collaborators so far:
    the points handed to [write_point], the points before and after each
    waveform copy, the offsets at which a gap warning was printed, and the
    [lasindex.add] entries. *)
Record state := {
  last_offset : Z;
  last_size : Z;
  new_offset : Z;
  new_size : Z;
  waves_written : Z;
  waves_referenced : Z;
  offset_size_map : my_offset_size_map;
  wave_files : waveforms;
  p_count : Z;
  written : list wpoint;
  copied : list (wpoint * wpoint);
  gap_warnings : list Z;
  lasindex : list (wpoint * Z);
}.

(** Lines 604-611, with a writer that has just been opened. *)
Definition initial (files : waveforms) : state :=
  {| last_offset := 0; last_size := 60; new_offset := 0; new_size := 0;
     waves_written := 0; waves_referenced := 0; offset_size_map := ∅;
     wave_files := files; p_count := 0; written := []; copied := [];
     gap_warnings := []; lasindex := [] |}.

(** Line 630. *)
Definition reference (s : state) : state :=
  {| last_offset := last_offset s; last_size := last_size s;
     new_offset := new_offset s; new_size := new_size s;
     waves_written := waves_written s;
     waves_referenced := u32 (waves_referenced s + 1);
     offset_size_map := offset_size_map s; wave_files := wave_files s;
     p_count := p_count s; written := written s; copied := copied s;
     gap_warnings := gap_warnings s; lasindex := lasindex s |}.

(** Lines 638-649: the warning, printed only without the map. *)
Definition warn_gap (with_map : bool) (p : wpoint) (s : state) : state :=
  if (u64 (last_offset s + last_size s) <? getOffset p) && negb with_map then
    {| last_offset := last_offset s; last_size := last_size s;
       new_offset := new_offset s; new_size := new_size s;
       waves_written := waves_written s;
       waves_referenced := waves_referenced s;
       offset_size_map := offset_size_map s; wave_files := wave_files s;
       p_count := p_count s; written := written s; copied := copied s;
       gap_warnings := gap_warnings s ++ [getOffset p];
       lasindex := lasindex s |}
  else s.

(** Lines 650-660 and 670-677: the waveform is copied and the point comes
    back with its new place, which is remembered (in the map, too, when there
    is one). *)
Definition store (with_map : bool) (p : wpoint) (s : state) : state * wpoint :=
  let r := copy_waveform (wave_files s) p in
  ({| last_offset := getOffset p; last_size := getSize p;
      new_offset := getOffset r.2; new_size := getSize r.2;
      waves_written := u32 (waves_written s + 1);
      waves_referenced := waves_referenced s;
      offset_size_map :=
        if with_map
        then std_map_insert (getOffset p) (getOffset r.2, getSize r.2)
               (offset_size_map s)
        else offset_size_map s;
      wave_files := r.1;
      p_count := p_count s; written := written s;
      copied := copied s ++ [(p, r.2)];
      gap_warnings := gap_warnings s; lasindex := lasindex s |},
   r.2).

(** Lines 628-697, for a point attached to a waveform; [None] is the
    [byebye(true, argc==1)] of line 694. *)
Definition redirect (with_map : bool) (p : wpoint) (s : state)
  : option (state * wpoint) :=
  let s := reference s in
  if getOffset p =? last_offset s then
    Some (s, setSize (new_size s) (setOffset (new_offset s) p))
  else if last_offset s <? getOffset p then
    Some (store with_map p (warn_gap with_map p s))
  else if with_map then
    match offset_size_map s !! getOffset p with
    | None => Some (store true p s)
    | Some e => Some (s, setSize e.2 (setOffset e.1 p))
    end
  else None.

(** Modelled from the spec: [laswriter->write_point(&lasreader->point)]
    as far as this loop depends on it, the writer's point counter goes up by
    one (section 6, "a point counter"); the point is noted. *)
Definition write_point (p : wpoint) (s : state) : state :=
  {| last_offset := last_offset s; last_size := last_size s;
     new_offset := new_offset s; new_size := new_size s;
     waves_written := waves_written s;
     waves_referenced := waves_referenced s;
     offset_size_map := offset_size_map s; wave_files := wave_files s;
     p_count := p_count s + 1; written := written s ++ [p];
     copied := copied s; gap_warnings := gap_warnings s;
     lasindex := lasindex s |}.

(** Line 701: [lasindex.add(x, y, (U32)(laswriter->p_count))]. *)
Definition lasindex_add (p : wpoint) (s : state) : state :=
  {| last_offset := last_offset s; last_size := last_size s;
     new_offset := new_offset s; new_size := new_size s;
     waves_written := waves_written s;
     waves_referenced := waves_referenced s;
     offset_size_map := offset_size_map s; wave_files := wave_files s;
     p_count := p_count s; written := written s;
     copied := copied s; gap_warnings := gap_warnings s;
     lasindex := lasindex s ++ [(p, u32 (p_count s))] |}.

(** Lines 698-706: the point is written and, with [-lax], added to the
    index.  (The [update_inventory] of line 705 touches the writer's
    inventory only, which the model does not carry.) *)
Definition write (lax : bool) (p : wpoint) (s : state) : state :=
  let s := write_point p s in
  if lax then lasindex_add p s else s.

(** How the loop ends: at the end of the input, or in [byebye(true)]. *)
Inductive ending :=
| Completed (s : state)
| Byebye (error : bool) (s : state).

(** Lines 626-707; [src] are the points the reader still has. *)
Fixpoint waveform_loop (with_map lax : bool) (src : list wpoint) (s : state)
  : ending :=
  match src with
  | [] => Completed s
  | p :: rest =>
      if getIndex p =? 0 then waveform_loop with_map lax rest (write lax p s)
      else
        match redirect with_map p s with
        | None => Byebye true (reference s)
        | Some r => waveform_loop with_map lax rest (write lax r.2 r.1)
        end
  end.

(** *** Bookkeeping used by the proofs *)

(** What holds of the place the loop remembers, and of the map: each is
    where some waveform copy left a point that came with that offset. *)
Definition stored_at (s : state) (o no nz : Z) : Prop :=
  ∃ pp, pp ∈ copied s ∧ getOffset pp.1 = o
        ∧ getOffset pp.2 = no ∧ getSize pp.2 = nz.

Definition sound (s : state) : Prop :=
  (0 < last_offset s →
   stored_at s (last_offset s) (new_offset s) (new_size s))
  ∧ (∀ k e, offset_size_map s !! k = Some e → stored_at s k e.1 e.2).

(** How a point leaves the loop. *)
Definition redirected (s' : state) (q q' : wpoint) : Prop :=
  if getIndex q =? 0 then q' = q
  else stored_at s' (getOffset q) (getOffset q') (getSize q').

(** The offsets of the points attached to a waveform, in input order. *)
Definition attached_offsets (src : list wpoint) : list Z :=
  getOffset <$> List.filter (λ p, negb (getIndex p =? 0)) src.

End waveform.

Arguments attrs {_}.
Arguments getIndex {_}.
Arguments getOffset {_}.
Arguments getSize {_}.
Arguments setOffset {_}.
Arguments setSize {_}.
Arguments attached_offsets {_}.
Arguments stored_at {_ _}.
Arguments sound {_ _}.
Arguments redirected {_ _}.
Arguments Completed {_ _}.
Arguments Byebye {_ _}.

End Waveform.

(** A small instance to run the loop on: points without attributes, and a
    waveform writer that appends each copy to its output, whose length so far
    is all its state. *)
Module WaveformToy.
Import Waveform.

Definition append_waveform (len : Z) (p : wpoint unit) : Z * wpoint unit :=
  (len + getSize p, setOffset len p).

Definition wp (index offset size : Z) : wpoint unit :=
  {| attrs := (); getIndex := index; getOffset := offset; getSize := size |}.

End WaveformToy.

(** ** The serial loops (laszip.cpp, lines 752-756, 777-794 and 1017-1088) *)

Module SerialPaths.
Import Stream Writer Driver.

Section serial_paths.
Context `{Collaborators}.

(** The bytes of the [LASpoint] object in the reader's memory, as values
    from 0 to 255: what [memcmp(point10, &lasreader->point, 20)] reads the
    first 20 of.  The layout is the compiler's; the model is parametric in
    it. *)
Variable point_memory : point → list Z.

(** Lines 779-780 and 1058-1059: [memset(point10, end_of_points, 20)]
    stores the value converted to [unsigned char], twenty times. *)
Definition point10 (end_of_points : Z) : list Z :=
  replicate 20 (end_of_points `mod` 256).

(** Lines 786 and 1065: [memcmp(point10, &lasreader->point, 20) == 0]. *)
Definition is_end_of_points (end_of_points : Z) (p : point) : bool :=
  bool_decide (take 20 (point_memory p) = point10 end_of_points).

(** Lines 784-792 and 1063-1071: the writer, and the points the reader
    still has, when the loop is left.  (The [update_inventory] call touches
    the writer's inventory only.) *)
Fixpoint eop_loop (end_of_points : Z) (src : list point) (w : writer)
  : writer * list point :=
  match src with
  | [] => (w, [])
  | p :: rest =>
      if is_end_of_points end_of_points p then (w, rest)
      else eop_loop end_of_points rest (write_point p w)
  end.

(** Lines 752-756 and 1030-1035: each point is added to the spatial index
    under the writer's count, then written.  [lasindex] collects the
    [lasindex.add] calls: the point and the [U32] it is entered under. *)
Fixpoint lax_loop (src : list point) (w : writer) (lasindex : list (point * Z))
  : writer * list (point * Z) :=
  match src with
  | [] => (w, lasindex)
  | p :: rest =>
      lax_loop rest (write_point p w) (lasindex ++ [(p, u32 (p_count w))])
  end.

End serial_paths.
End SerialPaths.

(** ** The header check for waveform data (laszip.cpp, lines 538-550) *)

Module Header.

(** A 16-bit unsigned value. *)
Definition u16 (x : Z) : Z := x `mod` 2 ^ 16.

(** [U64] to [I64]: values from [2^63] on come out negative. *)
Definition i64 (x : Z) : Z := (x + 2 ^ 63) `mod` 2 ^ 64 - 2 ^ 63.

(** The fields of [lasreader->header] the check looks at;
    [global_encoding] is a [U16] and [start_of_waveform_data_packet_record] a
    [U64] of the library's header. *)
Record header := {
  version_major : Z;
  version_minor : Z;
  global_encoding : Z;
  start_of_waveform_data_packet_record : Z;
}.

(** Lines 538-550.  The second component is the local
    [I64 start_of_waveform_data_packet_record] of line 463.
    [~((U16)2)] is the [int] [-3]; the result of [&=] and [|=] is stored
    back into a [U16]. *)
Definition waveform_check (h : header) : header * Z :=
  if (version_major h =? 1) && (3 <=? version_minor h) then
    if negb (Z.land (global_encoding h) 2 =? 0) then
      let g := u16 (Z.land (global_encoding h) (Z.lnot 2)) in
      if negb (start_of_waveform_data_packet_record h =? 0) then
        ({| version_major := version_major h; version_minor := version_minor h;
            global_encoding := u16 (Z.lor g 4);
            start_of_waveform_data_packet_record := 0 |},
         i64 (start_of_waveform_data_packet_record h))
      else
        ({| version_major := version_major h; version_minor := version_minor h;
            global_encoding := g;
            start_of_waveform_data_packet_record :=
              start_of_waveform_data_packet_record h |},
         0)
    else (h, 0)
  else (h, 0).

End Header.

(** ** The command line (laszip.cpp, lines 128-152 and 185-336) *)

Module CommandLine.
Import stdpp.strings.
Import Driver.
Local Open Scope Z_scope.

(** [argv[i][0] == '\0']: an argument another parser has already taken. *)
Definition taken (a : string) : bool :=
  match a with
  | EmptyString => true
  | String _ _ => false
  end.

(** [argv[i][0] != '-']. *)
Definition no_dash (a : string) : bool :=
  match a with
  | EmptyString => true
  | String c _ => negb (String.eqb (String c EmptyString) "-")
  end.

Section command_line.

(** The state of [lasreadopener], with its [get_file_name_number()] and
    [add_file_name()], and [atoi] of the C library: code outside [src/], in
    which the model is parametric. *)
Variable opener : Type.
Variable get_file_name_number : opener → Z.
Variable add_file_name : string → opener → opener.
Variable atoi : string → Z.

(** The options [main] keeps in local variables (lines 128-151), and
    [lasreadopener].  [tile_size] is kept as the text of the argument ([None]
    for the default [100.0f]): the value is [(F32)atof] of it, and nothing
    here computes with it. *)
Record options := {
  dry : bool;
  verbose : bool;
  waveform : bool;
  waveform_with_map : bool;
  report_file_size : bool;
  check_integrity : bool;
  end_of_points : Z;
  lax : bool;
  append : bool;
  remain_compatible : bool;
  move_CRS : bool;
  move_all : bool;
  tile_size : option string;
  threshold : Z;
  minimum_points : Z;
  maximum_intervals : Z;
  lasreadopener : opener;
}.

(** Lines 128-151, with [lasreadopener] as [lasreadopener.parse] has left
    it (line 181). *)
Definition defaults (lro : opener) : options :=
  {| dry := false; verbose := false; waveform := false;
     waveform_with_map := false; report_file_size := false;
     check_integrity := false; end_of_points := -1; lax := false;
     append := false; remain_compatible := false; move_CRS := false;
     move_all := false; tile_size := None; threshold := 1000;
     minimum_points := 100000; maximum_intervals := -20;
     lasreadopener := lro |}.

Definition set_verbose (o : options) : options :=
  {| dry := dry o; verbose := true; waveform := waveform o;
     waveform_with_map := waveform_with_map o;
     report_file_size := report_file_size o;
     check_integrity := check_integrity o; end_of_points := end_of_points o;
     lax := lax o; append := append o;
     remain_compatible := remain_compatible o; move_CRS := move_CRS o;
     move_all := move_all o; tile_size := tile_size o;
     threshold := threshold o; minimum_points := minimum_points o;
     maximum_intervals := maximum_intervals o;
     lasreadopener := lasreadopener o |}.

Definition set_dry (o : options) : options :=
  {| dry := true; verbose := verbose o; waveform := waveform o;
     waveform_with_map := waveform_with_map o;
     report_file_size := report_file_size o;
     check_integrity := check_integrity o; end_of_points := end_of_points o;
     lax := lax o; append := append o;
     remain_compatible := remain_compatible o; move_CRS := move_CRS o;
     move_all := move_all o; tile_size := tile_size o;
     threshold := threshold o; minimum_points := minimum_points o;
     maximum_intervals := maximum_intervals o;
     lasreadopener := lasreadopener o |}.

Definition set_lax (o : options) : options :=
  {| dry := dry o; verbose := verbose o; waveform := waveform o;
     waveform_with_map := waveform_with_map o;
     report_file_size := report_file_size o;
     check_integrity := check_integrity o; end_of_points := end_of_points o;
     lax := true; append := append o;
     remain_compatible := remain_compatible o; move_CRS := move_CRS o;
     move_all := move_all o; tile_size := tile_size o;
     threshold := threshold o; minimum_points := minimum_points o;
     maximum_intervals := maximum_intervals o;
     lasreadopener := lasreadopener o |}.

Definition set_append (o : options) : options :=
  {| dry := dry o; verbose := verbose o; waveform := waveform o;
     waveform_with_map := waveform_with_map o;
     report_file_size := report_file_size o;
     check_integrity := check_integrity o; end_of_points := end_of_points o;
     lax := lax o; append := true; remain_compatible := remain_compatible o;
     move_CRS := move_CRS o; move_all := move_all o;
     tile_size := tile_size o; threshold := threshold o;
     minimum_points := minimum_points o;
     maximum_intervals := maximum_intervals o;
     lasreadopener := lasreadopener o |}.

Definition set_remain_compatible (o : options) : options :=
  {| dry := dry o; verbose := verbose o; waveform := waveform o;
     waveform_with_map := waveform_with_map o;
     report_file_size := report_file_size o;
     check_integrity := check_integrity o; end_of_points := end_of_points o;
     lax := lax o; append := append o; remain_compatible := true;
     move_CRS := move_CRS o; move_all := move_all o;
     tile_size := tile_size o; threshold := threshold o;
     minimum_points := minimum_points o;
     maximum_intervals := maximum_intervals o;
     lasreadopener := lasreadopener o |}.

Definition set_move_CRS (o : options) : options :=
  {| dry := dry o; verbose := verbose o; waveform := waveform o;
     waveform_with_map := waveform_with_map o;
     report_file_size := report_file_size o;
     check_integrity := check_integrity o; end_of_points := end_of_points o;
     lax := lax o; append := append o;
     remain_compatible := remain_compatible o; move_CRS := true;
     move_all := move_all o; tile_size := tile_size o;
     threshold := threshold o; minimum_points := minimum_points o;
     maximum_intervals := maximum_intervals o;
     lasreadopener := lasreadopener o |}.

Definition set_move_all (o : options) : options :=
  {| dry := dry o; verbose := verbose o; waveform := waveform o;
     waveform_with_map := waveform_with_map o;
     report_file_size := report_file_size o;
     check_integrity := check_integrity o; end_of_points := end_of_points o;
     lax := lax o; append := append o;
     remain_compatible := remain_compatible o; move_CRS := move_CRS o;
     move_all := true; tile_size := tile_size o; threshold := threshold o;
     minimum_points := minimum_points o;
     maximum_intervals := maximum_intervals o;
     lasreadopener := lasreadopener o |}.

Definition set_report_file_size (o : options) : options :=
  {| dry := dry o; verbose := verbose o; waveform := waveform o;
     waveform_with_map := waveform_with_map o; report_file_size := true;
     check_integrity := check_integrity o; end_of_points := end_of_points o;
     lax := lax o; append := append o;
     remain_compatible := remain_compatible o; move_CRS := move_CRS o;
     move_all := move_all o; tile_size := tile_size o;
     threshold := threshold o; minimum_points := minimum_points o;
     maximum_intervals := maximum_intervals o;
     lasreadopener := lasreadopener o |}.

Definition set_check_integrity (o : options) : options :=
  {| dry := dry o; verbose := verbose o; waveform := waveform o;
     waveform_with_map := waveform_with_map o;
     report_file_size := report_file_size o; check_integrity := true;
     end_of_points := end_of_points o; lax := lax o; append := append o;
     remain_compatible := remain_compatible o; move_CRS := move_CRS o;
     move_all := move_all o; tile_size := tile_size o;
     threshold := threshold o; minimum_points := minimum_points o;
     maximum_intervals := maximum_intervals o;
     lasreadopener := lasreadopener o |}.

Definition set_waveform (o : options) : options :=
  {| dry := dry o; verbose := verbose o; waveform := true;
     waveform_with_map := waveform_with_map o;
     report_file_size := report_file_size o;
     check_integrity := check_integrity o; end_of_points := end_of_points o;
     lax := lax o; append := append o;
     remain_compatible := remain_compatible o; move_CRS := move_CRS o;
     move_all := move_all o; tile_size := tile_size o;
     threshold := threshold o; minimum_points := minimum_points o;
     maximum_intervals := maximum_intervals o;
     lasreadopener := lasreadopener o |}.

(** Lines 323-324. *)
Definition set_waveform_with_map (o : options) : options :=
  {| dry := dry o; verbose := verbose o; waveform := true;
     waveform_with_map := true; report_file_size := report_file_size o;
     check_integrity := check_integrity o; end_of_points := end_of_points o;
     lax := lax o; append := append o;
     remain_compatible := remain_compatible o; move_CRS := move_CRS o;
     move_all := move_all o; tile_size := tile_size o;
     threshold := threshold o; minimum_points := minimum_points o;
     maximum_intervals := maximum_intervals o;
     lasreadopener := lasreadopener o |}.

Definition set_end_of_points (v : Z) (o : options) : options :=
  {| dry := dry o; verbose := verbose o; waveform := waveform o;
     waveform_with_map := waveform_with_map o;
     report_file_size := report_file_size o;
     check_integrity := check_integrity o; end_of_points := v; lax := lax o;
     append := append o; remain_compatible := remain_compatible o;
     move_CRS := move_CRS o; move_all := move_all o;
     tile_size := tile_size o; threshold := threshold o;
     minimum_points := minimum_points o;
     maximum_intervals := maximum_intervals o;
     lasreadopener := lasreadopener o |}.

Definition set_tile_size (a : string) (o : options) : options :=
  {| dry := dry o; verbose := verbose o; waveform := waveform o;
     waveform_with_map := waveform_with_map o;
     report_file_size := report_file_size o;
     check_integrity := check_integrity o; end_of_points := end_of_points o;
     lax := lax o; append := append o;
     remain_compatible := remain_compatible o; move_CRS := move_CRS o;
     move_all := move_all o; tile_size := Some a; threshold := threshold o;
     minimum_points := minimum_points o;
     maximum_intervals := maximum_intervals o;
     lasreadopener := lasreadopener o |}.

Definition set_maximum_intervals (v : Z) (o : options) : options :=
  {| dry := dry o; verbose := verbose o; waveform := waveform o;
     waveform_with_map := waveform_with_map o;
     report_file_size := report_file_size o;
     check_integrity := check_integrity o; end_of_points := end_of_points o;
     lax := lax o; append := append o;
     remain_compatible := remain_compatible o; move_CRS := move_CRS o;
     move_all := move_all o; tile_size := tile_size o;
     threshold := threshold o; minimum_points := minimum_points o;
     maximum_intervals := v; lasreadopener := lasreadopener o |}.

(** [U32 minimum_points = atoi(...)]: the [int] is converted to [U32]. *)
Definition set_minimum_points (v : Z) (o : options) : options :=
  {| dry := dry o; verbose := verbose o; waveform := waveform o;
     waveform_with_map := waveform_with_map o;
     report_file_size := report_file_size o;
     check_integrity := check_integrity o; end_of_points := end_of_points o;
     lax := lax o; append := append o;
     remain_compatible := remain_compatible o; move_CRS := move_CRS o;
     move_all := move_all o; tile_size := tile_size o;
     threshold := threshold o; minimum_points := u32 v;
     maximum_intervals := maximum_intervals o;
     lasreadopener := lasreadopener o |}.

(** [U32 threshold = atoi(...)]. *)
Definition set_threshold (v : Z) (o : options) : options :=
  {| dry := dry o; verbose := verbose o; waveform := waveform o;
     waveform_with_map := waveform_with_map o;
     report_file_size := report_file_size o;
     check_integrity := check_integrity o; end_of_points := end_of_points o;
     lax := lax o; append := append o;
     remain_compatible := remain_compatible o; move_CRS := move_CRS o;
     move_all := move_all o; tile_size := tile_size o; threshold := u32 v;
     minimum_points := minimum_points o;
     maximum_intervals := maximum_intervals o;
     lasreadopener := lasreadopener o |}.

Definition set_lasreadopener (lro : opener) (o : options) : options :=
  {| dry := dry o; verbose := verbose o; waveform := waveform o;
     waveform_with_map := waveform_with_map o;
     report_file_size := report_file_size o;
     check_integrity := check_integrity o; end_of_points := end_of_points o;
     lax := lax o; append := append o;
     remain_compatible := remain_compatible o; move_CRS := move_CRS o;
     move_all := move_all o; tile_size := tile_size o;
     threshold := threshold o; minimum_points := minimum_points o;
     maximum_intervals := maximum_intervals o; lasreadopener := lro |}.

(** How the loop ends: it runs through, or it leaves the program through
    [usage(error)] ([exit(error)]) or [byebye(error)] ([MPI_Finalize();
    exit(error)]). *)
Inductive parsed :=
| Continue (o : options)
| Usage (error : bool)
| Byebye (error : bool).

(** Lines 185-336, built without [COMPILE_WITH_GUI] and
    [COMPILE_WITH_MULTI_CORE] (the Makefiles define neither); [argv] are
    the arguments from [argv[1]] on.  An option that needs a value takes the
    next argument, whatever it is; [-cores] skips it. *)
Fixpoint parse_arguments (argv : list string) (o : options) : parsed :=
  match argv with
  | [] => Continue o
  | a :: rest =>
      if taken a then parse_arguments rest o
      else if String.eqb a "-h" || String.eqb a "-help" then Usage false
      else if String.eqb a "-v" || String.eqb a "-verbose" then
        parse_arguments rest (set_verbose o)
      else if String.eqb a "-version" then Byebye false
      else if String.eqb a "-gui" then parse_arguments rest o
      else if String.eqb a "-cores" then
        match rest with
        | [] => Continue o
        | _ :: rest' => parse_arguments rest' o
        end
      else if String.eqb a "-dry" then parse_arguments rest (set_dry o)
      else if String.eqb a "-lax" then parse_arguments rest (set_lax o)
      else if String.eqb a "-append" then parse_arguments rest (set_append o)
      else if String.eqb a "-remain_compatible" then
        parse_arguments rest (set_remain_compatible o)
      else if String.eqb a "-move_CRS" then parse_arguments rest (set_move_CRS o)
      else if String.eqb a "-move_all" then parse_arguments rest (set_move_all o)
      else if String.eqb a "-eop" then
        match rest with
        | [] => Usage true
        | v :: rest' =>
            if (atoi v <? 0) || (255 <? atoi v) then Usage true
            else parse_arguments rest' (set_end_of_points (atoi v) o)
        end
      else if String.eqb a "-tile_size" then
        match rest with
        | [] => Usage true
        | v :: rest' => parse_arguments rest' (set_tile_size v o)
        end
      else if String.eqb a "-maximum" then
        match rest with
        | [] => Usage true
        | v :: rest' => parse_arguments rest' (set_maximum_intervals (atoi v) o)
        end
      else if String.eqb a "-minimum" then
        match rest with
        | [] => Usage true
        | v :: rest' => parse_arguments rest' (set_minimum_points (atoi v) o)
        end
      else if String.eqb a "-threshold" then
        match rest with
        | [] => Usage true
        | v :: rest' => parse_arguments rest' (set_threshold (atoi v) o)
        end
      else if String.eqb a "-size" then parse_arguments rest (set_report_file_size o)
      else if String.eqb a "-check" then parse_arguments rest (set_check_integrity o)
      else if String.eqb a "-waveform" || String.eqb a "-waveforms" then
        parse_arguments rest (set_waveform o)
      else if String.eqb a "-waveform_with_map"
              || String.eqb a "-waveforms_with_map" then
        parse_arguments rest (set_waveform_with_map o)
      else if no_dash a && (get_file_name_number (lasreadopener o) =? 0) then
        parse_arguments rest
          (set_lasreadopener (add_file_name a (lasreadopener o)) o)
      else Usage true
  end.

End command_line.

Arguments dry {_}.
Arguments verbose {_}.
Arguments waveform {_}.
Arguments waveform_with_map {_}.
Arguments report_file_size {_}.
Arguments check_integrity {_}.
Arguments end_of_points {_}.
Arguments lax {_}.
Arguments append {_}.
Arguments remain_compatible {_}.
Arguments move_CRS {_}.
Arguments move_all {_}.
Arguments tile_size {_}.
Arguments threshold {_}.
Arguments minimum_points {_}.
Arguments maximum_intervals {_}.
Arguments lasreadopener {_}.
Arguments Continue {_}.
Arguments Usage {_}.
Arguments Byebye {_}.

End CommandLine.

(** An instance to run the command line on: an opener that only keeps the
    file names, and a reader of decimal digits (0 when there is none). *)
Module CommandLineToy.
Import stdpp.strings.
Local Open Scope Z_scope.

Definition get_file_name_number (names : list string) : Z :=
  Z.of_nat (length names).

Definition add_file_name (a : string) (names : list string) : list string :=
  names ++ [a].

Definition digit (c : Ascii.ascii) : option Z :=
  let n := Z.of_nat (Ascii.nat_of_ascii c) in
  if (48 <=? n) && (n <=? 57) then Some (n - 48) else None.

Fixpoint digits (acc : Z) (s : string) : Z :=
  match s with
  | EmptyString => acc
  | String c s' =>
      match digit c with
      | Some d => digits (10 * acc + d) s'
      | None => acc
      end
  end.

Definition atoi (s : string) : Z := digits 0 s.

(** [parse_arguments] on this instance. *)
Definition parse (argv names : list string)
  : CommandLine.parsed (list string) :=
  CommandLine.parse_arguments (list string) get_file_name_number add_file_name
    atoi argv (CommandLine.defaults (list string) names).

End CommandLineToy.

(** * Properties *)

(** Case analysis on every integer comparison of the goal. *)
Ltac case_ltb :=
  repeat match goal with
         | |- context [?a <? ?b] => destruct (Z.ltb_spec a b)
         | |- context [?a =? ?b] => destruct (Z.eqb_spec a b)
         end.

(** ** Sums and truncating division *)

Lemma Zsum_app (l k : list Z) : Zsum (l ++ k) = Zsum l + Zsum k.
Proof. induction l as [|x l IH]; simpl; [done | rewrite IH; lia]. Qed.

Lemma Zsum_nonneg (l : list Z) : Forall (λ x, 0 ≤ x) l → 0 ≤ Zsum l.
Proof. induction 1; simpl; lia. Qed.

Lemma Zsum_take_le (l : list Z) (i k : nat) :
  Forall (λ x, 0 ≤ x) l → (i ≤ k)%nat → Zsum (take i l) ≤ Zsum (take k l).
Proof.
  intros Hl. revert i k.
  induction Hl as [|x l Hx Hl IH]; intros i k Hik.
  - by rewrite !take_nil.
  - destruct i as [|i], k as [|k]; simpl; try lia.
    + assert (0 ≤ Zsum (take k l)) by (apply Zsum_nonneg; by apply Forall_take). lia.
    + specialize (IH i k). lia.
Qed.

Lemma Zsum_telescope (g : Z → Z) (n : nat) :
  Zsum ((λ r, g (r + 1) - g r) <$> seqZ 0 (Z.of_nat n)) = g (Z.of_nat n) - g 0.
Proof.
  induction n as [|n IH].
  - rewrite seqZ_nil by done. change (Z.of_nat 0) with 0. simpl. lia.
  - rewrite seqZ_S, fmap_app, Zsum_app, IH. cbn [fmap list_fmap Zsum foldr].
    rewrite Z.add_0_l. replace (Z.of_nat (S n)) with (Z.of_nat n + 1) by lia. lia.
Qed.

Lemma cdiv_exact (a b : Z) : 0 < b → a `mod` b = 0 → cdiv a b = a `div` b.
Proof.
  intros Hb Hr. unfold cdiv.
  symmetry. apply (Z.div_unique _ _ _ (b - 1)); [lia|].
  pose proof (Z.div_mod a b). lia.
Qed.

Lemma cdiv_inexact (a b : Z) : 0 < b → 0 < a `mod` b → cdiv a b = a `div` b + 1.
Proof.
  intros Hb Hr. unfold cdiv.
  symmetry. apply (Z.div_unique _ _ _ (a `mod` b - 1)).
  - pose proof (Z.mod_pos_bound a b). lia.
  - pose proof (Z.div_mod a b). lia.
Qed.

(** ** The partitioner *)

Module PartitionerFacts.
Import Partitioner.

Lemma length_deal_chunks (n : nat) (pc lo : Z) : length (deal_chunks n pc lo) = n.
Proof.
  revert lo. induction n as [|n IH]; intros lo; simpl; [done|].
  destruct (lo =? 0); simpl; by rewrite IH.
Qed.

(** The first [lo] slots get one chunk more. *)
Lemma deal_chunks_lookup (n : nat) (pc lo : Z) (i : nat) :
  0 ≤ lo → (i < n)%nat →
  deal_chunks n pc lo !! i = Some (if Z.of_nat i <? lo then pc + 1 else pc).
Proof.
  revert lo i. induction n as [|n IH]; intros lo i Hlo Hi; [lia|].
  simpl. destruct (Z.eqb_spec lo 0) as [->|Hne].
  - destruct i as [|i]; simpl; [|rewrite IH by lia]; case_ltb; try done; lia.
  - destruct i as [|i]; simpl; [|rewrite IH by lia]; case_ltb; try done; lia.
Qed.

Lemma Zsum_take_deal_chunks (n : nat) (pc lo : Z) (i : nat) :
  0 ≤ lo → (i ≤ n)%nat →
  Zsum (take i (deal_chunks n pc lo)) = Z.of_nat i * pc + Z.min (Z.of_nat i) lo.
Proof.
  revert lo i. induction n as [|n IH]; intros lo i Hlo Hi.
  - assert (i = 0%nat) as -> by lia. simpl. lia.
  - destruct i as [|i]; [simpl; lia|].
    simpl. destruct (Z.eqb_spec lo 0) as [->|Hne]; simpl; rewrite IH by lia; lia.
Qed.

Lemma length_point_starts (l : list Z) (C s : Z) :
  length (point_starts l C s) = length l.
Proof. revert s. induction l as [|c l IH]; intros s; simpl; [done | by rewrite IH]. Qed.

(** [all_point_start[i]] is the running total of the chunks dealt before. *)
Lemma point_starts_lookup (l : list Z) (C s : Z) (i : nat) :
  (i < length l)%nat →
  point_starts l C s !! i = Some (s + Zsum (take i l) * C).
Proof.
  revert s i. induction l as [|c l IH]; intros s i Hi; simpl in *; [lia|].
  destruct i as [|i]; simpl.
  - f_equal. lia.
  - rewrite IH by lia. f_equal. lia.
Qed.

Section las2laz.
Variables N C P : Z.
Hypothesis HN : 0 ≤ N.
Hypothesis HC : 0 < C.
Hypothesis HP : 0 < P.

Local Abbreviation K := (N `div` C).
Local Abbreviation L := (N `mod` C).
Local Abbreviation start_of := (start_of N C P).
Local Abbreviation chunks_of := (chunks_of N C P).

Lemma chunks_quot : N `quot` C = K.
Proof using HN HC HP. apply Z.quot_div_nonneg; lia. Qed.

Lemma left_over_points_rem : N `rem` C = L.
Proof using HN HC HP. apply Z.rem_mod_nonneg; lia. Qed.

Lemma K_nonneg : 0 ≤ K.
Proof using HN HC HP. apply Z.div_pos; lia. Qed.

Lemma process_chunks_quot : K `quot` P = K `div` P.
Proof using HN HC HP. pose proof K_nonneg. apply Z.quot_div_nonneg; lia. Qed.

Lemma left_over_chunks_rem : K `rem` P = K `mod` P.
Proof using HN HC HP. pose proof K_nonneg. apply Z.rem_mod_nonneg; lia. Qed.

Lemma all_process_chunks_unfold :
  all_process_chunks N C P = deal_chunks (Z.to_nat P) (K `div` P) (K `mod` P).
Proof using HN HC HP.
  unfold all_process_chunks.
  by rewrite chunks_quot, process_chunks_quot, left_over_chunks_rem.
Qed.

Lemma length_all_process_chunks : length (all_process_chunks N C P) = Z.to_nat P.
Proof using HN HC HP. unfold all_process_chunks. apply length_deal_chunks. Qed.

Lemma all_process_chunks_lookup (R : Z) :
  0 ≤ R < P →
  all_process_chunks N C P !! Z.to_nat R
  = Some (if R <? K `mod` P then K `div` P + 1 else K `div` P).
Proof using HN HC HP.
  intros HR. rewrite all_process_chunks_unfold.
  pose proof (Z.mod_pos_bound K P HP).
  rewrite deal_chunks_lookup by lia. by rewrite Z2Nat.id by lia.
Qed.

Lemma Zsum_take_all_process_chunks (R : Z) :
  0 ≤ R ≤ P →
  Zsum (take (Z.to_nat R) (all_process_chunks N C P))
  = R * (K `div` P) + Z.min R (K `mod` P).
Proof using HN HC HP.
  intros HR. rewrite all_process_chunks_unfold.
  pose proof (Z.mod_pos_bound K P HP).
  rewrite Zsum_take_deal_chunks by lia. by rewrite Z2Nat.id by lia.
Qed.

Lemma all_point_start_lookup (R : Z) :
  0 ≤ R < P →
  all_point_start N C P !! Z.to_nat R
  = Some (Zsum (take (Z.to_nat R) (all_process_chunks N C P)) * C).
Proof using HN HC HP.
  intros HR. unfold all_point_start.
  rewrite point_starts_lookup by (rewrite length_all_process_chunks; lia).
  f_equal.
Qed.

Lemma las2laz_range_closed (R : Z) :
  0 ≤ R < P →
  las2laz_range N C P R
  = (start_of R,
     start_of R + chunks_of R * C + (if R =? P - 1 then L else 0)).
Proof using HN HC HP.
  intros HR. unfold las2laz_range.
  rewrite (list_lookup_total_correct _ _ _ (all_process_chunks_lookup R HR)).
  rewrite (list_lookup_total_correct _ _ _ (all_point_start_lookup R HR)).
  rewrite Zsum_take_all_process_chunks by lia.
  rewrite left_over_points_rem. unfold start_of, chunks_of.
  destruct (R =? P - 1); f_equal; lia.
Qed.

Lemma start_of_succ (R : Z) :
  0 ≤ R → start_of (R + 1) = start_of R + chunks_of R * C.
Proof using HN HC HP.
  intros HR. unfold start_of, chunks_of.
  pose proof (Z.mod_pos_bound K P HP).
  destruct (Z.ltb_spec R (K `mod` P)); nia.
Qed.

Lemma start_of_P : start_of P = K * C.
Proof using HN HC HP.
  unfold start_of. pose proof (Z.mod_pos_bound K P HP).
  pose proof (Z.div_mod K P). nia.
Qed.

Lemma chunks_of_nonneg (R : Z) : 0 ≤ chunks_of R.
Proof using HN HC HP.
  unfold chunks_of. pose proof K_nonneg.
  assert (0 ≤ K `div` P) by (apply Z.div_pos; lia).
  destruct (R <? K `mod` P); lia.
Qed.

Lemma start_of_mono (R S : Z) : 0 ≤ R ≤ S → start_of R ≤ start_of S.
Proof using HN HC HP.
  intros HRS. unfold start_of. pose proof K_nonneg.
  assert (0 ≤ K `div` P) by (apply Z.div_pos; lia).
  apply Z.mul_le_mono_nonneg_r; [lia|]. nia.
Qed.

(** No [I64] overflow: every value the las -> laz branch computes lies
    between 0 and the point count. *)
Lemma las2laz_values_bounded (R : Z) :
  0 ≤ R < P →
  0 ≤ K ≤ N
  ∧ 0 ≤ chunks_of R * C ≤ N
  ∧ 0 ≤ start_of R ≤ N
  ∧ 0 ≤ start_of R + chunks_of R * C + L ≤ N.
Proof using HN HC HP.
  intros HR.
  pose proof (Z.mod_pos_bound K P HP) as Hm.
  pose proof (Z.div_mod K P ltac:(lia)) as Hdm.
  pose proof (Z.mod_pos_bound N C HC) as HLb.
  pose proof (Z.div_mod N C ltac:(lia)) as HNd.
  assert (0 ≤ K) as HK by (apply Z.div_pos; lia).
  assert (0 ≤ K `div` P) as Hq by (apply Z.div_pos; lia).
  assert (start_of R + chunks_of R * C ≤ K * C) as Hend.
  { unfold Partitioner.start_of, Partitioner.chunks_of. cbv zeta.
    destruct (Z.ltb_spec R (K `mod` P)); nia. }
  assert (0 ≤ chunks_of R) as Hc.
  { unfold Partitioner.chunks_of. cbv zeta. destruct (R <? K `mod` P); lia. }
  assert (0 ≤ start_of R) as Hs.
  { unfold Partitioner.start_of. cbv zeta. nia. }
  repeat split; try nia.
Qed.

Lemma N_split : N = K * C + L.
Proof using HN HC HP. pose proof (Z.div_mod N C). lia. Qed.

Lemma L_bounds : 0 ≤ L < C.
Proof using HN HC HP. apply Z.mod_pos_bound; lia. Qed.

End las2laz.
End PartitionerFacts.

Module PartitionerClaims.
Import Partitioner PartitionerFacts.

(** C1.  las -> laz, [N] points, chunk size [C], [P] peers, [K = N / C]
    whole chunks and [L = N mod C] trailing points: the first [K mod P]
    peers are dealt [ceil(K/P)] chunks and the others [floor(K/P)]; a peer's
    [point_start] is the sum of the chunk counts of the peers before it,
    times [C]; its [point_end] is [point_start] plus its own chunks times
    [C], and the last peer (rank [P-1]) takes the [L] trailing points on
    top. *)
Theorem las2laz_deal_policy (N C P R : Z) :
  0 ≤ N → 0 < C → 0 < P → 0 ≤ R < P →
  let K := N `div` C in
  let L := N `mod` C in
  let dealt := all_process_chunks N C P in
  let own := if R <? K `mod` P then cdiv K P else K `div` P in
  length dealt = Z.to_nat P
  ∧ dealt !! Z.to_nat R = Some own
  ∧ (las2laz_range N C P R).1 = Zsum (take (Z.to_nat R) dealt) * C
  ∧ (las2laz_range N C P R).2
    = (las2laz_range N C P R).1 + own * C + (if R =? P - 1 then L else 0).
Proof.
  intros HN HC HP HR K L dealt own.
  assert (own = chunks_of N C P R) as ->.
  { unfold own, chunks_of. fold K.
    destruct (Z.ltb_spec R (K `mod` P)); [|done].
    apply cdiv_inexact; lia. }
  split; [by apply length_all_process_chunks|].
  split; [by apply all_process_chunks_lookup|].
  rewrite las2laz_range_closed by done. simpl.
  split; [|done].
  unfold dealt. rewrite Zsum_take_all_process_chunks by lia. done.
Qed.

Lemma las2laz_deal_policy_witness :
  (0 ≤ 250000 ∧ 0 < 50000 ∧ 0 < 3 ∧ 0 ≤ 0 < 3)
  ∧ length (all_process_chunks 250000 50000 3) = 3%nat
  ∧ all_process_chunks 250000 50000 3 !! 0%nat = Some 2
  ∧ las2laz_range 250000 50000 3 0 = (0, 100000).
Proof.
  split; [lia|].
  destruct (las2laz_deal_policy 250000 50000 3 0) as (Hlen & Hown & Hs & He);
    [lia..|].
  split; [exact Hlen|]. split; [exact Hown|]. reflexivity.
Defined.

(** C4.  las -> laz: the peers' ranges add up to [N] points; they are
    pairwise disjoint and contiguous, tiling [0, N) in rank order; and for
    every peer but the last both ends are multiples of the chunk size (the
    start of the last one is, too). *)
Theorem las2laz_ranges_tile (N C P : Z) :
  0 ≤ N → 0 < C → 0 < P →
  let rg := las2laz_range N C P in
  Zsum ((λ R, (rg R).2 - (rg R).1) <$> seqZ 0 P) = N
  ∧ (rg 0).1 = 0
  ∧ (rg (P - 1)).2 = N
  ∧ (∀ R, 0 ≤ R < P → (rg R).1 ≤ (rg R).2)
  ∧ (∀ R, 0 ≤ R < P - 1 → (rg R).2 = (rg (R + 1)).1)
  ∧ (∀ R S, 0 ≤ R < S → S < P → (rg R).2 ≤ (rg S).1)
  ∧ (∀ R, 0 ≤ R < P → (C | (rg R).1))
  ∧ (∀ R, 0 ≤ R < P - 1 → (C | (rg R).2)).
Proof.
  intros HN HC HP rg.
  pose proof (L_bounds N C P HN HC HP) as HL.
  pose proof (N_split N C P HN HC HP) as HNs.
  pose proof (start_of_P N C P HN HC HP) as HsP.
  pose proof (Z.mod_pos_bound (N `div` C) P HP) as Hr.
  assert (Hend : ∀ R, 0 ≤ R < P →
            (rg R).2 = start_of N C P (R + 1) + (if R =? P - 1 then N `mod` C else 0)).
  { intros R HR. unfold rg. rewrite las2laz_range_closed by done. simpl.
    rewrite start_of_succ by lia. lia. }
  assert (Hstart : ∀ R, 0 ≤ R < P → (rg R).1 = start_of N C P R).
  { intros R HR. unfold rg. by rewrite las2laz_range_closed. }
  repeat split.
  - set (g := λ R, start_of N C P R + (if R =? P then N `mod` C else 0)).
    assert (Hext : (λ R, (rg R).2 - (rg R).1) <$> seqZ 0 P
                   = (λ r, g (r + 1) - g r) <$> seqZ 0 P).
    { apply list_fmap_ext. intros i R Hi.
      apply lookup_seqZ in Hi as [-> Hi]. cbv beta.
      rewrite Hend, Hstart by lia. unfold g. case_ltb; lia. }
    rewrite Hext. rewrite <-(Z2Nat.id P) at 1 by lia.
    rewrite Zsum_telescope. unfold g. rewrite Z2Nat.id by lia.
    rewrite Z.eqb_refl. destruct (Z.eqb_spec 0 P); [lia|].
    rewrite HsP. unfold start_of. lia.
  - rewrite Hstart by lia. unfold start_of. lia.
  - rewrite Hend by lia. rewrite Z.eqb_refl.
    replace (P - 1 + 1) with P by lia. lia.
  - intros R HR. rewrite Hend, Hstart by done.
    pose proof (start_of_mono N C P HN HC HP R (R + 1)).
    case_ltb; lia.
  - intros R HR. rewrite Hend, Hstart by lia. case_ltb; lia.
  - intros R S HRS HS. rewrite Hend, Hstart by lia.
    pose proof (start_of_mono N C P HN HC HP (R + 1) S).
    case_ltb; lia.
  - intros R HR. rewrite Hstart by done. unfold start_of.
    apply Z.divide_factor_r.
  - intros R HR. rewrite Hend by lia. destruct (Z.eqb_spec R (P - 1)); [lia|].
    rewrite Z.add_0_r. unfold start_of. apply Z.divide_factor_r.
Qed.

Lemma las2laz_ranges_tile_witness :
  (0 ≤ 150001 ∧ 0 < 50000 ∧ 0 < 3)
  ∧ Zsum ((λ R, (las2laz_range 150001 50000 3 R).2
                - (las2laz_range 150001 50000 3 R).1) <$> seqZ 0 3) = 150001
  ∧ (las2laz_range 150001 50000 3 (3 - 1)).2 = 150001
  ∧ (50000 | (las2laz_range 150001 50000 3 1).2).
Proof.
  split; [lia|].
  destruct (las2laz_ranges_tile 150001 50000 3)
    as (Hsum & H0 & HN & Hle & Hnext & Hdisj & Hs & He); [lia..|].
  split; [exact Hsum|]. split; [exact HN|]. apply He. lia.
Defined.

(** C8.  laz -> las: every peer's range has [floor(N/P)] points and starts
    at [rank * floor(N/P)], except that the last peer (rank [P-1]) also
    receives all [N mod P] left-over points. *)
Theorem laz2las_equal_split (N P R : Z) :
  0 ≤ N → 0 < P → 0 ≤ R < P →
  (laz2las_range N P R).1 = R * (N `div` P)
  ∧ (laz2las_range N P R).2 - (laz2las_range N P R).1
    = N `div` P + (if R =? P - 1 then N `mod` P else 0).
Proof.
  intros HN HP HR. unfold laz2las_range. simpl.
  rewrite Z.quot_div_nonneg, Z.rem_mod_nonneg by lia.
  split; [done|]. destruct (R =? P - 1); lia.
Qed.

Lemma laz2las_equal_split_witness :
  (0 ≤ 10 ∧ 0 < 3 ∧ 0 ≤ 2 < 3)
  ∧ (laz2las_range 10 3 2).1 = 2 * (10 `div` 3)
  ∧ (laz2las_range 10 3 2).2 - (laz2las_range 10 3 2).1
    = 10 `div` 3 + (if 2 =? 3 - 1 then 10 `mod` 3 else 0).
Proof. split; [lia|]. apply (laz2las_equal_split 10 3 2); lia. Defined.

(** The boundary scenarios of the specification (section 8). *)
Example scenario_S1 :
  las2laz_range 150000 50000 3 <$> [0; 1; 2]
  = [(0, 50000); (50000, 100000); (100000, 150000)].
Proof. reflexivity. Qed.

Example scenario_S2 :
  las2laz_range 150001 50000 3 <$> [0; 1; 2]
  = [(0, 50000); (50000, 100000); (100000, 150001)].
Proof. reflexivity. Qed.

Example scenario_S3 :
  las2laz_range 100000 50000 3 <$> [0; 1; 2]
  = [(0, 50000); (50000, 100000); (100000, 100000)].
Proof. reflexivity. Qed.

Example scenario_S4 :
  las2laz_range 250000 50000 3 <$> [0; 1; 2]
  = [(0, 100000); (100000, 200000); (200000, 250000)].
Proof. reflexivity. Qed.

Example scenario_S5 :
  laz2las_range 100 3 <$> [0; 1; 2] = [(0, 33); (33, 66); (66, 100)].
Proof. reflexivity. Qed.

End PartitionerClaims.

(** ** The writer and the encode loop *)

Module DriverFacts.
Import Stream Writer Partitioner Driver File.

Section facts.
Context `{Collaborators}.

Lemma p_count_write_point (p : point) (w : writer) :
  p_count (write_point p w) = p_count w + 1.
Proof.
  unfold write_point. destruct (compress w); [|done].
  by destruct (chunk_count w =? chunk_size w).
Qed.

Lemma p_count_feed (pts : list point) (w : writer) :
  p_count (feed pts w) = p_count w + Z.of_nat (length pts).
Proof.
  revert w. induction pts as [|p pts IH]; intros w; simpl; [lia|].
  unfold feed in *. simpl. rewrite IH, p_count_write_point. lia.
Qed.

Lemma feed_app (l k : list point) (w : writer) :
  feed (l ++ k) w = feed k (feed l w).
Proof. unfold feed. apply foldl_app. Qed.

Lemma tell_put (bs : list byte) (s : stream) :
  pos (put bs s) = pos s + Z.of_nat (length bs).
Proof. done. Qed.

(** Writing never moves the stream backwards. *)
Lemma tell_write_point (p : point) (w : writer) : tell w ≤ tell (write_point p w).
Proof.
  unfold write_point, tell.
  destruct (compress w); [destruct (chunk_count w =? chunk_size w)|]; simpl; lia.
Qed.

Lemma tell_feed (pts : list point) (w : writer) : tell w ≤ tell (feed pts w).
Proof.
  revert w. induction pts as [|p pts IH]; intros w; [done|].
  change (feed (p :: pts) w) with (feed pts (write_point p w)).
  pose proof (tell_write_point p w). specialize (IH (write_point p w)). lia.
Qed.

(** The loop stops after exactly the points still missing from [len], if
    the reader has that many; it stops earlier only at the end of input. *)
Lemma encode_loop_writer (src : list point) (len : Z) (w : writer) (tr : list call) :
  p_count w < len →
  laswriter (encode_loop src len w tr)
  = feed (take (Z.to_nat (len - p_count w)) src) w
  ∧ ahead (encode_loop src len w tr) = drop (Z.to_nat (len - p_count w)) src.
Proof.
  revert w tr. induction src as [|p rest IH]; intros w tr Hlt.
  - simpl. by rewrite take_nil, drop_nil.
  - simpl. rewrite p_count_write_point.
    replace (Z.to_nat (len - p_count w)) with (S (Z.to_nat (len - (p_count w + 1))))
      by lia.
    destruct (Z.eqb_spec (p_count w + 1) len) as [Heq|Hne].
    + rewrite Heq. replace (Z.to_nat (len - len)) with 0%nat by lia.
      simpl. by rewrite ?take_0, ?drop_0.
    + destruct (IH (write_point p w) (tr ++ [ReadPoint; WritePoint])) as [Hw Ha].
      { rewrite p_count_write_point. lia. }
      rewrite p_count_write_point in Hw, Ha. by rewrite Hw, Ha.
Qed.

(** When the writer's count is already at or past [len], the test can never
    succeed and the loop runs to the end of input. *)
Lemma encode_loop_overrun (src : list point) (len : Z) (w : writer) (tr : list call) :
  len ≤ p_count w →
  laswriter (encode_loop src len w tr) = feed src w
  ∧ ahead (encode_loop src len w tr) = [].
Proof.
  revert w tr. induction src as [|p rest IH]; intros w tr Hle; [done|].
  simpl. rewrite p_count_write_point.
  destruct (Z.eqb_spec (p_count w + 1) len); [lia|].
  apply IH. rewrite p_count_write_point. lia.
Qed.

(** The loop only reads and writes points. *)
Lemma encode_loop_calls (src : list point) (len : Z) (w : writer) (tr : list call) :
  ∃ k, calls (encode_loop src len w tr) = tr ++ k
       ∧ Forall (λ c, c = ReadPoint ∨ c = WritePoint) k.
Proof.
  revert w tr. induction src as [|p rest IH]; intros w tr; simpl.
  - exists [ReadPoint]. split; [done|]. apply Forall_singleton. by left.
  - assert (Forall (λ c, c = ReadPoint ∨ c = WritePoint) [ReadPoint; WritePoint])
      as Hrw.
    { apply Forall_cons_2; [by left|]. apply Forall_singleton. by right. }
    destruct (p_count (write_point p w) =? len).
    + by exists [ReadPoint; WritePoint].
    + destruct (IH (write_point p w) (tr ++ [ReadPoint; WritePoint]))
        as (k & Hk & HF).
      exists ([ReadPoint; WritePoint] ++ k). rewrite Hk, <-app_assoc.
      split; [done|]. by apply Forall_app_2.
Qed.

End facts.
End DriverFacts.

(** ** Chunks, layouts and the chunk accounting *)

Module AccountingFacts.
Import Stream Writer Driver File Cohort SerialReference Accounting DriverFacts.

Section facts.
Context `{Collaborators}.

(** Enough fuel is as good as more fuel. *)
Lemma split_chunks_fuel (f1 f2 C : nat) (pts : list point) :
  (1 ≤ C)%nat → (length pts ≤ f1)%nat → (length pts ≤ f2)%nat →
  split_chunks f1 C pts = split_chunks f2 C pts.
Proof.
  intros HC. revert f2 pts.
  induction f1 as [|f1 IH]; intros f2 pts H1 H2.
  - destruct pts; [|simpl in H1; lia]. by destruct f2.
  - destruct f2 as [|f2].
    + destruct pts; [done | simpl in H2; lia].
    + destruct pts as [|p pts]; [done|].
      cbn [split_chunks]. f_equal.
      apply IH; rewrite length_drop; simpl in *; lia.
Qed.

Lemma chunks_nil (C : Z) : chunks C [] = [].
Proof. done. Qed.

Lemma chunks_cons (C : Z) (p : point) (pts : list point) :
  1 ≤ C →
  chunks C (p :: pts)
  = take (Z.to_nat C) (p :: pts) :: chunks C (drop (Z.to_nat C) (p :: pts)).
Proof.
  intros HC. unfold chunks. cbn [length split_chunks]. f_equal.
  apply split_chunks_fuel; [lia| |done].
  rewrite length_drop. simpl. lia.
Qed.

(** A run of at most [C] points is one chunk. *)
Lemma chunks_short (C : Z) (q : list point) :
  1 ≤ C → q ≠ [] → Z.of_nat (length q) ≤ C → chunks C q = [q].
Proof.
  intros HC Hq Hlen. destruct q as [|p q]; [done|].
  rewrite chunks_cons by done.
  rewrite take_ge, drop_ge by lia. done.
Qed.

(** A full chunk in front splits off. *)
Lemma chunks_full_app (C : Z) (q l : list point) :
  1 ≤ C → Z.of_nat (length q) = C → chunks C (q ++ l) = q :: chunks C l.
Proof.
  intros HC Hlen. destruct q as [|p q]; [simpl in Hlen; lia|].
  change ((p :: q) ++ l) with (p :: (q ++ l)).
  rewrite chunks_cons by done.
  change (p :: (q ++ l)) with ((p :: q) ++ l).
  rewrite take_app_length', drop_app_length' by lia. done.
Qed.

(** Chunking commutes with concatenation at a chunk boundary. *)
Lemma chunks_aligned_app (C : Z) (k : nat) (l1 l2 : list point) :
  1 ≤ C → Z.of_nat (length l1) = Z.of_nat k * C →
  chunks C (l1 ++ l2) = chunks C l1 ++ chunks C l2.
Proof.
  intros HC. revert l1. induction k as [|k IH]; intros l1 Hlen.
  - destruct l1; [done | simpl in Hlen; lia].
  - rewrite <-(take_drop (Z.to_nat C) l1).
    assert (Z.of_nat (length (take (Z.to_nat C) l1)) = C) as Ht.
    { rewrite length_take. nia. }
    rewrite <-app_assoc.
    rewrite (chunks_full_app C _ (drop (Z.to_nat C) l1 ++ l2)) by done.
    rewrite (chunks_full_app C _ (drop (Z.to_nat C) l1)) by done.
    rewrite IH; [done|]. rewrite length_drop. nia.
Qed.

(** There are [ceil(N / C)] chunks. *)
Lemma length_split_chunks (fuel C : nat) (pts : list point) :
  (1 ≤ C)%nat → (length pts ≤ fuel)%nat →
  Z.of_nat (length (split_chunks fuel C pts))
  = cdiv (Z.of_nat (length pts)) (Z.of_nat C).
Proof.
  intros HC. revert pts. induction fuel as [|fuel IH]; intros pts Hlen.
  - destruct pts; [|simpl in Hlen; lia]. simpl. unfold cdiv.
    symmetry. apply Z.div_small. lia.
  - destruct pts as [|p l].
    + simpl. unfold cdiv. symmetry. apply Z.div_small. lia.
    + cbn [split_chunks length]. rewrite Nat2Z.inj_succ, IH
        by (rewrite length_drop; simpl in *; lia).
      rewrite length_drop. unfold cdiv.
      cbn [length] in Hlen |- *. set (n := S (length l)) in *.
      destruct (Nat.le_gt_cases n C) as [Hle|Hgt].
      * replace (n - C)%nat with 0%nat by lia.
        rewrite (Z.div_small (Z.of_nat 0 + _ - 1)) by lia.
        apply (Z.div_unique _ _ _ (Z.of_nat n - 1)); lia.
      * rewrite Nat2Z.inj_sub by lia.
        replace (Z.of_nat n + Z.of_nat C - 1)
          with (Z.of_nat n - Z.of_nat C + Z.of_nat C - 1 + 1 * Z.of_nat C)
          by lia.
        rewrite Z.div_add by lia. lia.
Qed.

Lemma length_chunks (C : Z) (pts : list point) :
  1 ≤ C → Z.of_nat (length (chunks C pts)) = cdiv (Z.of_nat (length pts)) C.
Proof.
  intros HC. unfold chunks. rewrite length_split_chunks by lia.
  by rewrite Z2Nat.id by lia.
Qed.

Lemma coder_runs_short (C : Z) (q : list point) :
  1 ≤ C → Z.of_nat (length q) ≤ C → coder_runs C q = [q].
Proof.
  intros HC Hlen. destruct q as [|p q]; [done|].
  unfold coder_runs. by apply chunks_short.
Qed.

Lemma coder_runs_full_app (C : Z) (q : list point) (p : point) (l : list point) :
  1 ≤ C → Z.of_nat (length q) = C →
  coder_runs C (q ++ p :: l) = q :: coder_runs C (p :: l).
Proof.
  intros HC Hlen. unfold coder_runs.
  destruct q as [|x q]; [simpl in Hlen; lia|].
  change ((x :: q) ++ p :: l) with (x :: (q ++ p :: l)). cbv iota.
  change (x :: (q ++ p :: l)) with ((x :: q) ++ p :: l).
  by apply chunks_full_app.
Qed.

Lemma coder_runs_nonempty (C : Z) (pts : list point) :
  pts ≠ [] → coder_runs C pts = chunks C pts.
Proof. by destruct pts. Qed.

Lemma lengths_app {A} (s1 s2 : list (list A)) :
  lengths (s1 ++ s2) = lengths s1 ++ lengths s2.
Proof. unfold lengths. apply fmap_app. Qed.

Lemma length_lengths {A} (ss : list (list A)) : length (lengths ss) = length ss.
Proof. unfold lengths. apply length_fmap. Qed.

Lemma Zsum_lengths {A} (ss : list (list A)) :
  Zsum (lengths ss) = Z.of_nat (length (concat ss)).
Proof.
  induction ss as [|s ss IH]; [done|].
  simpl. rewrite length_app, IH. lia.
Qed.

Lemma Zsum_lengths_nonneg {A} (ss : list (list A)) : 0 ≤ Zsum (lengths ss).
Proof. rewrite Zsum_lengths. lia. Qed.

Lemma lengths_nonneg {A} (ss : list (list A)) : Forall (λ x, 0 ≤ x) (lengths ss).
Proof. unfold lengths. apply Forall_fmap, Forall_forall. intros s _. simpl. lia. Qed.

Lemma take_lengths {A} (n : nat) (ss : list (list A)) :
  take n (lengths ss) = lengths (take n ss).
Proof. unfold lengths. symmetry. apply fmap_take. Qed.

Lemma layout_app (off : Z) (s1 s2 : list (list byte)) :
  layout off (s1 ++ s2) = layout off s1 ++ layout (off + Zsum (lengths s1)) s2.
Proof.
  revert off. induction s1 as [|s s1 IH]; intros off; simpl.
  - by rewrite Z.add_0_r.
  - rewrite IH. do 3 f_equal. lia.
Qed.

Lemma emitted_trans (w w1 w2 : writer) (s1 s2 : list (list byte)) :
  emitted w w1 s1 → emitted w1 w2 s2 → emitted w w2 (s1 ++ s2).
Proof.
  intros (Hn1 & Ht1 & He1 & Hc1 & Hb1 & Hs1 & Hp1)
         (Hn2 & Ht2 & He2 & Hc2 & Hb2 & Hs2 & Hp2).
  unfold emitted. rewrite lengths_app, Zsum_app, length_app, layout_app.
  repeat split.
  - congruence.
  - lia.
  - rewrite He2, He1, Hn1, Ht1. destruct (use_nil (stream_ w)).
    + by rewrite !app_nil_r.
    + by rewrite <-app_assoc.
  - lia.
  - by rewrite Hb2, Hb1, app_assoc.
  - done.
  - congruence.
Qed.

(** Closing the coder on the open chunk and recording it. *)
Lemma emitted_close (w : writer) :
  chunk_start_position w = tell w →
  emitted w (add_chunk_to_table (enc_done w)) [enc w (pending w)].
Proof.
  intros Hs. unfold emitted, tell. simpl. rewrite Hs. unfold tell.
  repeat split; try lia.
  - destruct (use_nil (stream_ w)); [by rewrite app_nil_r | done].
  - do 2 f_equal. simpl. lia.
Qed.

(** Writing points and then terminating the chunk puts one coder stream per
    run into the sink, back to back, and enters each in the accounting. *)
Lemma feed_emitted (pts : list point) (w : writer) :
  chunk_inv w →
  emitted w (add_chunk_to_table (enc_done (feed pts w)))
    (enc w <$> coder_runs (chunk_size w) (pending w ++ pts))
  ∧ enc (feed pts w) = enc w.
Proof.
  revert w. induction pts as [|p rest IH]; intros w (Hc & HC & Hcnt & Hlen & Hs).
  - rewrite app_nil_r, coder_runs_short by done. split; [|done].
    by apply emitted_close.
  - change (feed (p :: rest) w) with (feed rest (write_point p w)).
    unfold write_point. rewrite Hc.
    destruct (Z.eqb_spec (chunk_count w) (chunk_size w)) as [Hfull|Hroom].
    + set (w1 := take_point p (new_chunk (add_chunk_to_table (enc_done w)))).
      destruct (IH w1) as [Hem Henc].
      { unfold chunk_inv, w1, tell. simpl. repeat split; try done; lia. }
      split; [|exact Henc].
      rewrite coder_runs_full_app by lia.
      change (enc w <$> pending w :: coder_runs (chunk_size w) (p :: rest))
        with ([enc w (pending w)] ++ (enc w1 <$> coder_runs (chunk_size w1)
                                        (pending w1 ++ rest))).
      eapply emitted_trans; [|exact Hem].
      by apply emitted_close.
    + set (w1 := take_point p w).
      destruct (IH w1) as [Hem Henc].
      { unfold chunk_inv, w1, tell. simpl. rewrite length_app. simpl.
        repeat split; try done; lia. }
      split; [|exact Henc].
      replace (pending w ++ p :: rest) with (pending w1 ++ rest)
        by (unfold w1; simpl; by rewrite <-app_assoc).
      exact Hem.
Qed.

End facts.
End AccountingFacts.

(** ** The two passes of one peer *)

Module PassFacts.
Import Stream Writer Partitioner Driver File Cohort SerialReference Accounting.
Import DriverFacts AccountingFacts.

Section facts.
Context `{Collaborators}.

Lemma encode_loop_feed (src : list point) (len : Z) (w : writer) (tr : list call) :
  p_count w = 0 →
  laswriter (encode_loop src len w tr) = feed (loop_points src len) w.
Proof.
  intros H0. unfold loop_points. destruct (Z.ltb_spec 0 len).
  - destruct (encode_loop_writer src len w tr) as [Hw _]; [lia|].
    rewrite Hw, H0. by rewrite Z.sub_0_r.
  - by destruct (encode_loop_overrun src len w tr) as [Hw _]; [lia|].
Qed.

(** With a non-empty range inside the input the loop writes exactly the
    range. *)
Lemma loop_points_exact (src : list point) (len : Z) :
  1 ≤ len ≤ Z.of_nat (length src) →
  loop_points src len = take (Z.to_nat len) src
  ∧ Z.of_nat (length (loop_points src len)) = len.
Proof.
  intros Hlen. unfold loop_points. destruct (Z.ltb_spec 0 len); [|lia].
  split; [done|]. rewrite length_take. lia.
Qed.

(** A fresh writer, a range of at least one point and a reader that has the
    whole range ahead: the loop writes the range, point for point, and stops
    right behind it. *)
Lemma encode_loop_writes_range (src : list point) (len : Z) (w : writer)
    (tr : list call) :
  p_count w = 0 → 1 ≤ len ≤ Z.of_nat (length src) →
  let pr := encode_loop src len w tr in
  p_count (laswriter pr) = len
  ∧ laswriter pr = feed (take (Z.to_nat len) src) w
  ∧ ahead pr = drop (Z.to_nat len) src.
Proof.
  intros H0 Hlen pr.
  destruct (encode_loop_writer src len w tr) as [Hw Ha]; [lia|].
  rewrite H0, Z.sub_0_r in Hw, Ha. unfold pr. rewrite Hw, Ha.
  split; [|done]. rewrite p_count_feed, H0, length_take. lia.
Qed.

Lemma open_chunk_inv (nil : bool) (e : encoder) (C : Z) :
  1 ≤ C → chunk_inv (open nil true e C).
Proof. intros HC. unfold chunk_inv, tell. simpl. repeat split; try done; lia. Qed.

Lemma tell_open (nil c : bool) (e : encoder) (C : Z) :
  tell (open nil c e C) = Z.of_nat (length header_image).
Proof. done. Qed.

(** An uncompressed writer stores the raw records back to back and leaves
    the chunk accounting alone. *)
Lemma feed_raw (pts : list point) (w : writer) :
  compress w = false →
  let w' := feed pts w in
  compress w' = false
  ∧ use_nil (stream_ w') = use_nil (stream_ w)
  ∧ tell w' = tell w + Zsum (lengths (raw_point <$> pts))
  ∧ extents (stream_ w')
    = extents (stream_ w)
      ++ (if use_nil (stream_ w) then [] else layout (tell w) (raw_point <$> pts))
  ∧ number_chunks w' = number_chunks w
  ∧ chunk_bytes w' = chunk_bytes w.
Proof.
  revert w. induction pts as [|p rest IH]; intros w Hc.
  - simpl. unfold tell. repeat split; try done; try lia.
    destruct (use_nil (stream_ w)); by rewrite app_nil_r.
  - change (feed (p :: rest) w) with (feed rest (write_point p w)).
    assert (write_point p w
            = count_point (with_stream (put (raw_point p) (stream_ w)) w)) as Hwp.
    { unfold write_point. by rewrite Hc. }
    destruct (IH (write_point p w)) as (Hc' & Hn & Ht & He & Hk & Hb).
    { by rewrite Hwp. }
    cbv zeta. rewrite Hc', Hn, Ht, He, Hk, Hb. rewrite Hwp. unfold tell. simpl.
    change (list_fmap point (list byte) raw_point rest) with (raw_point <$> rest).
    repeat split; try done; try lia.
    destruct (use_nil (stream_ w)); [done|]. by rewrite <-app_assoc.
Qed.

(** The sizing pass of a compressing peer counts the bytes of its coder
    streams. *)
Lemma sizing_bytes_laz (j : job) (rank : Z) :
  las2laz j = true → 1 ≤ get_chunk_size j →
  point_bytes_written (sizing_pass j rank)
  = Zsum (lengths (peer_streams j (sizing_enc j) rank)).
Proof.
  intros Hd HC. unfold point_bytes_written, sizing_pass, terminate_chunk.
  cbn [point_end_offset point_start_offset laswriter]. rewrite Hd.
  cbn [laswriter]. rewrite encode_loop_feed by done.
  destruct (feed_emitted
              (loop_points
                 (reader_seek
                    (point_range true (npoints j) (get_chunk_size j) (process_count j) rank).1
                    (points j))
                 ((point_range true (npoints j) (get_chunk_size j) (process_count j) rank).2
                  - (point_range true (npoints j) (get_chunk_size j) (process_count j) rank).1))
              (open true true (sizing_enc j) (get_chunk_size j)))
    as [(_ & Ht & _) _]; [by apply open_chunk_inv|].
  rewrite Ht. unfold peer_streams, peer_points, sizing_pass.
  cbn [point_start point_end]. rewrite Hd. simpl. lia.
Qed.

(** The sizing pass of an uncompressing peer counts its raw records. *)
Lemma sizing_bytes_las (j : job) (rank : Z) :
  las2laz j = false →
  point_bytes_written (sizing_pass j rank)
  = Zsum (lengths (raw_point <$> peer_points j rank)).
Proof.
  intros Hd. unfold point_bytes_written, sizing_pass, terminate_chunk.
  cbn [point_end_offset point_start_offset laswriter]. rewrite Hd.
  cbn [laswriter]. rewrite encode_loop_feed by done.
  destruct (feed_raw
              (loop_points
                 (reader_seek
                    (point_range false (npoints j) (get_chunk_size j) (process_count j) rank).1
                    (points j))
                 ((point_range false (npoints j) (get_chunk_size j) (process_count j) rank).2
                  - (point_range false (npoints j) (get_chunk_size j) (process_count j) rank).1))
              (open true false (sizing_enc j) (get_chunk_size j)))
    as (_ & _ & Ht & _); [done|].
  rewrite Ht. unfold peer_points, sizing_pass.
  cbn [point_start point_end]. rewrite Hd. lia.
Qed.

(** What a peer's byte count is, whichever the direction: never negative. *)
Lemma point_bytes_written_nonneg (j : job) (rank : Z) :
  1 ≤ get_chunk_size j → 0 ≤ point_bytes_written (sizing_pass j rank).
Proof.
  intros HC. destruct (las2laz j) eqn:Hd.
  - rewrite sizing_bytes_laz by done. apply Zsum_lengths_nonneg.
  - rewrite sizing_bytes_las by done. apply Zsum_lengths_nonneg.
Qed.

Lemma final_pass_laswriter (j : job) (rank : Z) (all : list Z) :
  laswriter (final_pass j rank (sizing_pass j rank) all)
  = let w := feed (peer_points j rank)
               (final_start j (write_point_offset (tell (reopened j)) all rank)) in
    if las2laz j then add_chunk_to_table (enc_done w) else w.
Proof.
  unfold final_pass, terminate_chunk, final_start, peer_points.
  destruct (las2laz j) eqn:Hd; cbn [laswriter]; by rewrite encode_loop_feed.
Qed.

(** The final pass of a compressing peer: its coder streams lie back to
    back from the offset it sought to, one chunk-table entry each. *)
Lemma final_emitted_laz (j : job) (rank : Z) (all : list Z) :
  las2laz j = true → 1 ≤ get_chunk_size j →
  let off := write_point_offset (tell (reopened j)) all rank in
  let w := laswriter (final_pass j rank (sizing_pass j rank) all) in
  let ss := peer_streams j (final_enc j) rank in
  tell w = off + Zsum (lengths ss)
  ∧ extents (stream_ w) = layout off ss
  ∧ number_chunks w = Z.of_nat (length ss)
  ∧ chunk_bytes w = lengths ss
  ∧ chunk_table_start_position w = table_pointer.
Proof.
  intros Hd HC off w ss. unfold w. rewrite final_pass_laswriter. rewrite Hd.
  cbv zeta.
  destruct (feed_emitted (peer_points j rank) (final_start j off))
    as [(Hn & Ht & He & Hk & Hb & Hs & Hp) _].
  { unfold final_start, chunk_inv, tell, reopened. rewrite Hd. simpl.
    repeat split; try done; lia. }
  fold off. rewrite Ht, He, Hk, Hb, Hp.
  unfold final_start, tell, reopened. rewrite Hd. simpl.
  unfold ss, peer_streams. repeat split; try done; lia.
Qed.

Lemma final_not_nil_laz (j : job) (rank : Z) (all : list Z) :
  las2laz j = true → 1 ≤ get_chunk_size j →
  use_nil (stream_ (laswriter (final_pass j rank (sizing_pass j rank) all))) = false.
Proof.
  intros Hd HC. rewrite final_pass_laswriter. rewrite Hd. cbv zeta.
  destruct (feed_emitted (peer_points j rank)
              (final_start j (write_point_offset (tell (reopened j)) all rank)))
    as [(Hn & _) _].
  { unfold final_start, chunk_inv, tell, reopened. rewrite Hd. simpl.
    repeat split; try done; lia. }
  rewrite Hn. unfold final_start, reopened. by rewrite Hd.
Qed.

(** The final pass of an uncompressing peer: the raw records of its points,
    back to back from its offset, and no chunk accounting. *)
Lemma final_raw_las (j : job) (rank : Z) (all : list Z) :
  las2laz j = false →
  let off := write_point_offset (tell (reopened j)) all rank in
  let w := laswriter (final_pass j rank (sizing_pass j rank) all) in
  let ss := raw_point <$> peer_points j rank in
  tell w = off + Zsum (lengths ss)
  ∧ extents (stream_ w) = layout off ss
  ∧ number_chunks w = 0
  ∧ chunk_bytes w = [].
Proof.
  intros Hd off w ss. unfold w. rewrite final_pass_laswriter. rewrite Hd.
  cbv zeta.
  destruct (feed_raw (peer_points j rank) (final_start j off))
    as (_ & Hn & Ht & He & Hk & Hb).
  { unfold final_start, reopened. by rewrite Hd. }
  fold off. rewrite Ht, He, Hk, Hb.
  unfold final_start, tell, reopened. rewrite Hd. simpl. done.
Qed.

(** The calls of the sizing pass: one encode loop and the chunk
    termination. *)
Lemma sizing_pass_calls (j : job) (rank : Z) :
  ∃ k, Forall loop_call k
       ∧ calls (sizing_peer (sizing_pass j rank))
         = [Open true; Tell; ReaderSeek (point_start (sizing_pass j rank))] ++ k
           ++ terminate_calls (las2laz j).
Proof.
  unfold sizing_pass. cbn [sizing_peer point_start].
  match goal with
  | |- context [encode_loop ?src ?len ?w ?tr] =>
      destruct (encode_loop_calls src len w tr) as (k & Hk & HF)
  end.
  exists k. split; [exact HF|].
  unfold terminate_chunk, terminate_calls.
  destruct (las2laz j); cbn [calls]; rewrite Hk; by rewrite <-?app_assoc.
Qed.

(** The calls of the final pass follow those of the sizing pass: the
    exchange, one encode loop, the chunk termination; the stream position is
    not queried after the loop. *)
Lemma final_pass_calls (j : job) (rank : Z) (s : sized) (all : list Z) :
  ∃ k, Forall loop_call k
       ∧ calls (final_pass j rank s all)
         = calls (sizing_peer s)
           ++ exchange_calls (las2laz j)
                (write_point_offset (tell (reopened j)) all rank) (point_start s)
           ++ k ++ terminate_calls (las2laz j).
Proof.
  unfold final_pass.
  match goal with
  | |- context [encode_loop ?src ?len ?w ?tr] =>
      destruct (encode_loop_calls src len w tr) as (k & Hk & HF)
  end.
  exists k. split; [exact HF|].
  unfold terminate_chunk, terminate_calls, exchange_calls.
  destruct (las2laz j); cbn [calls]; rewrite Hk; by rewrite <-?app_assoc.
Qed.

End facts.
End PassFacts.

(** ** The placement exchange (lines 885-911) *)

Module PlacementFacts.
Import Stream Writer Partitioner Driver File Cohort SerialReference Accounting.
Import DriverFacts AccountingFacts PassFacts.

Section facts.
Context `{Collaborators}.

(** The loop of lines 906-909 adds up the byte counts of the lower ranks. *)
Lemma write_point_offset_sum (t : Z) (all : list Z) (rank : Z) :
  (Z.to_nat rank ≤ length all)%nat →
  write_point_offset t all rank = t + Zsum (take (Z.to_nat rank) all).
Proof.
  unfold write_point_offset. generalize (Z.to_nat rank) as n.
  induction n as [|n IH]; intros Hn.
  - simpl. lia.
  - rewrite seq_S, foldl_app. simpl. rewrite IH by lia.
    destruct (lookup_lt_is_Some_2 all n) as [x Hx]; [lia|].
    rewrite (take_S_r _ _ _ Hx), Zsum_app.
    rewrite (list_lookup_total_correct _ _ _ Hx). simpl. lia.
Qed.

Lemma length_ranks (j : job) : length (ranks j) = Z.to_nat (process_count j).
Proof. unfold ranks. apply length_seqZ. Qed.

Lemma ranks_lookup (j : job) (r : Z) :
  0 ≤ r < process_count j → ranks j !! Z.to_nat r = Some r.
Proof.
  intros Hr. unfold ranks. rewrite lookup_seqZ_lt by lia. f_equal. lia.
Qed.

Lemma length_all_point_bytes_written (j : job) :
  length (all_point_bytes_written j) = Z.to_nat (process_count j).
Proof. unfold all_point_bytes_written. by rewrite length_fmap, length_ranks. Qed.

Lemma all_point_bytes_written_lookup (j : job) (r : Z) :
  0 ≤ r < process_count j →
  all_point_bytes_written j !! Z.to_nat r
  = Some (point_bytes_written (sizing_pass j r)).
Proof.
  intros Hr. unfold all_point_bytes_written.
  by rewrite list_lookup_fmap, ranks_lookup.
Qed.

Lemma all_point_bytes_written_nonneg (j : job) :
  1 ≤ get_chunk_size j → Forall (λ x, 0 ≤ x) (all_point_bytes_written j).
Proof.
  intros HC. unfold all_point_bytes_written. apply Forall_fmap, Forall_forall.
  intros r _. by apply point_bytes_written_nonneg.
Qed.

Lemma placement_sum (j : job) (r : Z) :
  r ≤ process_count j →
  placement j r
  = tell (reopened j) + Zsum (take (Z.to_nat r) (all_point_bytes_written j)).
Proof.
  intros Hr. unfold placement. apply write_point_offset_sum.
  rewrite length_all_point_bytes_written. lia.
Qed.

Lemma placement_succ (j : job) (r : Z) :
  0 ≤ r < process_count j →
  placement j (r + 1) = placement j r + point_bytes_written (sizing_pass j r).
Proof.
  intros Hr. rewrite !placement_sum by lia.
  replace (Z.to_nat (r + 1)) with (S (Z.to_nat r)) by lia.
  rewrite (take_S_r _ _ _ (all_point_bytes_written_lookup j r Hr)), Zsum_app.
  simpl. lia.
Qed.

Lemma placement_mono (j : job) (r s : Z) :
  1 ≤ get_chunk_size j → 0 ≤ r ≤ s → s ≤ process_count j →
  placement j r ≤ placement j s.
Proof.
  intros HC Hrs Hs. rewrite !placement_sum by lia.
  pose proof (Zsum_take_le (all_point_bytes_written j) (Z.to_nat r) (Z.to_nat s)
                (all_point_bytes_written_nonneg j HC)).
  lia.
Qed.

(** Every peer's final-pass bytes lie back to back from its placement. *)
Lemma final_pass_layout (j : job) (r : Z) :
  1 ≤ get_chunk_size j →
  ∃ ss, extents (stream_ (laswriter
                  (final_pass j r (sizing_pass j r) (all_point_bytes_written j))))
        = layout (placement j r) ss.
Proof.
  intros HC. destruct (las2laz j) eqn:Hd.
  - destruct (final_emitted_laz j r (all_point_bytes_written j) Hd HC)
      as (_ & He & _). eauto.
  - destruct (final_raw_las j r (all_point_bytes_written j) Hd)
      as (_ & He & _). eauto.
Qed.

End facts.

(** C2.  Every peer writes its final-pass bytes from the absolute offset
    [header_end + sum of all_bytes[i] for i < R], where [header_end] is the
    writer's stream position right after the header and VLRs and [all_bytes]
    the all-gathered sizing byte counts: what the final pass puts into the
    file are the peer's coder streams (las -> laz) or point records
    (laz -> las), laid out back to back from that offset, and with one
    deterministic coder behind both passes they add up to [local_bytes_R].
    Hence for peers R <> S the byte intervals
    [offset_R, offset_R + local_bytes_R) and
    [offset_S, offset_S + local_bytes_S) are disjoint, and ordered by rank. *)
Theorem placement_prefix_sums_disjoint `{Collaborators} (j : job) :
  1 ≤ get_chunk_size j →
  let P := process_count j in
  let header_end := tell (reopened j) in
  let all_bytes := all_point_bytes_written j in
  let local_bytes r := point_bytes_written (sizing_pass j r) in
  let offset r := header_end + Zsum (take (Z.to_nat r) all_bytes) in
  let final r := laswriter (final_pass j r (sizing_pass j r) all_bytes) in
  let streams r := if las2laz j then peer_streams j (final_enc j) r
                   else raw_point <$> peer_points j r in
  header_end = Z.of_nat (length header_image)
  ∧ (∀ R, 0 ≤ R < P →
       all_bytes !! Z.to_nat R = Some (local_bytes R)
       ∧ write_point_offset header_end all_bytes R = offset R
       ∧ extents (stream_ (final R)) = layout (offset R) (streams R)
       ∧ tell (final R) = offset R + Zsum (lengths (streams R))
       ∧ (sizing_enc j = final_enc j →
          Zsum (lengths (streams R)) = local_bytes R))
  ∧ (∀ R S, 0 ≤ R < S → S < P → offset R + local_bytes R ≤ offset S)
  ∧ (∀ R S x, 0 ≤ R < P → 0 ≤ S < P → R ≠ S →
       ¬ (offset R ≤ x < offset R + local_bytes R
          ∧ offset S ≤ x < offset S + local_bytes S)).
Proof.
  intros HC P header_end all_bytes local_bytes offset final streams.
  assert (Hoff : ∀ r, r ≤ P → offset r = placement j r).
  { intros r Hr. unfold offset. by rewrite placement_sum. }
  assert (Hord : ∀ R S, 0 ≤ R < S → S < P → offset R + local_bytes R ≤ offset S).
  { intros R S HRS HS. rewrite !Hoff by lia. unfold local_bytes.
    rewrite <-placement_succ by lia. apply placement_mono; [done|lia|lia]. }
  split; [done|]. split; [|split; [exact Hord|]].
  - intros R HR. split; [by apply all_point_bytes_written_lookup|].
    split; [by rewrite Hoff by lia|].
    rewrite Hoff by lia. unfold final, streams, local_bytes, placement.
    destruct (las2laz j) eqn:Hd.
    + destruct (final_emitted_laz j R (all_point_bytes_written j) Hd HC)
        as (Ht & He & _).
      split; [exact He|]. split; [exact Ht|].
      intros Henc. by rewrite sizing_bytes_laz, Henc.
    + destruct (final_raw_las j R (all_point_bytes_written j) Hd)
        as (Ht & He & _).
      split; [exact He|]. split; [exact Ht|].
      intros _. by rewrite sizing_bytes_las.
  - intros R S x HR HS Hne [HxR HxS].
    destruct (Z.lt_total R S) as [Hlt|[Heq|Hgt]]; [|done|].
    + pose proof (Hord R S). lia.
    + pose proof (Hord S R). lia.
Qed.

Lemma placement_prefix_sums_disjoint_witness :
  let j := Toy.toy_job true [1; 2; 3; 4; 5] 2 3 in
  1 ≤ get_chunk_size j
  ∧ write_point_offset (tell (reopened j)) (all_point_bytes_written j) 2 = 5 + (3 + 3)
  ∧ extents (stream_ (laswriter (final_pass j 2 (sizing_pass j 2)
                                   (all_point_bytes_written j))))
    = [(11, Toy.toy_enc [5])]
  ∧ ¬ (8 ≤ 10 < 8 + 3 ∧ 11 ≤ 10 < 11 + 2).
Proof.
  intros j. split; [done|].
  destruct (placement_prefix_sums_disjoint (H := Toy.toy) j) as (Hh & Hp & Ho & Hd);
    [done|].
  split; [|split].
  - destruct (Hp 2) as (_ & Hw & _); [done|]. rewrite Hw. reflexivity.
  - destruct (Hp 2) as (_ & _ & He & _); [done|]. rewrite He. reflexivity.
  - exact (Hd 1 2 10 ltac:(done) ltac:(done) ltac:(done)).
Defined.

End PlacementFacts.

(** ** The chunk-table assembly on the last rank (lines 934-1010) *)

Module TableFacts.
Import Stream Writer Partitioner Driver File Cohort SerialReference Accounting.
Import DriverFacts AccountingFacts PassFacts PlacementFacts.

Lemma u32_small (x : Z) : 0 ≤ x < 2 ^ 32 → u32 x = x.
Proof. intros Hx. unfold u32. by apply Z.mod_small. Qed.

Lemma u32_add_l (a b : Z) : u32 (u32 a + b) = u32 (a + b).
Proof. unfold u32. by rewrite Z.add_mod_idemp_l. Qed.

(** The [U32] total of lines 944-947 is the sum of the counts, wrapped. *)
Lemma number_chunks_total_sum (l : list Z) (P : Z) :
  (Z.to_nat P ≤ length l)%nat →
  number_chunks_total l P = u32 (Zsum (take (Z.to_nat P) l)).
Proof.
  unfold number_chunks_total. generalize (Z.to_nat P) as n.
  induction n as [|n IH]; intros Hn; [done|].
  rewrite seq_S, foldl_app. simpl. rewrite IH by lia.
  destruct (lookup_lt_is_Some_2 l n) as [x Hx]; [lia|].
  rewrite (take_S_r _ _ _ Hx), Zsum_app, (list_lookup_total_correct _ _ _ Hx).
  simpl. rewrite u32_add_l. f_equal. lia.
Qed.

(** The offsets of lines 955-961 are the wrapped prefix sums. *)
Lemma number_chunks_offsets_loop (l : list Z) (n : nat) :
  (n ≤ length l)%nat →
  foldl (λ st i, (st.1 ++ [st.2], u32 (st.2 + l !!! i))) ([], 0) (seq 0 n)
  = ((λ i, u32 (Zsum (take i l))) <$> seq 0 n, u32 (Zsum (take n l))).
Proof.
  induction n as [|n IH]; intros Hn; [done|].
  rewrite seq_S, foldl_app, fmap_app. simpl. rewrite IH by lia. simpl.
  destruct (lookup_lt_is_Some_2 l n) as [x Hx]; [lia|].
  rewrite (take_S_r _ _ _ Hx), Zsum_app, (list_lookup_total_correct _ _ _ Hx).
  simpl. rewrite u32_add_l. do 2 f_equal. lia.
Qed.

Lemma number_chunks_offsets_lookup (l : list Z) (P : Z) (i : nat) :
  (Z.to_nat P ≤ length l)%nat → (i < Z.to_nat P)%nat →
  number_chunks_offsets l P !! i = Some (u32 (Zsum (take i l))).
Proof.
  intros HP Hi. unfold number_chunks_offsets.
  rewrite number_chunks_offsets_loop by done. simpl.
  rewrite list_lookup_fmap.
  by rewrite (proj2 (lookup_seq 0 (Z.to_nat P) i i) (conj eq_refl Hi)).
Qed.

Lemma length_malloc_u32 (n : Z) (junk : list Z) :
  length (malloc_u32 n junk) = Z.to_nat n.
Proof.
  unfold malloc_u32. rewrite length_take, length_app, length_replicate. lia.
Qed.

(** Storing [k] at [i] inside a buffer rewrites exactly that window. *)
Lemma list_inserts_window {A} (i : nat) (k l : list A) :
  (i + length k ≤ length l)%nat →
  list_inserts i k l = take i l ++ k ++ drop (i + length k) l.
Proof.
  intros Hlen.
  rewrite <-(take_drop i l) at 1.
  assert (length (take i l) = i) as Hi by (rewrite length_take; lia).
  rewrite <-(Nat.add_0_r i) at 1. rewrite <-Hi at 1.
  rewrite list_inserts_app_r. f_equal.
  rewrite <-(take_drop (length k) (drop i l)) at 1.
  rewrite list_inserts_0_r by (rewrite length_take, length_drop; lia).
  by rewrite drop_drop.
Qed.

(** After the first [n] receives the buffer starts with the first [n]
    messages, in rank order. *)
Lemma recv_chunk_bytes_prefix (buf : list Z) (msgs : list (list Z)) (P : Z) (n : nat) :
  (Z.to_nat P ≤ length msgs)%nat →
  Zsum (lengths msgs) < 2 ^ 32 →
  Z.of_nat (length buf) = Zsum (lengths msgs) →
  (n ≤ Z.to_nat P)%nat →
  let b := foldl (λ b i, list_inserts
                           (Z.to_nat (number_chunks_offsets (lengths msgs) P !!! i))
                           (take (Z.to_nat (lengths msgs !!! i)) (msgs !!! i)) b)
             buf (seq 0 n) in
  length b = length buf
  ∧ take (length (concat (take n msgs))) b = concat (take n msgs).
Proof.
  intros HP Htot Hbuf. induction n as [|n IH]; intros Hn b.
  - done.
  - unfold b. rewrite seq_S, foldl_app. simpl.
    destruct IH as [IHlen IHpre]; [lia|].
    set (b' := foldl _ buf (seq 0 n)) in *.
    destruct (lookup_lt_is_Some_2 msgs n) as [m Hm]; [lia|].
    assert (lengths msgs !! n = Some (Z.of_nat (length m))) as Hlm.
    { unfold lengths. by rewrite list_lookup_fmap, Hm. }
    assert (msgs !!! n = m) as -> by (by apply list_lookup_total_correct).
    assert (lengths msgs !!! n = Z.of_nat (length m)) as ->
      by (by apply list_lookup_total_correct).
    assert (number_chunks_offsets (lengths msgs) P !!! n
            = u32 (Zsum (take n (lengths msgs)))) as ->.
    { apply list_lookup_total_correct, number_chunks_offsets_lookup; [|lia].
      rewrite length_lengths. lia. }
    rewrite take_lengths, Zsum_lengths.
    pose proof (Zsum_take_le (lengths msgs) (S n) (length msgs)
                  (lengths_nonneg msgs) ltac:(lia)) as Hle.
    rewrite (take_ge _ (length msgs)) in Hle by (rewrite length_lengths; lia).
    rewrite take_lengths, Zsum_lengths in Hle.
    rewrite (take_S_r _ _ _ Hm), concat_app, length_app in Hle |- *.
    simpl in Hle |- *. rewrite app_nil_r in Hle |- *.
    rewrite u32_small by lia.
    rewrite !Nat2Z.id. rewrite (take_ge m) by lia.
    rewrite length_inserts. split; [done|].
    rewrite list_inserts_window by lia.
    rewrite app_assoc, take_app_length'
      by (rewrite length_app, length_take; lia).
    by rewrite IHpre.
Qed.

(** All messages received: the buffer is their concatenation. *)
Lemma recv_chunk_bytes_concat (junk : list Z) (msgs : list (list Z)) (P : Z) :
  length msgs = Z.to_nat P →
  Zsum (lengths msgs) < 2 ^ 32 →
  recv_chunk_bytes (malloc_u32 (Zsum (lengths msgs)) junk)
    (number_chunks_offsets (lengths msgs) P) (lengths msgs) msgs P
  = concat msgs.
Proof.
  intros HP Htot. unfold recv_chunk_bytes.
  pose proof (Zsum_lengths_nonneg msgs) as H0.
  destruct (recv_chunk_bytes_prefix (malloc_u32 (Zsum (lengths msgs)) junk)
              msgs P (Z.to_nat P)) as [Hlen Hpre]; [lia|done| |done|].
  { rewrite length_malloc_u32. lia. }
  rewrite (take_ge msgs) in Hpre by lia.
  etransitivity; [|exact Hpre]. symmetry. apply take_ge.
  rewrite Hlen, length_malloc_u32, Zsum_lengths. lia.
Qed.

Section facts.
Context `{Collaborators}.

(** The last rank, fed the gathered counts and the peers' messages. *)
Lemma table_pass_last (j : job) (pr : peer) (junk : list Z)
    (msgs : list (list Z)) (table_position : Z) :
  las2laz j = true →
  length msgs = Z.to_nat (process_count j) →
  Zsum (lengths msgs) < 2 ^ 32 →
  table_pass j (process_count j - 1) pr (lengths msgs) junk msgs table_position
  = {| laswriter :=
         write_chunk_table
           (set_chunk_table table_position (Zsum (lengths msgs)) (concat msgs)
              (with_stream (flushed (stream_ (laswriter pr))) (laswriter pr)));
       ahead := ahead pr;
       calls := calls pr ++ table_calls (process_count j) (process_count j - 1) |}.
Proof.
  intros Hd HP Htot. unfold table_pass. rewrite Hd, Z.eqb_refl.
  pose proof (Zsum_lengths_nonneg msgs) as H0.
  rewrite number_chunks_total_sum by (rewrite length_lengths; lia).
  rewrite take_ge by (rewrite length_lengths; lia).
  rewrite u32_small by lia.
  by rewrite recv_chunk_bytes_concat.
Qed.

End facts.
End TableFacts.

(** ** The cohort and the output file *)

Module CohortFacts.
Import Stream Writer Partitioner Driver File Cohort SerialReference Accounting.
Import DriverFacts AccountingFacts PassFacts PlacementFacts TableFacts.

(** Appending at the end of the file. *)
Lemma pwrite_end (f s : list byte) : pwrite f (Z.of_nat (length f), s) = f ++ s.
Proof.
  unfold pwrite. simpl. rewrite Nat2Z.id, take_ge, drop_ge by lia.
  by rewrite Nat.sub_diag, app_nil_r.
Qed.

Lemma pwrites_layout_end (ss : list (list byte)) (f : list byte) :
  pwrites (layout (Z.of_nat (length f)) ss) f = f ++ concat ss.
Proof.
  revert f. induction ss as [|s ss IH]; intros f; simpl.
  - by rewrite app_nil_r.
  - rewrite pwrite_end. replace (Z.of_nat (length f) + Z.of_nat (length s))
      with (Z.of_nat (length (f ++ s))) by (rewrite length_app; lia).
    rewrite IH. by rewrite <-app_assoc.
Qed.

(** Writing the same header again changes nothing. *)
Lemma pwrite_header_again (h : list byte) : pwrite h (0, h) = h.
Proof.
  unfold pwrite. cbn [fst snd]. change (Z.to_nat 0) with 0%nat.
  rewrite take_0, Nat.sub_0_l, Nat.add_0_l, drop_all. simpl. apply app_nil_r.
Qed.

Lemma pwrites_headers (h : list byte) (n : nat) :
  pwrites (concat (replicate (S n) [(0, h)])) [] = h.
Proof.
  unfold pwrites. simpl.
  assert (pwrite [] (0, h) = h) as ->.
  { unfold pwrite. simpl. by rewrite drop_nil, app_nil_r. }
  induction n as [|n IH]; [done|].
  simpl. by rewrite pwrite_header_again.
Qed.

Lemma length_pwrite (f : list byte) (e : extent) :
  length (pwrite f e) = (length f `max` (Z.to_nat e.1 + length e.2))%nat.
Proof.
  unfold pwrite. cbv zeta.
  rewrite !length_app, length_take, length_replicate, length_drop. lia.
Qed.

(** The byte at index [i] after a write: the written byte inside the window,
    the old byte elsewhere, a zero in the hole a write past the end leaves. *)
Lemma lookup_pwrite (f : list byte) (e : extent) (i : nat) :
  pwrite f e !! i
  = if decide (i < Z.to_nat e.1)%nat
    then (if decide (i < length f)%nat then f !! i else Some Byte.x00)
    else if decide (i < Z.to_nat e.1 + length e.2)%nat
         then e.2 !! (i - Z.to_nat e.1)%nat
         else f !! i.
Proof.
  unfold pwrite. cbv zeta.
  set (o := Z.to_nat e.1). set (s := e.2).
  assert (length (take o f ++ replicate (o - length f) Byte.x00) = o) as Hpre
    by (rewrite length_app, length_take, length_replicate; lia).
  rewrite (app_assoc (take o f)).
  repeat case_decide.
  - rewrite lookup_app_l by lia. rewrite lookup_app_l
      by (rewrite length_take; lia).
    by apply lookup_take_lt.
  - rewrite lookup_app_l by lia. rewrite lookup_app_r
      by (rewrite length_take; lia).
    apply lookup_replicate_2. rewrite length_take. lia.
  - rewrite lookup_app_r by lia. rewrite Hpre. by rewrite lookup_app_l by lia.
  - rewrite lookup_app_r by lia. rewrite Hpre. rewrite lookup_app_r by lia.
    rewrite lookup_drop. f_equal. lia.
Qed.

(** Writes that are apart can be made in either order. *)
Lemma pwrite_comm (f : list byte) (e1 e2 : extent) :
  apart e1 e2 → pwrite (pwrite f e1) e2 = pwrite (pwrite f e2) e1.
Proof.
  intros Hap. apply list_eq. intros i.
  rewrite !lookup_pwrite, !length_pwrite.
  destruct Hap as [Hap|Hap]; repeat case_decide; try done; try lia.
Qed.

Lemma apart_sym (e1 e2 : extent) : apart e1 e2 → apart e2 e1.
Proof. unfold apart. tauto. Qed.

Lemma all_apart_perm (l1 l2 : list extent) :
  l1 ≡ₚ l2 → all_apart l1 → all_apart l2.
Proof.
  induction 1 as [|e l1 l2 Hp IH|e1 e2 l|l1 l2 l3 _ IH1 _ IH2]; simpl.
  - done.
  - intros [HF Ha]. split; [by rewrite <-Hp | by apply IH].
  - intros [HF1 [HF2 Ha]]. apply Forall_cons_1 in HF1 as [H12 HF1].
    split; [|done]. apply Forall_cons_2; [by apply apart_sym | done].
  - auto.
Qed.

(** The file does not depend on the order in which writes that are pairwise
    apart reach it. *)
Lemma pwrites_perm (l1 l2 : list extent) (f : list byte) :
  l1 ≡ₚ l2 → all_apart l1 → pwrites l1 f = pwrites l2 f.
Proof.
  intros Hp. revert f.
  induction Hp as [|e l1 l2 Hp IH|e1 e2 l|l1 l2 l3 Hp1 IH1 Hp2 IH2];
    intros f Ha.
  - done.
  - destruct Ha as [_ Ha]. unfold pwrites in *. simpl. by apply IH.
  - destruct Ha as [HF _]. apply Forall_cons_1 in HF as [H12 _].
    unfold pwrites. simpl. f_equal. by apply pwrite_comm.
  - rewrite IH1 by done. apply IH2. by apply (all_apart_perm l1).
Qed.

(** Strings laid out back to back are pairwise apart. *)
Lemma layout_apart (off : Z) (ss : list (list byte)) :
  0 ≤ off → all_apart (layout off ss).
Proof.
  revert off. induction ss as [|s ss IH]; intros off Hoff; simpl; [done|].
  split; [|apply IH; lia].
  assert (∀ o, off + Z.of_nat (length s) ≤ o →
            Forall (apart (off, s)) (layout o ss)) as Hall.
  { clear IH. induction ss as [|t ss IH]; intros o Ho; simpl; [done|].
    apply Forall_cons_2; [left; simpl; lia|]. apply IH. lia. }
  by apply Hall.
Qed.

Lemma pwrites_app (e1 e2 : list extent) (f : list byte) :
  pwrites (e1 ++ e2) f = pwrites e2 (pwrites e1 f).
Proof. unfold pwrites. apply foldl_app. Qed.

Section facts.
Context `{Collaborators}.

Lemma finals_lookup (j : job) (r : Z) :
  0 ≤ r < process_count j →
  finals j !! Z.to_nat r
  = Some (final_pass j r (sizing_pass j r) (all_point_bytes_written j)).
Proof.
  intros Hr. unfold finals. by rewrite list_lookup_fmap, ranks_lookup.
Qed.

Lemma ranks_S (n : nat) :
  seqZ 0 (Z.of_nat (S n)) = seqZ 0 (Z.of_nat n) ++ [Z.of_nat n].
Proof. by rewrite seqZ_S. Qed.

(** Every peer opens the output and writes the same header. *)
Lemma header_phase_image (j : job) :
  0 < process_count j → header_phase j = header_image.
Proof.
  intros HP. unfold header_phase, ranks.
  assert ((λ _ : Z, extents (stream_ (reopened j))) <$> seqZ 0 (process_count j)
          = replicate (S (Z.to_nat (process_count j - 1))) [(0, header_image)])
    as ->.
  { replace (process_count j) with (Z.of_nat (S (Z.to_nat (process_count j - 1))))
      at 1 by lia.
    generalize (S (Z.to_nat (process_count j - 1))) as n.
    induction n as [|n IH]; [done|].
    rewrite seqZ_S, fmap_app, IH. simpl.
    change [[(0, header_image)]] with (replicate 1 [(0, header_image)]).
    by rewrite <-replicate_add, Nat.add_1_r. }
  apply pwrites_headers.
Qed.

Lemma placement_0 (j : job) :
  0 ≤ process_count j → placement j 0 = Z.of_nat (length header_image).
Proof.
  intros HP. rewrite placement_sum by done.
  change (Z.to_nat 0) with 0%nat. rewrite take_0.
  unfold reopened. rewrite tell_open. simpl. lia.
Qed.

Lemma fmap_ranks_ext {A} (f g : Z → A) (j : job) :
  (∀ r, 0 ≤ r < process_count j → f r = g r) → f <$> ranks j = g <$> ranks j.
Proof.
  intros Hfg. apply list_fmap_ext. intros i r Hi.
  apply lookup_seqZ in Hi as [-> Hi]. apply Hfg. lia.
Qed.

(** If every peer's final-pass bytes are the strings [S r], laid out from
    its placement, and its sizing pass counted as many bytes, then the
    peers' writes are one layout of all the strings from the header on. *)
Lemma cohort_layout_prefix (j : job) (S : Z → list (list byte)) (n : nat) :
  (∀ r, 0 ≤ r < process_count j →
     point_bytes_written (sizing_pass j r) = Zsum (lengths (S r))) →
  Z.of_nat n ≤ process_count j →
  concat ((λ r, layout (placement j r) (S r)) <$> seqZ 0 (Z.of_nat n))
  = layout (placement j 0) (concat (S <$> seqZ 0 (Z.of_nat n)))
  ∧ placement j (Z.of_nat n)
    = placement j 0 + Zsum (lengths (concat (S <$> seqZ 0 (Z.of_nat n)))).
Proof.
  intros Hbytes. induction n as [|n IH]; intros Hn.
  - split; [done|]. simpl. change (Z.of_nat 0) with 0. lia.
  - destruct IH as [IHl IHp]; [lia|].
    rewrite ranks_S, !fmap_app, !concat_app. simpl. rewrite !app_nil_r.
    rewrite layout_app, IHl, <-IHp. split; [done|].
    replace (Z.of_nat (Datatypes.S n)) with (Z.of_nat n + 1) by lia.
    rewrite placement_succ, Hbytes by lia.
    rewrite IHp, lengths_app, Zsum_app. lia.
Qed.

Lemma cohort_extents_layout (j : job) (S : Z → list (list byte)) :
  0 < process_count j →
  (∀ r, 0 ≤ r < process_count j →
     point_bytes_written (sizing_pass j r) = Zsum (lengths (S r))) →
  (∀ r, 0 ≤ r < process_count j →
     extents (stream_ (laswriter
               (final_pass j r (sizing_pass j r) (all_point_bytes_written j))))
     = layout (placement j r) (S r)) →
  concat ((λ pr, extents (stream_ (laswriter pr))) <$> finals j)
  = layout (Z.of_nat (length header_image)) (concat (S <$> ranks j)).
Proof.
  intros HP Hbytes Hext.
  destruct (cohort_layout_prefix j S (Z.to_nat (process_count j)) Hbytes)
    as [Hl _]; [lia|].
  rewrite Z2Nat.id in Hl by lia. fold (ranks j) in Hl.
  rewrite placement_0 in Hl by lia.
  unfold finals. rewrite <-list_fmap_compose.
  rewrite (fmap_ranks_ext _ (λ r, layout (placement j r) (S r)))
    by (intros r Hr; by apply Hext).
  exact Hl.
Qed.

(** Within the final pass the peers' writes may reach the file in any
    order: they are pairwise apart, so the file is the same. *)
Lemma points_phase_any_order (j : job) (S : Z → list (list byte))
    (es : list extent) :
  0 < process_count j →
  (∀ r, 0 ≤ r < process_count j →
     point_bytes_written (sizing_pass j r) = Zsum (lengths (S r))) →
  (∀ r, 0 ≤ r < process_count j →
     extents (stream_ (laswriter
               (final_pass j r (sizing_pass j r) (all_point_bytes_written j))))
     = layout (placement j r) (S r)) →
  es ≡ₚ concat ((λ pr, extents (stream_ (laswriter pr))) <$> finals j) →
  pwrites es (header_phase j) = points_phase j.
Proof.
  intros HP Hbytes Hext Hperm. unfold points_phase. symmetry.
  apply pwrites_perm; [done|].
  rewrite (cohort_extents_layout j S) by done.
  apply layout_apart. lia.
Qed.

Lemma points_phase_layout (j : job) (S : Z → list (list byte)) :
  0 < process_count j →
  (∀ r, 0 ≤ r < process_count j →
     point_bytes_written (sizing_pass j r) = Zsum (lengths (S r))) →
  (∀ r, 0 ≤ r < process_count j →
     extents (stream_ (laswriter
               (final_pass j r (sizing_pass j r) (all_point_bytes_written j))))
     = layout (placement j r) (S r)) →
  points_phase j = header_image ++ concat (concat (S <$> ranks j))
  ∧ placement j (process_count j)
    = Z.of_nat (length (header_image ++ concat (concat (S <$> ranks j)))).
Proof.
  intros HP Hbytes Hext.
  destruct (cohort_layout_prefix j S (Z.to_nat (process_count j)) Hbytes)
    as [Hl Hp]; [lia|].
  rewrite Z2Nat.id in Hl, Hp by lia. fold (ranks j) in Hl, Hp.
  rewrite placement_0 in Hl, Hp by lia.
  split.
  - unfold points_phase. rewrite header_phase_image by done.
    unfold finals. rewrite <-list_fmap_compose.
    rewrite (fmap_ranks_ext _ (λ r, layout (placement j r) (S r)))
      by (intros r Hr; by apply Hext).
    rewrite Hl. apply pwrites_layout_end.
  - rewrite Hp, Zsum_lengths, length_app. lia.
Qed.

Lemma concat_lengths_fmap {A} (S : Z → list (list A)) (l : list Z) :
  concat ((λ r, lengths (S r)) <$> l) = lengths (concat (S <$> l)).
Proof.
  induction l as [|r l IH]; [done|].
  rewrite !fmap_cons. cbn [concat]. by rewrite IH, lengths_app.
Qed.

Lemma elem_le_Zsum (l : list Z) (x : Z) :
  Forall (λ y, 0 ≤ y) l → x ∈ l → x ≤ Zsum l.
Proof.
  induction 1 as [|y l Hy Hl IH]; intros Hx.
  - by apply elem_of_nil in Hx.
  - pose proof (Zsum_nonneg l Hl).
    apply elem_of_cons in Hx as [->|Hx]; simpl; [lia|].
    specialize (IH Hx). lia.
Qed.

Lemma fmap_u32_small (l : list Z) :
  Forall (λ y, 0 ≤ y) l → Zsum l < 2 ^ 32 → u32 <$> l = l.
Proof.
  intros Hl Hs. rewrite <-(list_fmap_id l) at 2.
  apply list_fmap_ext. intros i x Hx.
  apply u32_small. split.
  - by apply (proj1 (Forall_lookup _ l) Hl i x).
  - pose proof (elem_le_Zsum l x Hl (list_elem_of_lookup_2 _ _ _ Hx)). simpl. lia.
Qed.

(** In the las -> laz direction a peer's message is the whole
    [chunk_bytes] array of its writer: the byte lengths of its coder
    streams. *)
Lemma chunk_bytes_messages_laz (j : job) :
  las2laz j = true → 1 ≤ get_chunk_size j →
  chunk_bytes_messages j = (λ r, lengths (peer_streams j (final_enc j) r)) <$> ranks j
  ∧ (λ pr, chunk_bytes (laswriter pr)) <$> finals j = chunk_bytes_messages j
  ∧ (λ pr, number_chunks (laswriter pr)) <$> finals j
    = lengths (chunk_bytes_messages j).
Proof.
  intros Hd HC.
  assert (chunk_bytes_messages j
          = (λ r, lengths (peer_streams j (final_enc j) r)) <$> ranks j) as Hm.
  { unfold chunk_bytes_messages, finals. rewrite <-list_fmap_compose.
    apply fmap_ranks_ext. intros r Hr. simpl.
    destruct (final_emitted_laz j r (all_point_bytes_written j) Hd HC)
      as (_ & _ & Hn & Hb & _).
    rewrite Hn, Hb. apply take_ge. rewrite length_lengths. lia. }
  split; [exact Hm|]. split.
  - rewrite Hm. unfold finals. rewrite <-list_fmap_compose.
    apply fmap_ranks_ext. intros r Hr. simpl.
    by destruct (final_emitted_laz j r (all_point_bytes_written j) Hd HC)
      as (_ & _ & _ & Hb & _).
  - rewrite Hm. unfold finals, lengths at 1. rewrite <-!list_fmap_compose.
    apply fmap_ranks_ext. intros r Hr. simpl.
    destruct (final_emitted_laz j r (all_point_bytes_written j) Hd HC)
      as (_ & _ & Hn & _).
    by rewrite Hn, length_lengths.
Qed.

Lemma gathered_number_chunks_laz (j : job) :
  las2laz j = true → 1 ≤ get_chunk_size j →
  Zsum ((λ pr, number_chunks (laswriter pr)) <$> finals j) < 2 ^ 32 →
  gathered_number_chunks j = lengths (chunk_bytes_messages j).
Proof.
  intros Hd HC Htot.
  destruct (chunk_bytes_messages_laz j Hd HC) as (_ & _ & Hn).
  assert (gathered_number_chunks j
          = u32 <$> ((λ pr, number_chunks (laswriter pr)) <$> finals j)) as ->
    by (unfold gathered_number_chunks; by rewrite <-list_fmap_compose).
  rewrite Hn in Htot |- *.
  apply fmap_u32_small; [apply lengths_nonneg | done].
Qed.

Lemma length_chunk_bytes_messages (j : job) :
  length (chunk_bytes_messages j) = Z.to_nat (process_count j).
Proof.
  unfold chunk_bytes_messages, finals. by rewrite !length_fmap, length_ranks.
Qed.

Lemma table_position_message_pointer (j : job) :
  las2laz j = true → 1 ≤ get_chunk_size j → 0 < process_count j →
  table_position_message j = table_pointer.
Proof.
  intros Hd HC HP. unfold table_position_message.
  change 0%nat with (Z.to_nat 0). rewrite finals_lookup by lia. simpl.
  by destruct (final_emitted_laz j 0 (all_point_bytes_written j) Hd HC)
    as (_ & _ & _ & _ & Hp).
Qed.

(** The last rank's table step, in the las -> laz direction. *)
Lemma table_writer_laz (j : job) (junk : list Z) :
  las2laz j = true → 1 ≤ get_chunk_size j → 0 < process_count j →
  Zsum (lengths (chunk_bytes_messages j)) < 2 ^ 32 →
  let last_peer := final_pass j (process_count j - 1)
                     (sizing_pass j (process_count j - 1))
                     (all_point_bytes_written j) in
  table_writer j junk
  = Some {| laswriter :=
              write_chunk_table
                (set_chunk_table (table_position_message j)
                   (Zsum (lengths (chunk_bytes_messages j)))
                   (concat (chunk_bytes_messages j))
                   (with_stream (flushed (stream_ (laswriter last_peer)))
                      (laswriter last_peer)));
            ahead := ahead last_peer;
            calls := calls last_peer
                     ++ table_calls (process_count j) (process_count j - 1) |}.
Proof.
  intros Hd HC HP Htot last_peer.
  destruct (chunk_bytes_messages_laz j Hd HC) as (_ & _ & Hloc).
  unfold table_writer. rewrite finals_lookup by lia.
  cbn [fmap option_fmap option_map].
  rewrite gathered_number_chunks_laz by (rewrite ?Hloc; done).
  rewrite table_pass_last; [done|done| |done].
  apply length_chunk_bytes_messages.
Qed.

End facts.
End CohortFacts.

Module TableClaims.
Import Stream Writer Partitioner Driver File Cohort SerialReference Accounting.
Import DriverFacts AccountingFacts PassFacts PlacementFacts TableFacts CohortFacts.

(** C3.  las -> laz: rank [P-1] receives every peer's [chunk_bytes] array
    in rank order into one contiguous buffer, at the offsets given by the
    prefix sums of the gathered chunk counts; it overwrites its writer's
    [number_chunks] with the sum of all peers' chunk counts, sets
    [chunk_table_start_position] to the value received from rank 0 and then
    calls [write_chunk_table]; so the [number_chunks] written is the sum of
    the peers' local chunk counts.  (The counts are [U32]; their sum is
    taken to fit.) *)
Theorem last_rank_assembles_chunk_table `{Collaborators} (j : job) (junk : list Z) :
  las2laz j = true → 1 ≤ get_chunk_size j → 0 < process_count j →
  let P := process_count j in
  let local_chunks := (λ pr, number_chunks (laswriter pr)) <$> finals j in
  let rows := (λ pr, chunk_bytes (laswriter pr)) <$> finals j in
  Zsum local_chunks < 2 ^ 32 →
  gathered_number_chunks j = local_chunks
  ∧ chunk_bytes_messages j = rows
  ∧ (∀ i, (i < Z.to_nat P)%nat →
       number_chunks_offsets (gathered_number_chunks j) P !! i
       = Some (Zsum (take i local_chunks)))
  ∧ number_chunks_total (gathered_number_chunks j) P = Zsum local_chunks
  ∧ recv_chunk_bytes
      (malloc_u32 (number_chunks_total (gathered_number_chunks j) P) junk)
      (number_chunks_offsets (gathered_number_chunks j) P)
      (gathered_number_chunks j) (chunk_bytes_messages j) P
    = concat rows
  ∧ ∃ first_peer last_peer table_peer,
      finals j !! 0%nat = Some first_peer
      ∧ finals j !! Z.to_nat (P - 1) = Some last_peer
      ∧ table_writer j junk = Some table_peer
      ∧ laswriter table_peer
        = write_chunk_table
            (set_chunk_table
               (chunk_table_start_position (laswriter first_peer))
               (Zsum local_chunks) (concat rows)
               (with_stream (flushed (stream_ (laswriter last_peer)))
                  (laswriter last_peer)))
      ∧ number_chunks (laswriter table_peer) = Zsum local_chunks
      ∧ chunk_bytes (laswriter table_peer) = concat rows
      ∧ chunk_table_start_position (laswriter table_peer)
        = chunk_table_start_position (laswriter first_peer)
      ∧ extents (stream_ (laswriter table_peer))
        = chunk_table_image (tell (laswriter last_peer))
            (chunk_table_start_position (laswriter first_peer))
            (Zsum local_chunks) (concat rows)
      ∧ calls table_peer = calls last_peer ++ table_calls P (P - 1).
Proof.
  intros Hd HC HP P local_chunks rows Htot.
  destruct (chunk_bytes_messages_laz j Hd HC) as (_ & Hrows & Hloc).
  pose proof (gathered_number_chunks_laz j Hd HC Htot) as Hg.
  pose proof (length_chunk_bytes_messages j) as Hlen.
  fold rows in Hrows. fold local_chunks in Hloc.
  set (msgs := chunk_bytes_messages j) in *.
  assert (Hlen' : length (lengths msgs) = Z.to_nat P)
    by (by rewrite length_lengths).
  rewrite Hg, Hrows. rewrite Hloc in Htot |- *.
  pose proof (lengths_nonneg msgs) as Hnn.
  pose proof (Zsum_nonneg _ Hnn) as H0.
  assert (Htotal : number_chunks_total (lengths msgs) P = Zsum (lengths msgs)).
  { rewrite number_chunks_total_sum by lia.
    rewrite take_ge by lia. apply u32_small. lia. }
  split; [done|]. split; [done|]. split; [|split; [exact Htotal|split]].
  - intros i Hi. rewrite number_chunks_offsets_lookup by lia.
    f_equal. apply u32_small.
    pose proof (Zsum_take_le (lengths msgs) i (length (lengths msgs)) Hnn
                  ltac:(lia)) as Hle.
    rewrite (take_ge _ (length (lengths msgs))) in Hle by lia.
    assert (0 ≤ Zsum (take i (lengths msgs)))
      by (apply Zsum_nonneg; by apply Forall_take).
    lia.
  - rewrite Htotal. by apply recv_chunk_bytes_concat.
  - subst P msgs. eexists _, _, _.
    split; [change 0%nat with (Z.to_nat 0); apply finals_lookup; lia|].
    split; [apply finals_lookup; lia|].
    split.
    { unfold table_writer. rewrite finals_lookup by lia.
      cbn [fmap option_fmap option_map]. rewrite Hg.
      by rewrite table_pass_last. }
    assert (table_position_message j
            = chunk_table_start_position
                (laswriter (final_pass j 0 (sizing_pass j 0)
                              (all_point_bytes_written j)))) as ->.
    { unfold table_position_message. change 0%nat with (Z.to_nat 0).
      by rewrite finals_lookup by lia. }
    cbn [laswriter calls]. unfold write_chunk_table, puts, tell.
    cbn [stream_ with_stream set_chunk_table flushed number_chunks chunk_bytes
         chunk_table_start_position extents use_nil pos].
    rewrite final_not_nil_laz by done.
    by repeat split.
Qed.

Lemma last_rank_assembles_chunk_table_witness :
  let j := Toy.toy_job true [1; 2; 3; 4; 5] 2 3 in
  (las2laz j = true ∧ 1 ≤ get_chunk_size j ∧ 0 < process_count j
   ∧ Zsum ((λ pr, number_chunks (laswriter pr)) <$> finals j) < 2 ^ 32)
  ∧ gathered_number_chunks j = [1; 1; 1]
  ∧ recv_chunk_bytes
      (malloc_u32 (number_chunks_total (gathered_number_chunks j) 3) [7; 7; 7; 7])
      (number_chunks_offsets (gathered_number_chunks j) 3)
      (gathered_number_chunks j) (chunk_bytes_messages j) 3
    = [3; 3; 2].
Proof.
  intros j. split; [by vm_compute|].
  destruct (last_rank_assembles_chunk_table (H := Toy.toy) j [7; 7; 7; 7])
    as (Hg & Hm & Ho & Ht & Hr & _); [done|done|done|by vm_compute|].
  split; [rewrite Hg; reflexivity|].
  etransitivity; [exact Hr|reflexivity].
Defined.

End TableClaims.

(** ** The parallel output against the serial reference *)

Module SerialFacts.
Import Stream Writer Partitioner Driver File Cohort SerialReference Accounting.
Import PartitionerFacts DriverFacts AccountingFacts PassFacts PlacementFacts.
Import TableFacts CohortFacts.

(** As soon as there are at least as many chunks (the trailing partial one
    included) as peers, every peer is dealt at least one point. *)
Lemma las2laz_range_nonempty (N C P R : Z) :
  0 ≤ N → 0 < C → 0 < P → P ≤ cdiv N C → 0 ≤ R < P →
  1 ≤ chunks_of N C P R * C + (if R =? P - 1 then N `mod` C else 0).
Proof.
  intros HN HC HP Hchunks HR.
  pose proof (L_bounds N C P HN HC HP) as HL.
  pose proof (K_nonneg N C P HN HC HP) as HK.
  pose proof (Z.mod_pos_bound (N `div` C) P HP) as Hm.
  pose proof (Z.div_mod (N `div` C) P ltac:(lia)) as Hdm.
  assert (0 ≤ (N `div` C) `div` P) as Hq by (apply Z.div_pos; lia).
  unfold chunks_of. cbv zeta.
  destruct (Z.eq_dec (N `mod` C) 0) as [HL0|HL1].
  - rewrite cdiv_exact in Hchunks by lia.
    assert (1 ≤ (N `div` C) `div` P) by nia.
    case_ltb; nia.
  - rewrite cdiv_inexact in Hchunks by lia.
    destruct (Z.eq_dec ((N `div` C) `div` P) 0) as [Hq0|Hq1].
    + rewrite Hq0 in *. case_ltb; nia.
    + case_ltb; nia.
Qed.

Section facts.
Context `{Collaborators}.

(** In the las -> laz direction with enough chunks, peer [R] writes the
    points of its range and nothing else. *)
Lemma peer_points_laz (j : job) (R : Z) :
  las2laz j = true →
  let N := npoints j in
  let C := get_chunk_size j in
  let P := process_count j in
  0 < C → 0 < P → P ≤ cdiv N C → 0 ≤ R < P →
  let from := start_of N C P R in
  let to := if R =? P - 1 then N else start_of N C P (R + 1) in
  0 ≤ from ∧ from < to ∧ to ≤ N
  ∧ peer_points j R
    = take (Z.to_nat (to - from)) (drop (Z.to_nat from) (points j)).
Proof.
  intros Hd N C P HC HP Hchunks HR from to.
  assert (HN : 0 ≤ N) by (unfold N, npoints; lia).
  pose proof (las2laz_range_nonempty N C P R HN HC HP Hchunks HR) as Hne.
  pose proof (start_of_mono N C P HN HC HP 0 R ltac:(lia)) as H0.
  pose proof (start_of_mono N C P HN HC HP (R + 1) P ltac:(lia)) as H1.
  pose proof (start_of_P N C P HN HC HP) as HsP.
  pose proof (N_split N C P HN HC HP) as HNs.
  pose proof (L_bounds N C P HN HC HP) as HL.
  pose proof (start_of_succ N C P HN HC HP R ltac:(lia)) as Hsucc.
  assert (start_of N C P 0 = 0) as Hs0.
  { unfold start_of. pose proof (Z.mod_pos_bound (N `div` C) P HP). lia. }
  assert (Hto : to = from + chunks_of N C P R * C
                     + (if R =? P - 1 then N `mod` C else 0)).
  { unfold to, from. destruct (Z.eqb_spec R (P - 1)) as [->|]; [|lia].
    replace (P - 1 + 1) with P in Hsucc by lia. lia. }
  assert (Hto_le : to ≤ N).
  { unfold to. destruct (Z.eqb_spec R (P - 1)); lia. }
  split; [unfold from; lia|]. split; [lia|]. split; [done|].
  unfold peer_points, sizing_pass. cbn [point_start point_end].
  unfold point_range. rewrite Hd. fold N C P.
  rewrite las2laz_range_closed by done. cbn [fst snd].
  fold from. rewrite <-Hto. unfold reader_seek.
  apply loop_points_exact. rewrite length_drop. unfold N, npoints in *. lia.
Qed.

Lemma concat_fmap_fmap {A B} (f : A → B) (X : Z → list A) (l : list Z) :
  concat ((λ r, f <$> X r) <$> l) = f <$> concat (X <$> l).
Proof.
  induction l as [|r l IH]; [done|].
  rewrite !fmap_cons. cbn [concat]. by rewrite IH, fmap_app.
Qed.

(** The chunks of the peers below rank [n], put together, are the chunks of
    the points before peer [n]'s range: ranges start on chunk boundaries. *)
Lemma peer_chunks_prefix (j : job) (n : nat) :
  las2laz j = true →
  let N := npoints j in
  let C := get_chunk_size j in
  let P := process_count j in
  0 < C → 0 < P → P ≤ cdiv N C → Z.of_nat n ≤ P - 1 →
  concat ((λ r, coder_runs C (peer_points j r)) <$> seqZ 0 (Z.of_nat n))
  = chunks C (take (Z.to_nat (start_of N C P (Z.of_nat n))) (points j)).
Proof.
  intros Hd N C P HC HP Hchunks.
  assert (HN : 0 ≤ N) by (unfold N, npoints; lia).
  induction n as [|n IH]; intros Hn.
  - change (Z.of_nat 0) with 0.
    assert (start_of N C P 0 = 0) as ->.
    { unfold start_of. pose proof (Z.mod_pos_bound (N `div` C) P HP). lia. }
    done.
  - rewrite ranks_S, fmap_app, concat_app, IH by lia.
    cbn [fmap list_fmap concat]. rewrite app_nil_r.
    destruct (peer_points_laz j (Z.of_nat n) Hd) as (H0 & Hlt & Hle & Hpp);
      [done|done|done|lia|].
    fold N C P in H0, Hlt, Hle, Hpp.
    destruct (Z.eqb_spec (Z.of_nat n) (P - 1)) as [|_]; [lia|].
    replace (Z.of_nat (S n)) with (Z.of_nat n + 1) by lia.
    set (from := start_of N C P (Z.of_nat n)) in *.
    set (to := start_of N C P (Z.of_nat n + 1)) in *.
    rewrite coder_runs_nonempty, Hpp.
    2:{ rewrite Hpp. intros Hnil. apply (f_equal length) in Hnil.
        rewrite length_take, length_drop in Hnil. unfold N, npoints in *.
        simpl in Hnil. lia. }
    replace (Z.to_nat to) with (Z.to_nat from + Z.to_nat (to - from))%nat by lia.
    rewrite <-take_take_drop.
    apply eq_sym, (chunks_aligned_app C
      (Z.to_nat (Z.of_nat n * ((N `div` C) `div` P)
                 + Z.min (Z.of_nat n) ((N `div` C) `mod` P)))); [lia|].
    rewrite length_take. unfold from at 1, start_of. cbv zeta.
    pose proof (Z.mod_pos_bound (N `div` C) P HP).
    pose proof (K_nonneg N C P HN HC HP).
    assert (0 ≤ (N `div` C) `div` P) by (apply Z.div_pos; lia).
    rewrite Z2Nat.id by nia. unfold N, npoints in *.
    unfold from, start_of in Hle, Hlt, H0. cbv zeta in *. lia.
Qed.

(** With enough chunks, the peers' coder runs are the chunks of the whole
    input, in order. *)
Lemma cohort_chunks (j : job) :
  las2laz j = true →
  let N := npoints j in
  let C := get_chunk_size j in
  let P := process_count j in
  0 < C → 0 < P → P ≤ cdiv N C →
  concat ((λ r, coder_runs C (peer_points j r)) <$> ranks j) = chunks C (points j).
Proof.
  intros Hd N C P HC HP Hchunks.
  assert (HN : 0 ≤ N) by (unfold N, npoints; lia).
  unfold ranks. fold P.
  replace P with (Z.of_nat (S (Z.to_nat (P - 1)))) at 1 by lia.
  rewrite ranks_S, fmap_app, concat_app.
  pose proof (peer_chunks_prefix j (Z.to_nat (P - 1)) Hd) as Hpre.
  cbv zeta in Hpre. fold N C P in Hpre.
  rewrite Hpre by lia. rewrite Z2Nat.id by lia.
  cbn [fmap list_fmap concat]. rewrite app_nil_r.
  destruct (peer_points_laz j (P - 1) Hd) as (H0 & Hlt & Hle & Hpp);
    [done|done|done|lia|].
  fold N C P in H0, Hlt, Hle, Hpp. rewrite Z.eqb_refl in Hlt, Hle, Hpp.
  set (from := start_of N C P (P - 1)) in *.
  rewrite coder_runs_nonempty, Hpp.
  2:{ rewrite Hpp. intros Hnil. apply (f_equal length) in Hnil.
      rewrite length_take, length_drop in Hnil. unfold N, npoints in *.
      simpl in Hnil. lia. }
  rewrite (take_ge (drop _ _))
    by (rewrite length_drop; unfold N, npoints in *; lia).
  rewrite <-(take_drop (Z.to_nat from) (points j)) at 3.
  apply eq_sym, (chunks_aligned_app C
    (Z.to_nat ((P - 1) * ((N `div` C) `div` P)
               + Z.min (P - 1) ((N `div` C) `mod` P)))); [lia|].
  rewrite length_take. unfold from at 1, start_of. cbv zeta.
  pose proof (Z.mod_pos_bound (N `div` C) P HP).
  pose proof (K_nonneg N C P HN HC HP).
  assert (0 ≤ (N `div` C) `div` P) by (apply Z.div_pos; lia).
  rewrite Z2Nat.id by nia. unfold N, npoints in *.
  unfold from, start_of in Hle, Hlt, H0. cbv zeta in *. lia.
Qed.

(** In a las -> laz run whose two coders agree, every peer counts in the
    sizing pass the bytes of the coder streams it lays out in the final
    pass. *)
Lemma laz_peer_streams (j : job) (e : encoder) :
  las2laz j = true → sizing_enc j = e → final_enc j = e →
  1 ≤ get_chunk_size j →
  (∀ r, 0 ≤ r < process_count j →
     point_bytes_written (sizing_pass j r) = Zsum (lengths (peer_streams j e r)))
  ∧ (∀ r, 0 ≤ r < process_count j →
       extents (stream_ (laswriter
                 (final_pass j r (sizing_pass j r) (all_point_bytes_written j))))
       = layout (placement j r) (peer_streams j e r)).
Proof.
  intros Hd Hse Hfe HC. split.
  - intros r _. rewrite sizing_bytes_laz by done. by rewrite Hse.
  - intros r _.
    destruct (final_emitted_laz j r (all_point_bytes_written j) Hd HC)
      as (_ & He & _).
    by rewrite He, Hfe.
Qed.

(** The output file of a las -> laz run whose two coders agree: header,
    then every peer's coder streams in rank order, then the chunk table the
    last rank writes. *)
Lemma output_file_laz (j : job) (junk : list Z) (e : encoder) :
  las2laz j = true → sizing_enc j = e → final_enc j = e →
  1 ≤ get_chunk_size j → 0 < process_count j →
  let SS := cohort_streams j e in
  let body := header_image ++ concat SS in
  Z.of_nat (length SS) < 2 ^ 32 →
  points_phase j = body
  ∧ output_file j junk
    = pwrites (chunk_table_image (Z.of_nat (length body)) table_pointer
                 (Z.of_nat (length SS)) (lengths SS)) body.
Proof.
  intros Hd Hse Hfe HC HP SS body Htot.
  destruct (laz_peer_streams j e Hd Hse Hfe HC) as [Hbytes Hext].
  destruct (points_phase_layout j (peer_streams j e) HP Hbytes Hext) as [Hpp HpP].
  fold (cohort_streams j e) in Hpp, HpP. fold SS in Hpp, HpP. fold body in Hpp, HpP.
  split; [exact Hpp|].
  destruct (chunk_bytes_messages_laz j Hd HC) as (Hm & _ & _).
  rewrite Hfe in Hm.
  assert (Hcat : concat (chunk_bytes_messages j) = lengths SS).
  { rewrite Hm. apply concat_lengths_fmap. }
  assert (Hsum : Zsum (lengths (chunk_bytes_messages j)) = Z.of_nat (length SS)).
  { by rewrite Zsum_lengths, Hcat, length_lengths. }
  unfold output_file. rewrite Hd, Hpp.
  rewrite table_writer_laz by (rewrite ?Hsum; done).
  cbn [from_option laswriter]. unfold write_chunk_table, puts, tell.
  cbn [stream_ with_stream set_chunk_table flushed number_chunks chunk_bytes
       chunk_table_start_position extents use_nil pos].
  rewrite final_not_nil_laz by done. cbn [app].
  rewrite table_position_message_pointer, Hsum, Hcat by done.
  destruct (final_emitted_laz j (process_count j - 1) (all_point_bytes_written j)
              Hd HC) as (Ht & _).
  unfold tell at 1 in Ht. rewrite Ht, Hfe.
  fold (placement j (process_count j - 1)).
  rewrite <-Hbytes by lia. rewrite <-placement_succ by lia.
  replace (process_count j - 1 + 1) with (process_count j) by lia.
  by rewrite HpP.
Qed.

(** In the laz -> las direction with at least as many points as peers,
    peer [R] writes the points of its range and nothing else. *)
Lemma peer_points_las (j : job) (R : Z) :
  las2laz j = false →
  let N := npoints j in
  let P := process_count j in
  0 < P → P ≤ N → 0 ≤ R < P →
  let from := R * (N `div` P) in
  let to := if R =? P - 1 then N else (R + 1) * (N `div` P) in
  0 ≤ from ∧ from < to ∧ to ≤ N
  ∧ peer_points j R
    = take (Z.to_nat (to - from)) (drop (Z.to_nat from) (points j)).
Proof.
  intros Hd N P HP HPN HR from to.
  assert (HN : 0 ≤ N) by (unfold N, npoints; lia).
  pose proof (Z.div_mod N P ltac:(lia)) as Hdm.
  pose proof (Z.mod_pos_bound N P HP) as Hm.
  assert (1 ≤ N `div` P) as Hq by (apply Z.div_le_lower_bound; lia).
  assert (Hto : to = from + N `div` P + (if R =? P - 1 then N `mod` P else 0)).
  { unfold to, from. destruct (Z.eqb_spec R (P - 1)) as [->|]; lia. }
  assert (to ≤ N) as Hle.
  { unfold to. destruct (Z.eqb_spec R (P - 1)); [lia|]. nia. }
  assert (0 ≤ from) as H0 by (unfold from; nia).
  assert (from < to) as Hlt by (rewrite Hto; destruct (R =? P - 1); lia).
  split; [done|]. split; [done|]. split; [done|].
  unfold peer_points, sizing_pass. cbn [point_start point_end].
  unfold point_range. rewrite Hd. fold N P. unfold laz2las_range. cbn [fst snd].
  rewrite Z.quot_div_nonneg, Z.rem_mod_nonneg by lia. fold from.
  replace (if R =? P - 1 then from + N `div` P + N `mod` P else from + N `div` P)
    with to by (rewrite Hto; destruct (R =? P - 1); lia).
  unfold reader_seek. apply loop_points_exact.
  rewrite length_drop. unfold N, npoints in *. lia.
Qed.

Lemma peer_points_las_prefix (j : job) (n : nat) :
  las2laz j = false →
  let N := npoints j in
  let P := process_count j in
  0 < P → P ≤ N → Z.of_nat n ≤ P - 1 →
  concat (peer_points j <$> seqZ 0 (Z.of_nat n))
  = take (Z.to_nat (Z.of_nat n * (N `div` P))) (points j).
Proof.
  intros Hd N P HP HPN. induction n as [|n IH]; intros Hn.
  - done.
  - rewrite ranks_S, fmap_app, concat_app, IH by lia.
    cbn [fmap list_fmap concat]. rewrite app_nil_r.
    destruct (peer_points_las j (Z.of_nat n) Hd) as (H0 & Hlt & Hle & Hpp);
      [done|done|lia|].
    fold N P in H0, Hlt, Hle, Hpp.
    destruct (Z.eqb_spec (Z.of_nat n) (P - 1)) as [|_]; [lia|].
    rewrite Hpp, take_take_drop. f_equal. lia.
Qed.

(** With at least as many points as peers, the peers' points put together
    in rank order are the points of the input. *)
Lemma cohort_points_las (j : job) :
  las2laz j = false → 0 < process_count j → process_count j ≤ npoints j →
  concat (peer_points j <$> ranks j) = points j.
Proof.
  intros Hd HP HPN. unfold ranks.
  replace (process_count j)
    with (Z.of_nat (S (Z.to_nat (process_count j - 1)))) at 1 by lia.
  rewrite ranks_S, fmap_app, concat_app.
  pose proof (peer_points_las_prefix j (Z.to_nat (process_count j - 1)) Hd)
    as Hpre.
  cbv zeta in Hpre. rewrite Hpre by lia. rewrite Z2Nat.id by lia.
  cbn [fmap list_fmap concat]. rewrite app_nil_r.
  destruct (peer_points_las j (process_count j - 1) Hd)
    as (H0 & Hlt & Hle & Hpp); [done|done|lia|].
  rewrite Z.eqb_refl in Hlt, Hle, Hpp. rewrite Hpp.
  rewrite (take_ge (drop _ _)) by (rewrite length_drop; unfold npoints in *; lia).
  apply take_drop.
Qed.

(** The laz -> las direction against the serial decoder: the header, then
    every point's raw record in input order, in whatever order the peers'
    writes reach the file. *)
Lemma parallel_las_is_serial_las (j : job) (junk : list Z) (es : list extent) :
  las2laz j = false → 0 < process_count j → process_count j ≤ npoints j →
  es ≡ₚ concat ((λ pr, extents (stream_ (laswriter pr))) <$> finals j) →
  output_file j junk = serial_las (points j)
  ∧ pwrites es (header_phase j) = serial_las (points j).
Proof.
  intros Hd HP HPN Hes.
  assert (Hbytes : ∀ r, 0 ≤ r < process_count j →
            point_bytes_written (sizing_pass j r)
            = Zsum (lengths (raw_point <$> peer_points j r))).
  { intros r _. by apply sizing_bytes_las. }
  assert (Hext : ∀ r, 0 ≤ r < process_count j →
            extents (stream_ (laswriter
                      (final_pass j r (sizing_pass j r) (all_point_bytes_written j))))
            = layout (placement j r) (raw_point <$> peer_points j r)).
  { intros r _.
    by destruct (final_raw_las j r (all_point_bytes_written j) Hd) as (_ & He & _). }
  destruct (points_phase_layout j (λ r, raw_point <$> peer_points j r)
              HP Hbytes Hext) as [Hpp _].
  rewrite (concat_fmap_fmap raw_point (peer_points j)) in Hpp.
  rewrite cohort_points_las in Hpp by done.
  split.
  - unfold output_file. by rewrite Hd.
  - by rewrite (points_phase_any_order j (λ r, raw_point <$> peer_points j r)).
Qed.

End facts.
End SerialFacts.

Module SerialClaims.
Import Stream Writer Partitioner Driver File Cohort SerialReference Accounting.
Import PartitionerFacts DriverFacts AccountingFacts PassFacts PlacementFacts.
Import TableFacts CohortFacts SerialFacts.

(** C5.  las -> laz: the file the cohort leaves behind is, byte for byte,
    what a serial encoder produces from the same points and chunk size: the
    same header, the same compressed point bytes in the same order (in
    whatever order the peers' writes reach the file), the same chunk table at
    the same offset; in particular with a single peer.  The coder is taken to
    be deterministic (both writers' coders are the serial one), every peer to
    be dealt at least one point (at least as many chunks, the trailing partial
    one included, as peers) and the chunk count to fit its [U32]. *)
Theorem parallel_laz_is_serial_laz `{Collaborators} (j : job) (junk : list Z)
    (e : encoder) :
  las2laz j = true → sizing_enc j = e → final_enc j = e →
  let N := npoints j in
  let C := get_chunk_size j in
  let P := process_count j in
  0 < C → 0 < P → P ≤ cdiv N C → cdiv N C < 2 ^ 32 →
  header_phase j = header_image
  ∧ points_phase j = header_image ++ concat (e <$> chunks C (points j))
  ∧ (∀ es, es ≡ₚ concat ((λ pr, extents (stream_ (laswriter pr))) <$> finals j) →
       pwrites es (header_phase j) = points_phase j)
  ∧ output_file j junk = serial_laz e C (points j).
Proof.
  intros Hd Hse Hfe N C P HC HP Hchunks Htot.
  assert (HSS : cohort_streams j e = e <$> chunks C (points j)).
  { unfold cohort_streams, peer_streams.
    rewrite (concat_fmap_fmap e (λ r, coder_runs (get_chunk_size j) (peer_points j r))).
    by rewrite cohort_chunks. }
  destruct (output_file_laz j junk e Hd Hse Hfe) as [Hpp Hout];
    [fold C; lia|done| |].
  { rewrite HSS, length_fmap, length_chunks by lia. exact Htot. }
  rewrite HSS in Hpp, Hout.
  split; [by apply header_phase_image|]. split; [exact Hpp|].
  split; [|rewrite Hout; reflexivity].
  intros es Hes.
  destruct (laz_peer_streams j e Hd Hse Hfe) as [Hbytes Hext]; [fold C; lia|].
  by apply (points_phase_any_order j (peer_streams j e)).
Qed.

Lemma parallel_laz_is_serial_laz_witness :
  let j := Toy.toy_job true [1; 2; 3; 4; 5] 2 3 in
  (las2laz j = true ∧ sizing_enc j = Toy.toy_enc ∧ final_enc j = Toy.toy_enc
   ∧ 0 < 2 ∧ 0 < 3 ∧ 3 ≤ cdiv 5 2 ∧ cdiv 5 2 < 2 ^ 32)
  ∧ output_file j [] = serial_laz (H := Toy.toy) Toy.toy_enc 2 [1; 2; 3; 4; 5].
Proof.
  intros j. split; [by vm_compute|].
  apply (parallel_laz_is_serial_laz (H := Toy.toy) j [] Toy.toy_enc);
    by vm_compute.
Defined.

End SerialClaims.

(** ** What the driver does not do *)

Module DriverClaims.
Import Stream Writer Partitioner Driver File Cohort SerialReference Accounting.
Import PartitionerFacts DriverFacts AccountingFacts PassFacts PlacementFacts.
Import TableFacts CohortFacts SerialFacts.

Lemma loop_call_not_chunk_call (k : list call) :
  Forall loop_call k → Forall (λ c, chunk_call c = false) k.
Proof. apply Forall_impl. by intros c [->| ->]. Qed.

Lemma loop_call_not_tell (k : list call) : Forall loop_call k → Tell ∉ k.
Proof.
  intros HF Hin. rewrite list.Forall_forall in HF.
  by destruct (HF _ Hin).
Qed.

(** C10.  laz -> las (the input header carries a laszip descriptor): no
    chunk is terminated after either pass (no [enc->done()], no
    [add_chunk_to_table()]), and the whole chunk-metadata exchange and
    chunk-table write (the gather of the chunk counts, the sends and receives
    of [chunk_bytes], the transfer of [chunk_table_start_position],
    [write_chunk_table]) is skipped on every rank; the only bytes written are
    the header and, from the peer's offset on, the decompressed records of the
    points the peer's encode loop wrote.  Those are the points of the peer's
    range when the range holds at least one point.  When the range is empty
    they are not the range but all the points from [point_start] to the end
    of the input: the loop tests its count against the length of the range
    only after a write. *)
Theorem laz2las_skips_chunk_steps `{Collaborators} (j : job) (rank : Z)
    (all number_chunks junk : list Z) (messages : list (list Z))
    (table_position : Z) :
  las2laz j = false → 0 < process_count j →
  let s := sizing_pass j rank in
  let fp := final_pass j rank s all in
  let out := peer_main j rank all number_chunks junk messages table_position in
  final_peer out = fp
  ∧ Forall (λ c, chunk_call c = false) (calls (final_peer out))
  ∧ Writer.number_chunks (laswriter fp) = 0
  ∧ chunk_bytes (laswriter fp) = []
  ∧ extents (stream_ (reopened j)) = [(0, header_image)]
  ∧ extents (stream_ (laswriter fp))
    = layout (write_point_offset (tell (reopened j)) all rank)
        (raw_point <$> peer_points j rank)
  ∧ (0 ≤ point_start s → 1 ≤ point_end s - point_start s →
     point_end s ≤ npoints j →
     peer_points j rank
     = take (Z.to_nat (point_end s - point_start s))
         (drop (Z.to_nat (point_start s)) (points j)))
  ∧ (point_end s - point_start s ≤ 0 →
     peer_points j rank = drop (Z.to_nat (point_start s)) (points j))
  ∧ output_file j junk = points_phase j.
Proof.
  intros Hd HP s fp out.
  assert (Hout : final_peer out = fp).
  { unfold out, peer_main, table_pass. cbn [final_peer]. by rewrite Hd. }
  destruct (final_raw_las j rank all Hd) as (_ & He & Hn & Hb).
  split; [exact Hout|]. split; [|split; [exact Hn|split; [exact Hb|]]].
  - rewrite Hout. unfold fp.
    destruct (final_pass_calls j rank s all) as (k2 & HF2 & ->).
    destruct (sizing_pass_calls j rank) as (k1 & HF1 & Hk1).
    fold s in Hk1. rewrite Hk1, Hd.
    unfold terminate_calls, exchange_calls.
    repeat apply Forall_app_2; try by apply loop_call_not_chunk_call.
    all: by repeat constructor.
  - split; [by unfold reopened; rewrite Hd|].
    split; [exact He|]. split; [|split].
    + intros H0 H1 HN. unfold peer_points. fold s. unfold reader_seek.
      apply loop_points_exact. rewrite length_drop. unfold npoints in HN. lia.
    + intros Hempty. unfold peer_points. fold s. unfold reader_seek, loop_points.
      destruct (Z.ltb_spec 0 (point_end s - point_start s)); [lia|done].
    + unfold output_file. by rewrite Hd.
Qed.

Lemma laz2las_skips_chunk_steps_witness :
  let j := Toy.toy_job false [1; 2] 2 3 in
  (las2laz j = false ∧ 0 < process_count j)
  ∧ (point_start (sizing_pass j 0), point_end (sizing_pass j 0)) = (0, 0)
  ∧ Forall (λ c, chunk_call c = false)
      (calls (final_peer (peer_main j 0 (all_point_bytes_written j) [] [] [] 0)))
  ∧ extents (stream_ (laswriter
              (final_pass j 0 (sizing_pass j 0) (all_point_bytes_written j))))
    = layout 5 (raw_point (Collaborators := Toy.toy) <$> [1; 2]).
Proof.
  intros j. split; [done|]. split; [reflexivity|].
  destruct (laz2las_skips_chunk_steps (H := Toy.toy) j 0
              (all_point_bytes_written j) [] [] [] 0)
    as (_ & Hc & _ & _ & _ & He & _ & Hall & _); [done..|].
  split; [exact Hc|]. rewrite He, Hall by done. reflexivity.
Defined.

(** C9, on inputs where it fails.  A peer whose range is empty still writes
    a point whenever the reader has one: the loop tests
    [p_count == point_end - point_start] only after a write, when the count is
    already 1, so the test never succeeds and the loop runs to the end of the
    input.  laz -> las with 2 points and 3 peers: peers 0 and 1 are dealt the
    empty range [0, 0) and write both points, in both passes.  las -> laz with
    3 points, chunk size 2 and 3 peers: peer 1 is dealt the empty range [2, 2)
    and writes the point of index 2. *)
Theorem encode_loop_overruns_empty_range :
  let j := Toy.toy_job false [1; 2] 2 3 in
  let s := sizing_pass j 0 in
  let fp := final_pass j 0 s (all_point_bytes_written j) in
  let j' := Toy.toy_job true [1; 2; 3] 2 3 in
  let s' := sizing_pass j' 1 in
  let fp' := final_pass j' 1 s' (all_point_bytes_written j') in
  ((point_start s, point_end s) = (0, 0)
   ∧ p_count (laswriter (sizing_peer s)) = 2
   ∧ p_count (laswriter fp) = 2
   ∧ peer_points j 0 = [1; 2])
  ∧ ((point_start s', point_end s') = (2, 2)
     ∧ p_count (laswriter (sizing_peer s')) = 1
     ∧ p_count (laswriter fp') = 1
     ∧ peer_points j' 1 = [3]).
Proof. by vm_compute. Qed.

Lemma table_pass_calls `{Collaborators} (j : job) (rank : Z) (pr : peer)
    (number_chunks junk : list Z) (messages : list (list Z)) (table_position : Z) :
  calls (table_pass j rank pr number_chunks junk messages table_position)
  = calls pr ++ (if las2laz j then table_calls (process_count j) rank else []).
Proof.
  unfold table_pass. destruct (las2laz j); [done|]. by rewrite app_nil_r.
Qed.

Lemma tell_not_in_table_calls (P rank : Z) : Tell ∉ table_calls P rank.
Proof.
  unfold table_calls. rewrite !elem_of_app.
  intros [Hin|[Hin|[Hin|[Hin|[Hin|[Hin|Hin]]]]]].
  - by repeat (apply elem_of_cons in Hin as [?|Hin]; [done|]);
      apply elem_of_nil in Hin.
  - destruct (rank =? P - 1); [|by apply elem_of_nil in Hin].
    by apply list_elem_of_fmap in Hin as (i & ? & _).
  - by apply list_elem_of_singleton in Hin.
  - destruct (rank =? 0); [by apply list_elem_of_singleton in Hin
                          |by apply elem_of_nil in Hin].
  - destruct (rank =? P - 1); [by apply list_elem_of_singleton in Hin
                              |by apply elem_of_nil in Hin].
  - by apply list_elem_of_singleton in Hin.
  - destruct (rank =? P - 1); [by apply list_elem_of_singleton in Hin
                              |by apply elem_of_nil in Hin].
Qed.

Lemma tell_not_in_terminate_calls (to_laz : bool) : Tell ∉ terminate_calls to_laz.
Proof.
  destruct to_laz; simpl; intros Hin;
    by repeat (apply elem_of_cons in Hin as [?|Hin]; [done|]);
      apply elem_of_nil in Hin.
Qed.

(** With the same coder behind both writers, a peer's two passes emit the
    same number of bytes. *)
Lemma final_bytes_deterministic `{Collaborators} (j : job) (rank : Z) :
  sizing_enc j = final_enc j → 1 ≤ get_chunk_size j →
  final_bytes_written j rank = point_bytes_written (sizing_pass j rank).
Proof.
  intros Henc HC. unfold final_bytes_written.
  destruct (las2laz j) eqn:Hd.
  - destruct (final_emitted_laz j rank (all_point_bytes_written j) Hd HC)
      as (Ht & _).
    rewrite Ht, sizing_bytes_laz, Henc by done. lia.
  - destruct (final_raw_las j rank (all_point_bytes_written j) Hd) as (Ht & _).
    rewrite Ht, sizing_bytes_las by done. lia.
Qed.

(** C7 as amended.  For a positive chunk size and at least one peer, the
    two byte counts of a peer are not compared: after its final encode loop a
    peer never queries the stream position, so the final-pass count is not
    even computed, and whatever the coders emit the driver's only way out is
    [byebye(false)].  The counts agree when the same deterministic coder is
    behind both writers. *)
Theorem sizing_mismatch_unchecked `{Collaborators} (j : job) (rank : Z)
    (all number_chunks junk : list Z) (messages : list (list Z))
    (table_position : Z) :
  0 < get_chunk_size j → 0 < process_count j →
  let s := sizing_pass j rank in
  let out := peer_main j rank all number_chunks junk messages table_position in
  exit_code out = 0
  ∧ (∃ after_seek,
       calls (final_peer out)
       = calls (sizing_peer s)
         ++ exchange_calls (las2laz j)
              (write_point_offset (tell (reopened j)) all rank) (point_start s)
         ++ after_seek
       ∧ Tell ∉ after_seek)
  ∧ (sizing_enc j = final_enc j →
     final_bytes_written j rank = point_bytes_written s).
Proof.
  intros HC HP s out. split; [done|].
  split; [|intros Henc; apply final_bytes_deterministic; [done|lia]].
  unfold out, peer_main. cbn [final_peer]. rewrite table_pass_calls.
  destruct (final_pass_calls j rank (sizing_pass j rank) all) as (k & HF & ->).
  fold s.
  exists (k ++ terminate_calls (las2laz j)
          ++ (if las2laz j then table_calls (process_count j) rank else [])).
  split; [by rewrite <-!app_assoc|].
  rewrite !elem_of_app. intros [Hin|[Hin|Hin]].
  - by apply (loop_call_not_tell k HF).
  - by apply (tell_not_in_terminate_calls (las2laz j)).
  - destruct (las2laz j); [by apply (tell_not_in_table_calls _ _ Hin)|].
    by apply elem_of_nil in Hin.
Qed.

Lemma sizing_mismatch_unchecked_witness :
  let j := Toy.toy_job true [1; 2; 3; 4; 5] 2 3 in
  (0 < get_chunk_size j ∧ 0 < process_count j ∧ sizing_enc j = final_enc j)
  ∧ exit_code (peer_main j 2 [] [] [] [] 0) = 0
  ∧ final_bytes_written j 2 = 2.
Proof.
  intros j. split; [done|].
  destruct (sizing_mismatch_unchecked (H := Toy.toy) j 2 [] [] [] [] 0)
    as (Hx & _ & Hdet); [done..|].
  split; [exact Hx|]. rewrite Hdet by done. reflexivity.
Defined.

(** C7 as stated fails: with a final-pass coder that emits one byte less
    per chunk than the sizing-pass coder, peer 0's counts differ (2 against
    3) and the peer still goes out through [byebye(false)]. *)
Lemma sizing_mismatch_goes_unnoticed :
  let j := Toy.skewed_job [1; 2; 3; 4; 5] 2 3 in
  point_bytes_written (sizing_pass j 0) = 3
  ∧ final_bytes_written j 0 = 2
  ∧ exit_code (peer_main j 0 (all_point_bytes_written j)
                 (gathered_number_chunks j) [] (chunk_bytes_messages j)
                 (table_position_message j)) = 0.
Proof. by vm_compute. Qed.

(** C6 as amended.  las -> laz with fewer whole chunks than peers
    ([K < P]): the partitioner makes no check and does not fail.  It deals
    one chunk to each of the ranks below [K] and none to the others, so rank
    [R] gets the range starting at [min(R, K) * C] (empty for
    [K <= R < P - 1], the [L] trailing points for the last rank); the peer
    goes on into the sizing pass with that range, and the driver's only way
    out is [byebye(false)]. *)
Theorem insufficient_chunks_unchecked `{Collaborators} (j : job) (R : Z)
    (all number_chunks junk : list Z) (messages : list (list Z))
    (table_position : Z) :
  las2laz j = true →
  let N := npoints j in
  let C := get_chunk_size j in
  let P := process_count j in
  let K := N `div` C in
  0 < C → 0 < P → K < P → 0 ≤ R < P →
  all_process_chunks N C P !! Z.to_nat R = Some (if R <? K then 1 else 0)
  ∧ las2laz_range N C P R
    = (Z.min R K * C,
       Z.min R K * C + (if R <? K then C else 0)
       + (if R =? P - 1 then N `mod` C else 0))
  ∧ (point_start (sizing_pass j R), point_end (sizing_pass j R))
    = las2laz_range N C P R
  ∧ exit_code (peer_main j R all number_chunks junk messages table_position) = 0.
Proof.
  intros Hd N C P K HC HP HK HR.
  assert (HN : 0 ≤ N) by (unfold N, npoints; lia).
  pose proof (K_nonneg N C P HN HC HP) as HK0. fold K in HK0.
  assert (K `div` P = 0) as Hq by (apply Z.div_small; lia).
  assert (K `mod` P = K) as Hm by (apply Z.mod_small; lia).
  split; [|split; [|split; [|done]]].
  - rewrite all_process_chunks_lookup by done. fold K. rewrite Hq, Hm.
    by destruct (R <? K).
  - rewrite las2laz_range_closed by done. unfold start_of, chunks_of.
    fold K. cbv zeta. rewrite Hq, Hm. f_equal; [lia|].
    destruct (R <? K); lia.
  - unfold sizing_pass. cbn [point_start point_end]. unfold point_range.
    rewrite Hd. fold N C P. by destruct (las2laz_range N C P R).
Qed.

Lemma insufficient_chunks_unchecked_witness :
  let j := Toy.toy_job true [1; 2; 3] 2 3 in
  (las2laz j = true ∧ 0 < 2 ∧ 0 < 3 ∧ 3 `div` 2 < 3 ∧ 0 ≤ 1 < 3)
  ∧ las2laz_range 3 2 3 1 = (2, 2)
  ∧ exit_code (peer_main j 1 [] [] [] [] 0) = 0.
Proof.
  intros j. split; [by vm_compute|].
  destruct (insufficient_chunks_unchecked (H := Toy.toy) j 1 [] [] [] [] 0)
    as (_ & Hr & _ & Hx); [done..|].
  split; [exact Hr | exact Hx].
Defined.

(** C6 as stated fails: 5 points, chunk size 2, 3 peers give [K = 2 < 3],
    and yet every peer gets a range, every peer goes out through
    [byebye(false)], and the file is the serial one. *)
Lemma fewer_chunks_than_peers_runs :
  let j := Toy.toy_job true [1; 2; 3; 4; 5] 2 3 in
  npoints j `div` get_chunk_size j < process_count j
  ∧ las2laz_range 5 2 3 <$> [0; 1; 2] = [(0, 2); (2, 4); (4, 5)]
  ∧ (λ r, exit_code (peer_main j r (all_point_bytes_written j)
                       (gathered_number_chunks j) [] (chunk_bytes_messages j)
                       (table_position_message j))) <$> [0; 1; 2]
    = [0; 0; 0]
  ∧ output_file j []
    = serial_laz (H := Toy.toy) Toy.toy_enc 2 [1; 2; 3; 4; 5].
Proof. by vm_compute. Qed.

End DriverClaims.

(** ** Further properties of the partitioner *)

Module PartitionerExtras.
Import Partitioner PartitionerFacts.

(** X1.  las -> laz, lines 817-847: for a non-negative point count and
    positive chunk size and peer count, every entry of [all_process_chunks]
    is non-negative and worth at most [N] points, every entry of
    [all_point_start] lies in [0, N], and every rank's range satisfies
    [0 <= point_start <= point_end <= N]: nothing the branch computes leaves
    the interval [0, N], so no [I64] overflows and no peer seeks past the
    input. *)
Theorem las2laz_partition_in_bounds (N C P : Z) :
  0 ≤ N → 0 < C → 0 < P →
  Forall (λ c, 0 ≤ c ∧ c * C ≤ N) (all_process_chunks N C P)
  ∧ Forall (λ s, 0 ≤ s ≤ N) (all_point_start N C P)
  ∧ (∀ R, 0 ≤ R < P →
       0 ≤ (las2laz_range N C P R).1
       ∧ (las2laz_range N C P R).1 ≤ (las2laz_range N C P R).2
       ∧ (las2laz_range N C P R).2 ≤ N).
Proof.
  intros HN HC HP.
  pose proof (las2laz_values_bounded N C P HN HC HP) as Hb.
  pose proof (L_bounds N C P HN HC HP) as HL.
  split; [|split].
  - apply Forall_lookup_2. intros i c Hi.
    assert (i < Z.to_nat P)%nat as Hlt.
    { apply lookup_lt_Some in Hi.
      by rewrite (length_all_process_chunks N C P HN HC HP) in Hi. }
    pose proof (all_process_chunks_lookup N C P HN HC HP (Z.of_nat i) ltac:(lia))
      as Hl.
    rewrite Nat2Z.id, Hi in Hl. injection Hl as ->.
    destruct (Hb (Z.of_nat i) ltac:(lia)) as (_ & Hc & _).
    pose proof (chunks_of_nonneg N C P HN HC HP (Z.of_nat i)) as Hn.
    unfold chunks_of in Hc, Hn. cbv zeta in Hc, Hn. lia.
  - apply Forall_lookup_2. intros i s Hi.
    assert (i < Z.to_nat P)%nat as Hlt.
    { apply lookup_lt_Some in Hi. unfold all_point_start in Hi.
      by rewrite length_point_starts,
           (length_all_process_chunks N C P HN HC HP) in Hi. }
    pose proof (all_point_start_lookup N C P HN HC HP (Z.of_nat i) ltac:(lia))
      as Hl.
    rewrite Zsum_take_all_process_chunks in Hl by lia.
    rewrite Nat2Z.id, Hi in Hl. injection Hl as ->.
    destruct (Hb (Z.of_nat i) ltac:(lia)) as (_ & _ & Hs & _).
    unfold start_of in Hs. cbv zeta in Hs. lia.
  - intros R HR. rewrite las2laz_range_closed by done. cbn [fst snd].
    destruct (Hb R HR) as (_ & Hc & Hs & He).
    destruct (R =? P - 1); lia.
Qed.

Lemma las2laz_partition_in_bounds_witness :
  (0 ≤ 7 ∧ 0 < 2 ∧ 0 < 5)
  ∧ Forall (λ s, 0 ≤ s ≤ 7) (all_point_start 7 2 5)
  ∧ (las2laz_range 7 2 5 4).2 ≤ 7.
Proof.
  split; [lia|].
  destruct (las2laz_partition_in_bounds 7 2 5) as (_ & Hs & Hr); [lia..|].
  split; [exact Hs|]. apply (Hr 4). lia.
Defined.

(** X2.  laz -> las, lines 852-856: for a non-negative point count and a
    positive peer count the ranges add up to [N] points, range 0 starts at
    point 0, the last range ends at [N], every range lies in [0, N] with
    [point_start <= point_end], and each range ends where the next one
    starts. *)
Theorem laz2las_ranges_tile (N P : Z) :
  0 ≤ N → 0 < P →
  let rg := laz2las_range N P in
  Zsum ((λ R, (rg R).2 - (rg R).1) <$> seqZ 0 P) = N
  ∧ (rg 0).1 = 0
  ∧ (rg (P - 1)).2 = N
  ∧ (∀ R, 0 ≤ R < P → 0 ≤ (rg R).1 ∧ (rg R).1 ≤ (rg R).2 ∧ (rg R).2 ≤ N)
  ∧ (∀ R, 0 ≤ R < P - 1 → (rg R).2 = (rg (R + 1)).1).
Proof.
  intros HN HP rg.
  pose proof (Z.mod_pos_bound N P HP) as Hm.
  pose proof (Z.div_mod N P ltac:(lia)) as Hdm.
  assert (0 ≤ N `div` P) as Hq by (apply Z.div_pos; lia).
  assert (Hrg : ∀ R, rg R = (R * (N `div` P),
                             R * (N `div` P) + N `div` P
                             + (if R =? P - 1 then N `mod` P else 0))).
  { intros R. unfold rg, laz2las_range. cbv zeta.
    rewrite Z.quot_div_nonneg, Z.rem_mod_nonneg by lia.
    destruct (R =? P - 1); f_equal; lia. }
  split; [|split; [|split; [|split]]].
  - set (g := λ R, R * (N `div` P) + (if R =? P then N `mod` P else 0)).
    assert (Hext : (λ R, (rg R).2 - (rg R).1) <$> seqZ 0 P
                   = (λ r, g (r + 1) - g r) <$> seqZ 0 P).
    { apply list_fmap_ext. intros i R Hi.
      apply lookup_seqZ in Hi as [-> Hi]. cbv beta.
      rewrite Hrg. cbn [fst snd]. unfold g. case_ltb; lia. }
    rewrite Hext. rewrite <-(Z2Nat.id P) at 1 by lia.
    rewrite Zsum_telescope. unfold g. rewrite Z2Nat.id by lia.
    rewrite Z.eqb_refl. destruct (Z.eqb_spec 0 P); lia.
  - by rewrite Hrg.
  - rewrite Hrg. cbn [fst snd]. rewrite Z.eqb_refl. lia.
  - intros R HR. rewrite Hrg. cbn [fst snd]. case_ltb; nia.
  - intros R HR. rewrite !Hrg. cbn [fst snd]. case_ltb; lia.
Qed.

Lemma laz2las_ranges_tile_witness :
  (0 ≤ 100 ∧ 0 < 3)
  ∧ Zsum ((λ R, (laz2las_range 100 3 R).2 - (laz2las_range 100 3 R).1)
            <$> seqZ 0 3) = 100
  ∧ (laz2las_range 100 3 1).2 = (laz2las_range 100 3 (1 + 1)).1.
Proof.
  split; [lia|].
  destruct (laz2las_ranges_tile 100 3) as (Hsum & _ & _ & _ & Hnext); [lia..|].
  split; [exact Hsum|]. apply Hnext. lia.
Defined.

End PartitionerExtras.

(** ** Further properties of the driver *)

Module DriverExtras.
Import Stream Writer Partitioner Driver File Cohort SerialReference Accounting.
Import Messaging.
Import PartitionerFacts DriverFacts AccountingFacts PassFacts PlacementFacts.
Import TableFacts CohortFacts SerialFacts.

Section facts.
Context `{Collaborators}.

Lemma encode_loop_trace_break (src : list point) (len : Z) (w : writer)
    (tr : list call) :
  p_count w < len → len - p_count w ≤ Z.of_nat (length src) →
  calls (encode_loop src len w tr)
  = tr ++ concat (replicate (Z.to_nat (len - p_count w)) [ReadPoint; WritePoint]).
Proof.
  revert w tr. induction src as [|p rest IH]; intros w tr Hlt Hlen.
  - simpl in Hlen. lia.
  - cbn [encode_loop]. rewrite p_count_write_point.
    replace (Z.to_nat (len - p_count w)) with (S (Z.to_nat (len - (p_count w + 1))))
      by lia.
    cbn [replicate concat].
    destruct (Z.eqb_spec (p_count w + 1) len) as [Heq|Hne].
    + rewrite Heq. replace (Z.to_nat (len - len)) with 0%nat by lia.
      cbn [calls replicate concat]. by rewrite app_nil_r.
    + rewrite IH.
      * rewrite p_count_write_point. by rewrite <-app_assoc.
      * rewrite p_count_write_point. lia.
      * rewrite p_count_write_point. cbn [length] in Hlen. lia.
Qed.

Lemma encode_loop_trace_no_break (src : list point) (len : Z) (w : writer)
    (tr : list call) :
  len ≤ p_count w ∨ p_count w + Z.of_nat (length src) < len →
  laswriter (encode_loop src len w tr) = feed src w
  ∧ ahead (encode_loop src len w tr) = []
  ∧ calls (encode_loop src len w tr)
    = tr ++ concat (replicate (length src) [ReadPoint; WritePoint]) ++ [ReadPoint].
Proof.
  revert w tr. induction src as [|p rest IH]; intros w tr Hc; [done|].
  cbn [encode_loop]. rewrite p_count_write_point.
  destruct (Z.eqb_spec (p_count w + 1) len) as [Heq|Hne].
  { cbn [length] in Hc. lia. }
  destruct (IH (write_point p w) (tr ++ [ReadPoint; WritePoint])) as (Hw & Ha & Ht).
  { rewrite p_count_write_point. cbn [length] in Hc. lia. }
  split; [exact Hw|]. split; [exact Ha|].
  rewrite Ht. cbn [length replicate concat]. by rewrite <-!app_assoc.
Qed.

Lemma filter_loop_calls (k : list call) :
  Forall loop_call k → List.filter collective k = [].
Proof.
  induction 1 as [|c k [->| ->] _ IH]; [done|by simpl..].
Qed.

Lemma sent_app (r : Z) (l k : list call) : sent r (l ++ k) = sent r l ++ sent r k.
Proof.
  induction l as [|c l IH]; [done|].
  destruct c; simpl; by rewrite IH.
Qed.

Lemma awaited_app (r : Z) (l k : list call) :
  awaited r (l ++ k) = awaited r l ++ awaited r k.
Proof.
  induction l as [|c l IH]; [done|].
  destruct c; simpl; by rewrite IH.
Qed.

Lemma sent_loop_calls (r : Z) (k : list call) : Forall loop_call k → sent r k = [].
Proof. induction 1 as [|c k [->| ->] _ IH]; [done|by simpl..]. Qed.

Lemma awaited_loop_calls (r : Z) (k : list call) :
  Forall loop_call k → awaited r k = [].
Proof. induction 1 as [|c k [->| ->] _ IH]; [done|by simpl..]. Qed.

Lemma sent_recvs (r : Z) (l : list nat) (t : Z) :
  sent r ((λ i, Recv (Z.of_nat i) t) <$> l) = [].
Proof. induction l as [|i l IH]; [done|]. by rewrite fmap_cons. Qed.

Lemma awaited_recvs (r : Z) (l : list nat) (t : Z) :
  awaited r ((λ i, Recv (Z.of_nat i) t) <$> l) = (λ i, (Z.of_nat i, r, t)) <$> l.
Proof.
  induction l as [|i l IH]; [done|]. rewrite !fmap_cons. simpl. by rewrite IH.
Qed.

Lemma filter_recvs (l : list nat) (t : Z) :
  List.filter collective ((λ i, Recv (Z.of_nat i) t) <$> l) = [].
Proof. induction l as [|i l IH]; [done|]. by rewrite fmap_cons. Qed.

(** The whole trace of a peer, in its parts. *)
Lemma peer_main_calls (j : job) (rank : Z) (all number_chunks junk : list Z)
    (messages : list (list Z)) (table_position : Z) :
  ∃ k1 k2,
    Forall loop_call k1 ∧ Forall loop_call k2
    ∧ calls (final_peer (peer_main j rank all number_chunks junk messages
                           table_position))
      = ([Open true; Tell; ReaderSeek (point_start (sizing_pass j rank))]
         ++ k1 ++ terminate_calls (las2laz j))
        ++ exchange_calls (las2laz j)
             (write_point_offset (tell (reopened j)) all rank)
             (point_start (sizing_pass j rank))
        ++ k2 ++ terminate_calls (las2laz j)
        ++ (if las2laz j then table_calls (process_count j) rank else []).
Proof.
  destruct (sizing_pass_calls j rank) as (k1 & HF1 & Hk1).
  destruct (final_pass_calls j rank (sizing_pass j rank) all) as (k2 & HF2 & Hk2).
  exists k1, k2. split; [done|]. split; [done|].
  unfold peer_main. cbn [final_peer].
  rewrite DriverClaims.table_pass_calls, Hk2, Hk1.
  by rewrite <-!app_assoc.
Qed.

End facts.

(** X3.  The encode loop of lines 865-872 and 918-925, started with a
    writer that has counted no point, on a range of [len >= 1] points of
    which the reader still has at least [len] ahead: exactly the first [len]
    points are written, the reader is left right behind them, and the loop
    makes [len] successful [read_point] calls, each followed by one
    [write_point], and no failing read. *)
Theorem encode_loop_stops_at_range_end `{Collaborators} (src : list point)
    (len : Z) (w : writer) (tr : list call) :
  p_count w = 0 → 1 ≤ len ≤ Z.of_nat (length src) →
  let pr := encode_loop src len w tr in
  laswriter pr = feed (take (Z.to_nat len) src) w
  ∧ p_count (laswriter pr) = len
  ∧ ahead pr = drop (Z.to_nat len) src
  ∧ calls pr = tr ++ concat (replicate (Z.to_nat len) [ReadPoint; WritePoint]).
Proof.
  intros Hc Hlen pr.
  destruct (encode_loop_writes_range src len w tr Hc Hlen) as (Hp & Hw & Ha).
  split; [exact Hw|]. split; [exact Hp|]. split; [exact Ha|].
  unfold pr. rewrite encode_loop_trace_break by lia.
  by rewrite Hc, Z.sub_0_r.
Qed.

Lemma encode_loop_stops_at_range_end_witness :
  let w := open (H := Toy.toy) true true Toy.toy_enc 2 in
  (p_count w = 0 ∧ 1 ≤ 2 ≤ Z.of_nat (length [7; 8; 9]))
  ∧ ahead (encode_loop (H := Toy.toy) [7; 8; 9] 2 w []) = [9]
  ∧ calls (encode_loop (H := Toy.toy) [7; 8; 9] 2 w [])
    = [ReadPoint; WritePoint; ReadPoint; WritePoint].
Proof.
  intros w. split; [by vm_compute|].
  destruct (encode_loop_stops_at_range_end (H := Toy.toy) [7; 8; 9] 2 w [])
    as (_ & _ & Ha & Ht); [done|by vm_compute|].
  split; [exact Ha | exact Ht].
Defined.

(** X4.  The same loop on a range that is empty ([len <= 0]) or longer than
    what the reader has ahead: the test [p_count == point_end - point_start],
    made only after a write, never succeeds, so the loop writes every point
    the reader still has and ends on the failing [read_point]. *)
Theorem encode_loop_runs_to_end_of_input `{Collaborators} (src : list point)
    (len : Z) (w : writer) (tr : list call) :
  p_count w = 0 → len ≤ 0 ∨ Z.of_nat (length src) < len →
  let pr := encode_loop src len w tr in
  laswriter pr = feed src w
  ∧ p_count (laswriter pr) = Z.of_nat (length src)
  ∧ ahead pr = []
  ∧ calls pr
    = tr ++ concat (replicate (length src) [ReadPoint; WritePoint]) ++ [ReadPoint].
Proof.
  intros Hc Hlen pr.
  destruct (encode_loop_trace_no_break src len w tr) as (Hw & Ha & Ht); [lia|].
  split; [exact Hw|]. split; [|by split].
  unfold pr. rewrite Hw, p_count_feed. lia.
Qed.

Lemma encode_loop_runs_to_end_of_input_witness :
  let w := open (H := Toy.toy) true true Toy.toy_enc 2 in
  (p_count w = 0 ∧ (0 ≤ 0 ∨ Z.of_nat (length [7; 8]) < 0))
  ∧ p_count (laswriter (encode_loop (H := Toy.toy) [7; 8] 0 w [])) = 2
  ∧ ahead (encode_loop (H := Toy.toy) [7; 8] 0 w []) = [].
Proof.
  intros w. split; [split; [done|left; lia]|].
  destruct (encode_loop_runs_to_end_of_input (H := Toy.toy) [7; 8] 0 w [])
    as (_ & Hp & Ha & _); [done|left; lia|].
  split; [exact Hp | exact Ha].
Defined.

(** X6.  For a positive chunk size and at least one peer, every rank makes
    the same collective calls in the same order, whatever its range and
    whatever the collectives and receives deliver to it: the two barriers of
    lines 873 and 879, the two of lines 886 and 888, the all-gather of line
    890, the two barriers of lines 899 and 902, the two of lines 926 and 932
    (eight barriers in all) and, las -> laz only, the gather of line 940 and
    the barriers of lines 973 and 982.  No rank waits in a collective that
    another rank skips. *)
Theorem collectives_same_on_every_rank `{Collaborators} (j : job) (rank : Z)
    (all number_chunks junk : list Z) (messages : list (list Z))
    (table_position : Z) :
  0 < get_chunk_size j → 0 < process_count j →
  List.filter collective
    (calls (final_peer (peer_main j rank all number_chunks junk messages
                          table_position)))
  = [Barrier; Barrier; Barrier; Barrier; Allgather; Barrier; Barrier;
     Barrier; Barrier]
    ++ (if las2laz j then [Gather; Barrier; Barrier] else []).
Proof.
  intros HC HP.
  destruct (peer_main_calls j rank all number_chunks junk messages table_position)
    as (k1 & k2 & HF1 & HF2 & ->).
  rewrite !List.filter_app, (filter_loop_calls k1 HF1), (filter_loop_calls k2 HF2).
  unfold terminate_calls, exchange_calls, table_calls.
  destruct (las2laz j); [|done].
  rewrite !List.filter_app.
  destruct (rank =? process_count j - 1), (rank =? 0);
    rewrite ?filter_recvs; done.
Qed.

Lemma collectives_same_on_every_rank_witness :
  let j := Toy.toy_job true [1; 2; 3; 4; 5] 2 3 in
  (0 < get_chunk_size j ∧ 0 < process_count j)
  ∧ List.filter collective
      (calls (final_peer (peer_main j 1 (all_point_bytes_written j) [] [] [] 0)))
    = [Barrier; Barrier; Barrier; Barrier; Allgather; Barrier; Barrier;
       Barrier; Barrier; Gather; Barrier; Barrier].
Proof.
  intros j. split; [done|].
  apply (collectives_same_on_every_rank (H := Toy.toy) j 1); done.
Defined.

(** X7.  For a positive chunk size and at least one peer: las -> laz, each
    rank sends one message with tag 2 (its [chunk_bytes]) to the last rank,
    rank 0 then sends one with tag 3 (its [chunk_table_start_position]) to the
    last rank, and these are all the sends; the last rank waits for the tag 2
    message of every rank in rank order and then for the tag 3 message of
    rank 0, and no other rank waits for any; laz -> las, nothing is sent or
    waited for.  Hence over all ranks of a run the (source, destination, tag)
    triples sent are, up to order, those waited for. *)
Theorem every_send_is_received `{Collaborators} (j : job)
    (all number_chunks junk : Z → list Z) (messages : Z → list (list Z))
    (table_position : Z → Z) :
  0 < get_chunk_size j → 0 < process_count j →
  let P := process_count j in
  let tr r := calls (final_peer (peer_main j r (all r) (number_chunks r) (junk r)
                                   (messages r) (table_position r))) in
  (∀ r, sent r (tr r)
        = if las2laz j
          then (r, P - 1, 2) :: (if r =? 0 then [(0, P - 1, 3)] else [])
          else [])
  ∧ (∀ r, awaited r (tr r)
          = if las2laz j && (r =? P - 1)
            then ((λ i, (Z.of_nat i, r, 2)) <$> seq 0 (Z.to_nat P))
                 ++ [(0, r, 3)]
            else [])
  ∧ concat ((λ r, sent r (tr r)) <$> ranks j)
    ≡ₚ concat ((λ r, awaited r (tr r)) <$> ranks j).
Proof.
  intros HC HP P tr.
  assert (Hs : ∀ r, sent r (tr r)
                    = if las2laz j
                      then (r, P - 1, 2) :: (if r =? 0 then [(0, P - 1, 3)] else [])
                      else []).
  { intros r. unfold tr.
    destruct (peer_main_calls j r (all r) (number_chunks r) (junk r) (messages r)
                (table_position r)) as (k1 & k2 & HF1 & HF2 & ->).
    rewrite !sent_app, (sent_loop_calls r k1 HF1), (sent_loop_calls r k2 HF2).
    unfold terminate_calls, exchange_calls, table_calls. fold P.
    destruct (las2laz j); [|done].
    rewrite !sent_app.
    destruct (r =? P - 1), (Z.eqb_spec r 0) as [->|];
      rewrite ?sent_recvs; done. }
  assert (Ha : ∀ r, awaited r (tr r)
                    = if las2laz j && (r =? P - 1)
                      then ((λ i, (Z.of_nat i, r, 2)) <$> seq 0 (Z.to_nat P))
                           ++ [(0, r, 3)]
                      else []).
  { intros r. unfold tr.
    destruct (peer_main_calls j r (all r) (number_chunks r) (junk r) (messages r)
                (table_position r)) as (k1 & k2 & HF1 & HF2 & ->).
    rewrite !awaited_app, (awaited_loop_calls r k1 HF1), (awaited_loop_calls r k2 HF2).
    unfold terminate_calls, exchange_calls, table_calls. fold P.
    destruct (las2laz j); [|done].
    rewrite !awaited_app.
    destruct (r =? P - 1), (r =? 0); rewrite ?awaited_recvs; done. }
  split; [exact Hs|]. split; [exact Ha|].
  rewrite (list_fmap_ext (λ r, sent r (tr r)) _ (ranks j) (λ _ r _, Hs r)).
  rewrite (list_fmap_ext (λ r, awaited r (tr r)) _ (ranks j) (λ _ r _, Ha r)).
  clear Hs Ha. unfold ranks. fold P.
  destruct (las2laz j); cbn [andb].
  2:{ induction (seqZ 0 P) as [|r l IH]; [done|]. by rewrite !fmap_cons. }
  assert (Hlast : ∀ n : nat, Z.of_nat n ≤ P - 1 →
            concat ((λ r, if r =? P - 1
                          then ((λ i, (Z.of_nat i, r, 2)) <$> seq 0 (Z.to_nat P))
                               ++ [(0, r, 3)]
                          else []) <$> seqZ 0 (Z.of_nat n)) = []).
  { induction n as [|n IH]; intros Hn; [done|].
    rewrite ranks_S, fmap_app, concat_app, IH by lia.
    cbn [fmap list_fmap concat]. destruct (Z.eqb_spec (Z.of_nat n) (P - 1)); [lia|].
    done. }
  assert (Hfirst : ∀ (m : Z) (n : nat), 0 < m →
            concat ((λ r, (r, P - 1, 2) :: (if r =? 0 then [(0, P - 1, 3)] else []))
                      <$> seqZ m (Z.of_nat n))
            = (λ r, (r, P - 1, 2)) <$> seqZ m (Z.of_nat n)).
  { intros m n Hm. induction n as [|n IH]; [done|].
    rewrite seqZ_S, !fmap_app, concat_app, IH.
    cbn [fmap list_fmap concat].
    destruct (Z.eqb_spec (m + Z.of_nat n) 0); [lia|]. by rewrite app_nil_r. }
  replace P with (Z.of_nat (S (Z.to_nat (P - 1)))) at 2 by lia.
  rewrite ranks_S, fmap_app, concat_app, Hlast by lia.
  cbn [fmap list_fmap concat]. rewrite Z2Nat.id by lia.
  rewrite Z.eqb_refl, app_nil_r. cbn [app].
  rewrite (seqZ_cons 0 P) by lia. rewrite fmap_cons. cbn [concat].
  rewrite Z.eqb_refl.
  replace (Z.pred P) with (Z.of_nat (Z.to_nat (P - 1))) by lia.
  rewrite Hfirst by lia.
  replace (Z.to_nat P) with (S (Z.to_nat (P - 1))) by lia.
  rewrite <-cons_seq, fmap_cons. change (Z.of_nat 0) with 0.
  cbn [app]. constructor.
  assert ((λ i, (Z.of_nat i, P - 1, 2)) <$> seq 1 (Z.to_nat (P - 1))
          = (λ r, (r, P - 1, 2)) <$> seqZ (Z.succ 0) (Z.of_nat (Z.to_nat (P - 1))))
    as ->.
  { unfold seqZ. rewrite Nat2Z.id, <-list_fmap_compose, <-(fmap_add_seq 1 0).
    rewrite <-list_fmap_compose. apply list_fmap_ext. intros i x _. cbn.
    f_equal. f_equal. lia. }
  apply Permutation_cons_append.
Qed.

Lemma every_send_is_received_witness :
  let j := Toy.toy_job true [1; 2; 3; 4; 5] 2 3 in
  let tr r := calls (final_peer (peer_main j r [] [] [] [] 0)) in
  (0 < get_chunk_size j ∧ 0 < process_count j)
  ∧ sent 0 (tr 0) = [(0, 2, 2); (0, 2, 3)]
  ∧ sent 1 (tr 1) = [(1, 2, 2)]
  ∧ awaited 2 (tr 2) = [(0, 2, 2); (1, 2, 2); (2, 2, 2); (0, 2, 3)].
Proof.
  intros j tr. split; [done|].
  destruct (every_send_is_received (H := Toy.toy) j (λ _, []) (λ _, []) (λ _, [])
              (λ _, []) (λ _, 0)) as (Hs & Ha & _); [done..|].
  split; [exact (Hs 0)|]. split; [exact (Hs 1)|]. exact (Ha 2).
Defined.

End DriverExtras.

(** ** Further properties of the cohort's output *)

Module CohortExtras.
Import Stream Writer Partitioner Driver File Cohort SerialReference Accounting.
Import PartitionerFacts DriverFacts AccountingFacts PassFacts PlacementFacts.
Import TableFacts CohortFacts SerialFacts.

Section facts.
Context `{Collaborators}.

Lemma fmap_const_seqZ {A} (x : A) (n : nat) :
  (λ _ : Z, x) <$> seqZ 0 (Z.of_nat n) = replicate n x.
Proof.
  induction n as [|n IH]; [done|].
  rewrite ranks_S, fmap_app, IH. cbn [fmap list_fmap].
  by rewrite replicate_S_end.
Qed.

Lemma concat_concat_replicate {A} (n : nat) (ss : list (list A)) :
  concat (concat (replicate n ss)) = concat (replicate n (concat ss)).
Proof.
  induction n as [|n IH]; [done|].
  cbn [replicate concat]. by rewrite concat_app, IH.
Qed.

Lemma layout_lookup (off : Z) (ss : list (list byte)) (k : nat) (e : extent) :
  layout off ss !! k = Some e →
  e.1 = off + Zsum (take k (lengths ss)) ∧ ss !! k = Some e.2.
Proof.
  revert off k. induction ss as [|s ss IH]; intros off k Hk; [done|].
  destruct k as [|k].
  - injection Hk as <-. simpl. split; [lia|done].
  - cbn [layout lookup list_lookup] in Hk. destruct (IH _ _ Hk) as [Ho Hs].
    split; [|exact Hs]. rewrite Ho.
    change (lengths (s :: ss)) with (Z.of_nat (length s) :: lengths ss).
    cbn [take].
    change (Zsum (Z.of_nat (length s) :: take k (lengths ss)))
      with (Z.of_nat (length s) + Zsum (take k (lengths ss))).
    lia.
Qed.

Lemma length_layout (off : Z) (ss : list (list byte)) :
  length (layout off ss) = length ss.
Proof.
  revert off. induction ss as [|s ss IH]; intros off; simpl; [done|].
  by rewrite IH.
Qed.

(** laz -> las with fewer points than peers: every range but the last is
    [0, 0), the last is [0, N), and every peer writes all the points. *)
Lemma peer_points_las_all (j : job) (r : Z) :
  las2laz j = false → 0 < process_count j → npoints j < process_count j →
  0 ≤ r < process_count j → peer_points j r = points j.
Proof.
  intros Hd HP HN Hr. unfold peer_points, sizing_pass.
  cbn [point_start point_end]. unfold point_range. rewrite Hd.
  unfold laz2las_range. cbv zeta. cbn [fst snd].
  assert (0 ≤ npoints j) as H0 by (unfold npoints; lia).
  rewrite Z.quot_small, Z.rem_small by lia.
  rewrite Z.mul_0_r. unfold reader_seek. change (Z.to_nat 0) with 0%nat.
  rewrite drop_0. unfold loop_points.
  destruct (r =? process_count j - 1).
  - destruct (Z.ltb_spec 0 (0 + 0 + npoints j - 0)); [|done].
    apply take_ge. unfold npoints. lia.
  - by destruct (Z.ltb_spec 0 (0 + 0 - 0)); [lia|].
Qed.

(** las -> laz with fewer whole chunks than peers: the points each peer
    writes. *)
Lemma peer_points_laz_few (j : job) (R : Z) :
  las2laz j = true →
  let N := npoints j in
  let C := get_chunk_size j in
  let P := process_count j in
  let K := N `div` C in
  0 < C → 0 < P → K < P → 0 ≤ R < P →
  peer_points j R
  = if R <? K then take (Z.to_nat C) (drop (Z.to_nat (R * C)) (points j))
    else drop (Z.to_nat (K * C)) (points j).
Proof.
  intros Hd N C P K HC HP HK HR.
  assert (HN : 0 ≤ N) by (unfold N, npoints; lia).
  pose proof (K_nonneg N C P HN HC HP) as HK0. fold K in HK0.
  pose proof (L_bounds N C P HN HC HP) as HL.
  pose proof (N_split N C P HN HC HP) as HNs. fold K in HNs.
  assert (K `div` P = 0) as Hq by (apply Z.div_small; lia).
  assert (K `mod` P = K) as Hm by (apply Z.mod_small; lia).
  unfold peer_points, sizing_pass. cbn [point_start point_end].
  unfold point_range. rewrite Hd. fold N C P.
  rewrite (las2laz_range_closed N C P HN HC HP R HR). cbn [fst snd].
  unfold start_of, chunks_of. fold K. cbv zeta. rewrite Hq, Hm.
  unfold reader_seek, loop_points.
  destruct (Z.ltb_spec R K) as [Hlt|Hge].
  - destruct (Z.eqb_spec R (P - 1)); [lia|].
    replace (R * 0 + R `min` K) with R by lia.
    destruct (Z.ltb_spec 0 (R * C + (0 + 1) * C + 0 - R * C)); [|lia].
    f_equal. lia.
  - replace (R * 0 + R `min` K) with K by lia.
    destruct (Z.ltb_spec 0 (K * C + 0 * C + (if R =? P - 1 then N `mod` C else 0)
                            - K * C)) as [Hpos|]; [|done].
    apply take_ge. rewrite length_drop. unfold N, npoints in *.
    destruct (R =? P - 1); lia.
Qed.

End facts.

(** X8.  laz -> las with at least as many points as peers: the peers'
    writes, in whatever order they reach the file, leave the header followed
    by the record of every point of the input, each once and in input order,
    and the points the peers write are, rank after rank, the input. *)
Theorem laz2las_output_is_serial `{Collaborators} (j : job) (junk : list Z)
    (es : list extent) :
  las2laz j = false → 0 < process_count j → process_count j ≤ npoints j →
  es ≡ₚ concat ((λ pr, extents (stream_ (laswriter pr))) <$> finals j) →
  concat (peer_points j <$> ranks j) = points j
  ∧ output_file j junk = header_image ++ concat (raw_point <$> points j)
  ∧ pwrites es (header_phase j) = header_image ++ concat (raw_point <$> points j).
Proof.
  intros Hd HP HN Hes.
  split; [by apply cohort_points_las|].
  apply (parallel_las_is_serial_las j junk es); done.
Qed.

Lemma laz2las_output_is_serial_witness :
  let j := Toy.toy_job false [1; 2; 3; 4; 5] 2 3 in
  (las2laz j = false ∧ 0 < process_count j ∧ process_count j ≤ npoints j)
  ∧ output_file j []
    = header_image (Collaborators := Toy.toy)
      ++ concat (raw_point (Collaborators := Toy.toy) <$> [1; 2; 3; 4; 5]).
Proof.
  intros j. split; [by vm_compute|].
  destruct (laz2las_output_is_serial (H := Toy.toy) j []
              (concat ((λ pr, extents (stream_ (laswriter pr))) <$> finals j)))
    as (_ & Ho & _); [done|done|by vm_compute|done|].
  exact Ho.
Defined.

(** X9.  laz -> las with fewer points than peers (lines 852-872): every
    range but the last is empty, the encode loop of a peer with an empty
    range runs to the end of the input, and so every one of the [P] peers
    writes all [N] points; the output is the header followed by [P] copies of
    the whole sequence of point records. *)
Theorem laz2las_fewer_points_than_peers `{Collaborators} (j : job)
    (junk : list Z) :
  las2laz j = false → 0 < process_count j → npoints j < process_count j →
  (∀ r, 0 ≤ r < process_count j → peer_points j r = points j)
  ∧ output_file j junk
    = header_image
      ++ concat (replicate (Z.to_nat (process_count j))
                   (concat (raw_point <$> points j))).
Proof.
  intros Hd HP HN.
  split; [intros r Hr; by apply peer_points_las_all|].
  unfold output_file. rewrite Hd.
  destruct (points_phase_layout j (λ _, raw_point <$> points j) HP) as [Hpp _].
  - intros r Hr. rewrite sizing_bytes_las by done.
    by rewrite peer_points_las_all.
  - intros r Hr.
    destruct (final_raw_las j r (all_point_bytes_written j) Hd) as (_ & He & _).
    rewrite He. by rewrite peer_points_las_all.
  - rewrite Hpp. f_equal. unfold ranks.
    rewrite <-(Z2Nat.id (process_count j)) at 1 by lia.
    by rewrite fmap_const_seqZ, concat_concat_replicate.
Qed.

Lemma laz2las_fewer_points_than_peers_witness :
  let j := Toy.toy_job false [1; 2] 2 3 in
  (las2laz j = false ∧ 0 < process_count j ∧ npoints j < process_count j)
  ∧ output_file j []
    = header_image (Collaborators := Toy.toy)
      ++ concat (replicate 3 (concat (raw_point (Collaborators := Toy.toy)
                                        <$> [1; 2]))).
Proof.
  intros j. split; [by vm_compute|].
  destruct (laz2las_fewer_points_than_peers (H := Toy.toy) j [])
    as (_ & Ho); [done|done|by vm_compute|].
  exact Ho.
Defined.

(** X10.  las -> laz with fewer whole chunks than peers ([K = N / C < P],
    the case the README lists as a known bug): rank [R < K] writes the [C]
    points of chunk [R]; every rank from [K] on, whose range is empty or holds
    the [L = N mod C] trailing points, writes all the points from [K * C] to
    the end of the input.  With one deterministic coder behind both passes
    the file is the header, one coder stream per peer in rank order, and a
    chunk table of exactly [P] entries: the trailing points are encoded
    [P - K] times. *)
Theorem las2laz_fewer_chunks_than_peers `{Collaborators} (j : job)
    (junk : list Z) (e : encoder) :
  las2laz j = true → sizing_enc j = e → final_enc j = e →
  let N := npoints j in
  let C := get_chunk_size j in
  let P := process_count j in
  let K := N `div` C in
  0 < C → 0 < P → K < P → P < 2 ^ 32 →
  let run R := if R <? K then take (Z.to_nat C) (drop (Z.to_nat (R * C)) (points j))
               else drop (Z.to_nat (K * C)) (points j) in
  let streams := (λ R, e (run R)) <$> ranks j in
  let body := header_image ++ concat streams in
  (∀ R, 0 ≤ R < P → peer_points j R = run R)
  ∧ output_file j junk
    = pwrites (chunk_table_image (Z.of_nat (length body)) table_pointer P
                 (lengths streams)) body.
Proof.
  intros Hd Hs Hf N C P K HC HP HK HP32 run streams body.
  assert (HN : 0 ≤ N) by (unfold N, npoints; lia).
  pose proof (K_nonneg N C P HN HC HP) as HK0. fold K in HK0.
  pose proof (L_bounds N C P HN HC HP) as HL.
  pose proof (N_split N C P HN HC HP) as HNs. fold K in HNs.
  assert (Hpts : ∀ R, 0 ≤ R < P → peer_points j R = run R).
  { intros R HR. by apply peer_points_laz_few. }
  split; [exact Hpts|].
  assert (Hss : cohort_streams j e = streams).
  { unfold cohort_streams, streams.
    rewrite (fmap_ranks_ext (peer_streams j e) (λ R, [e (run R)])).
    - induction (ranks j) as [|r l IH]; [done|].
      rewrite !fmap_cons. cbn [concat app]. by rewrite IH.
    - intros R HR. unfold peer_streams. rewrite Hpts by done. fold C.
      rewrite coder_runs_short; [done|lia|].
      unfold run. destruct (Z.ltb_spec R K).
      + rewrite length_take. lia.
      + rewrite length_drop. unfold N, npoints in *. lia. }
  destruct (output_file_laz j junk e Hd Hs Hf ltac:(fold C; lia) HP) as [_ Ho].
  { rewrite Hss. unfold streams. rewrite length_fmap, length_ranks. fold P. lia. }
  rewrite Ho, Hss. unfold streams at 2.
  rewrite length_fmap, length_ranks. fold P. rewrite Z2Nat.id by lia. done.
Qed.

Lemma las2laz_fewer_chunks_than_peers_witness :
  let j := Toy.toy_job true [1; 2; 3] 2 3 in
  (las2laz j = true ∧ sizing_enc j = Toy.toy_enc ∧ final_enc j = Toy.toy_enc
   ∧ 0 < 2 ∧ 0 < 3 ∧ 3 `div` 2 < 3 ∧ 3 < 2 ^ 32)
  ∧ peer_points j <$> [0; 1; 2] = [[1; 2]; [3]; [3]].
Proof.
  intros j. split; [by vm_compute|].
  destruct (las2laz_fewer_chunks_than_peers (H := Toy.toy) j [] Toy.toy_enc)
    as (Hp & _); [done..|].
  cbn [fmap list_fmap]. rewrite (Hp 0), (Hp 1), (Hp 2) by done. reflexivity.
Defined.

(** X11.  The receive loop of lines 955-972 stays inside the buffer of line
    950: when the gathered counts are non-negative and their sum fits in a
    [U32], the row of every rank starts at a non-negative offset, the sum of
    the counts of the ranks before it, and ends at or before
    [number_chunks_total], the size the buffer was allocated with. *)
Theorem recv_rows_inside_buffer (counts : list Z) (P : Z) (i : nat) :
  length counts = Z.to_nat P → Forall (λ c, 0 ≤ c) counts →
  Zsum counts < 2 ^ 32 → (i < Z.to_nat P)%nat →
  ∃ off c,
    number_chunks_offsets counts P !! i = Some off
    ∧ counts !! i = Some c
    ∧ off = Zsum (take i counts)
    ∧ 0 ≤ off
    ∧ off + c ≤ number_chunks_total counts P
    ∧ number_chunks_total counts P = Zsum counts.
Proof.
  intros Hlen Hpos Hsum Hi.
  destruct (lookup_lt_is_Some_2 counts i ltac:(lia)) as [c Hc].
  assert (0 ≤ Zsum (take i counts)) as H0.
  { apply Zsum_nonneg. by apply Forall_take. }
  assert (Zsum (take (S i) counts) = Zsum (take i counts) + c) as HS.
  { rewrite (take_S_r _ _ _ Hc), Zsum_app. simpl. lia. }
  pose proof (Zsum_take_le counts (S i) (length counts) Hpos ltac:(lia)) as Hle.
  rewrite (take_ge counts (length counts)) in Hle by lia.
  assert (0 ≤ c) as Hc0.
  { by apply (proj1 (Forall_lookup _ counts) Hpos i c). }
  exists (Zsum (take i counts)), c.
  rewrite number_chunks_offsets_lookup, number_chunks_total_sum by lia.
  rewrite <-Hlen, (take_ge counts (length counts)) by lia.
  rewrite !u32_small by lia.
  repeat split; try done; lia.
Qed.

Lemma recv_rows_inside_buffer_witness :
  (length [2; 0; 3] = Z.to_nat 3 ∧ Forall (λ c, 0 ≤ c) [2; 0; 3]
   ∧ Zsum [2; 0; 3] < 2 ^ 32 ∧ (2 < Z.to_nat 3)%nat)
  ∧ ∃ off c, number_chunks_offsets [2; 0; 3] 3 !! 2%nat = Some off
             ∧ [2; 0; 3] !! 2%nat = Some c
             ∧ off + c ≤ number_chunks_total [2; 0; 3] 3.
Proof.
  assert (Forall (λ c, 0 ≤ c) [2; 0; 3]) as Hpos.
  { repeat (apply Forall_cons_2; [lia|]). apply Forall_nil_2. }
  split.
  { split; [done|]. split; [exact Hpos|]. split; [by vm_compute|]. vm_compute; lia. }
  destruct (recv_rows_inside_buffer [2; 0; 3] 3 2)
    as (off & c & Ho & Hc & _ & _ & Hle & _);
    [done | exact Hpos | by vm_compute | vm_compute; lia |].
  by exists off, c.
Defined.

(** X12.  las -> laz with one deterministic coder behind both passes: the
    assembled chunk table locates every chunk.  Taking the peers' final-pass
    writes in rank order and the peers' [chunk_bytes] rows in rank order,
    there are as many writes as table entries, the [k]-th write starts at the
    end of the header plus the sum of the first [k] entries, and the [k]-th
    entry is the number of bytes of the [k]-th write. *)
Theorem chunk_table_locates_chunks `{Collaborators} (j : job) :
  las2laz j = true → sizing_enc j = final_enc j → 1 ≤ get_chunk_size j →
  0 < process_count j →
  let table := concat (chunk_bytes_messages j) in
  let written := concat ((λ pr, extents (stream_ (laswriter pr))) <$> finals j) in
  length written = length table
  ∧ ∀ (k : nat) (e : extent), written !! k = Some e →
      e.1 = Z.of_nat (length header_image) + Zsum (take k table)
      ∧ table !! k = Some (Z.of_nat (length e.2)).
Proof.
  intros Hd Henc HC HP table written.
  destruct (laz_peer_streams j (final_enc j) Hd Henc eq_refl HC) as [Hsz Hex].
  pose proof (cohort_extents_layout j (peer_streams j (final_enc j)) HP Hsz Hex)
    as Hw.
  destruct (chunk_bytes_messages_laz j Hd HC) as (Hm & _).
  assert (Ht : table = lengths (concat (peer_streams j (final_enc j) <$> ranks j))).
  { unfold table. rewrite Hm. apply concat_lengths_fmap. }
  unfold written. rewrite Hw, Ht. split.
  - by rewrite length_layout, length_lengths.
  - intros k e Hk. destruct (layout_lookup _ _ _ _ Hk) as [Ho Hs].
    split; [exact Ho|]. unfold lengths at 1. by rewrite list_lookup_fmap, Hs.
Qed.

Lemma chunk_table_locates_chunks_witness :
  let j := Toy.toy_job true [1; 2; 3; 4; 5] 2 3 in
  (las2laz j = true ∧ sizing_enc j = final_enc j ∧ 1 ≤ get_chunk_size j
   ∧ 0 < process_count j)
  ∧ length (concat ((λ pr, extents (stream_ (laswriter pr))) <$> finals j))
    = length (concat (chunk_bytes_messages j)).
Proof.
  intros j. split; [by vm_compute|].
  destruct (chunk_table_locates_chunks (H := Toy.toy) j) as (Hl & _);
    [done..|].
  exact Hl.
Defined.

End CohortExtras.

(** ** Properties of the waveform loop *)

Module WaveformExtras.
Import stdpp.gmap Sorted.
Import Driver Waveform.
Local Open Scope Z_scope.

Section facts.
Context {attributes waveforms : Type}.
Variable copy_waveform : waveforms → wpoint attributes → waveforms * wpoint attributes.

Local Abbreviation wpoint := (wpoint attributes).
Local Abbreviation state := (state attributes waveforms).
Local Abbreviation loop := (waveform_loop attributes waveforms copy_waveform).
Local Abbreviation redirect := (redirect attributes waveforms copy_waveform).
Local Abbreviation store := (store attributes waveforms copy_waveform).
Local Abbreviation write := (write attributes waveforms).
Local Abbreviation reference := (reference attributes waveforms).
Local Abbreviation warn_gap := (warn_gap attributes waveforms).

Lemma warn_gap_fields (with_map : bool) (p : wpoint) (s : state) :
  let s' := warn_gap with_map p s in
  last_offset _ _ s' = last_offset _ _ s
  ∧ new_offset _ _ s' = new_offset _ _ s
  ∧ new_size _ _ s' = new_size _ _ s
  ∧ offset_size_map _ _ s' = offset_size_map _ _ s
  ∧ wave_files _ _ s' = wave_files _ _ s
  ∧ p_count _ _ s' = p_count _ _ s
  ∧ written _ _ s' = written _ _ s
  ∧ copied _ _ s' = copied _ _ s
  ∧ lasindex _ _ s' = lasindex _ _ s.
Proof. unfold Waveform.warn_gap. by destruct (_ && _). Qed.

(** What one attached point does to the state, without the map. *)
Lemma redirect_without_map (p : wpoint) (s : state) :
  match redirect false p s with
  | None => getOffset p < last_offset _ _ s
  | Some r =>
      last_offset _ _ s ≤ getOffset p
      ∧ last_offset _ _ r.1 = getOffset p
      ∧ getOffset r.2 = new_offset _ _ r.1
      ∧ getSize r.2 = new_size _ _ r.1
      ∧ p_count _ _ r.1 = p_count _ _ s
      ∧ written _ _ r.1 = written _ _ s
      ∧ lasindex _ _ r.1 = lasindex _ _ s
      ∧ (if getOffset p =? last_offset _ _ s
         then new_offset _ _ r.1 = new_offset _ _ s
              ∧ new_size _ _ r.1 = new_size _ _ s
              ∧ copied _ _ r.1 = copied _ _ s
         else copied _ _ r.1 = copied _ _ s ++ [(p, r.2)])
  end.
Proof.
  unfold Waveform.redirect. cbn [last_offset reference Waveform.reference].
  destruct (Z.eqb_spec (getOffset p) (last_offset _ _ s)) as [Heq|Hne].
  - cbn. rewrite Heq. repeat split; lia.
  - destruct (Z.ltb_spec (last_offset _ _ s) (getOffset p)) as [Hlt|Hge]; [|cbn; lia].
    destruct (warn_gap_fields false p (reference s))
      as (_ & _ & _ & _ & _ & Hp & Hw & Hc & Hi).
    unfold Waveform.store. cbn [fst snd last_offset new_offset new_size p_count
                                  written copied lasindex].
    rewrite Hp, Hw, Hc, Hi. cbn. repeat split; lia.
Qed.

Lemma write_fields (lax : bool) (p : wpoint) (s : state) :
  last_offset _ _ (write lax p s) = last_offset _ _ s
  ∧ new_offset _ _ (write lax p s) = new_offset _ _ s
  ∧ new_size _ _ (write lax p s) = new_size _ _ s
  ∧ offset_size_map _ _ (write lax p s) = offset_size_map _ _ s
  ∧ copied _ _ (write lax p s) = copied _ _ s
  ∧ written _ _ (write lax p s) = written _ _ s ++ [p]
  ∧ p_count _ _ (write lax p s) = p_count _ _ s + 1
  ∧ lasindex _ _ (write lax p s)
    = lasindex _ _ s ++ (if lax then [(p, u32 (p_count _ _ s + 1))] else []).
Proof. unfold Waveform.write. destruct lax; by rewrite ?app_nil_r. Qed.

(** Without the map the loop gets through exactly when the offsets of the
    attached points never step down, starting from [last_offset]. *)
Lemma loop_without_map_sorted (lax : bool) (src : list wpoint) (s : state) :
  (∃ s', loop false lax src s = Completed s')
  ↔ Sorted Z.le (last_offset _ _ s :: attached_offsets src).
Proof.
  revert s. induction src as [|p rest IH]; intros s.
  - split; [intros _; by repeat constructor | by eexists].
  - cbn [waveform_loop Waveform.waveform_loop]. unfold attached_offsets in *.
    cbn [List.filter]. destruct (Z.eqb_spec (getIndex p) 0) as [H0|H0]; cbn [negb].
    + rewrite IH. by destruct (write_fields lax p s) as (-> & _).
    + pose proof (redirect_without_map p s) as Hr.
      destruct (redirect false p s) as [r|].
      * destruct Hr as (Hle & Hlast & _).
        rewrite IH. destruct (write_fields lax r.2 r.1) as (-> & _).
        rewrite Hlast, fmap_cons. split.
        -- intros HS. constructor; [done|]. by constructor.
        -- intros HS. by apply Sorted_inv in HS as [HS _].
      * split; [by intros [s' Hs']|].
        rewrite fmap_cons. intros HS. apply Sorted_inv in HS as [_ Hhd].
        apply HdRel_inv in Hhd. lia.
Qed.

(** With the map the loop never reaches [byebye(true)]. *)
Lemma redirect_with_map (p : wpoint) (s : state) : is_Some (redirect true p s).
Proof.
  unfold Waveform.redirect.
  destruct (_ =? _); [done|]. destruct (_ <? _); [done|].
  by destruct (_ !! _).
Qed.

Lemma stored_at_mono (s s' : state) (o no nz : Z) :
  (∀ pp, pp ∈ copied _ _ s → pp ∈ copied _ _ s') →
  stored_at s o no nz → stored_at s' o no nz.
Proof. intros Hsub (pp & Hin & ?). exists pp. split; [by apply Hsub|done]. Qed.

Lemma std_map_insert_lookup (k k' : Z) (v e : Z * Z) (m : my_offset_size_map) :
  std_map_insert k v m !! k' = Some e → m !! k' = Some e ∨ (k' = k ∧ e = v).
Proof.
  unfold std_map_insert. destruct (m !! k) eqn:Hk; [by left|].
  destruct (decide (k' = k)) as [->|Hne].
  - rewrite lookup_insert_eq. intros [= <-]. by right.
  - rewrite lookup_insert_ne by done. by left.
Qed.

Lemma store_sound (with_map : bool) (p : wpoint) (s : state) :
  sound s →
  let r := store with_map p s in
  sound r.1
  ∧ (∀ pp, pp ∈ copied _ _ s → pp ∈ copied _ _ r.1)
  ∧ stored_at r.1 (getOffset p) (getOffset r.2) (getSize r.2)
  ∧ written _ _ r.1 = written _ _ s.
Proof.
  intros [Hl Hm] r.
  assert (Hsub : ∀ pp, pp ∈ copied _ _ s → pp ∈ copied _ _ r.1).
  { intros pp Hin. unfold r, Waveform.store. cbn. apply elem_of_app. by left. }
  assert (Hst : stored_at r.1 (getOffset p) (getOffset r.2) (getSize r.2)).
  { exists (p, r.2). split; [|done].
    unfold r, Waveform.store. cbn. apply elem_of_app. right.
    by apply list_elem_of_singleton. }
  split; [|done]. split.
  - intros _. exact Hst.
  - intros k e. unfold r, Waveform.store. cbn [fst offset_size_map].
    destruct with_map.
    + intros Hk. apply std_map_insert_lookup in Hk as [Hk|[-> ->]].
      * apply (stored_at_mono s); [exact Hsub|]. by apply Hm.
      * exact Hst.
    + intros Hk. apply (stored_at_mono s); [exact Hsub|]. by apply Hm.
Qed.

Lemma sound_reference (s : state) : sound s → sound (reference s).
Proof. done. Qed.

Lemma sound_warn_gap (with_map : bool) (p : wpoint) (s : state) :
  sound s → sound (warn_gap with_map p s).
Proof. unfold Waveform.warn_gap. by destruct (_ && _). Qed.

Lemma sound_write (lax : bool) (p : wpoint) (s : state) :
  sound s → sound (write lax p s).
Proof. unfold Waveform.write. by destruct lax. Qed.

(** An attached point with a positive offset leaves with the place of a
    copy made for that offset. *)
Lemma redirect_sound (with_map : bool) (p : wpoint) (s : state)
    (r : state * wpoint) :
  sound s → 0 < getOffset p → redirect with_map p s = Some r →
  sound r.1
  ∧ (∀ pp, pp ∈ copied _ _ s → pp ∈ copied _ _ r.1)
  ∧ stored_at r.1 (getOffset p) (getOffset r.2) (getSize r.2)
  ∧ written _ _ r.1 = written _ _ s.
Proof.
  intros Hs Hpos. unfold Waveform.redirect.
  change (last_offset _ _ (reference s)) with (last_offset _ _ s).
  change (new_offset _ _ (reference s)) with (new_offset _ _ s).
  change (new_size _ _ (reference s)) with (new_size _ _ s).
  change (offset_size_map _ _ (reference s)) with (offset_size_map _ _ s).
  destruct (Z.eqb_spec (getOffset p) (last_offset _ _ s)) as [Heq|Hne].
  - intros [= <-]. cbn [fst snd]. split; [done|]. split; [done|].
    split; [|done]. destruct Hs as [Hl _]. rewrite Heq. apply Hl. lia.
  - destruct (Z.ltb_spec (last_offset _ _ s) (getOffset p)).
    + intros [= <-].
      destruct (store_sound with_map p (warn_gap with_map p (reference s)))
        as (H1 & H2 & H3 & H4).
      { by apply sound_warn_gap, sound_reference. }
      destruct (warn_gap_fields with_map p (reference s))
        as (_ & _ & _ & _ & _ & _ & Hw & Hc & _).
      split; [done|]. split; [|split; [done|]].
      * intros pp Hin. apply H2. by rewrite Hc.
      * by rewrite H4, Hw.
    + destruct with_map; [|done].
      destruct (offset_size_map _ _ s !! getOffset p) as [e|] eqn:Hk.
      * intros [= <-]. cbn [fst snd]. split; [done|]. split; [done|].
        split; [|done]. destruct Hs as [_ Hm]. by apply (Hm _ _ Hk).
      * intros [= <-].
        destruct (store_sound true p (reference s)) as (H1 & H2 & H3 & H4);
          [done|].
        by split; [|split; [|split]].
Qed.

Lemma loop_sound (with_map lax : bool) (src : list wpoint) (s s' : state) :
  sound s →
  Forall (λ p, getIndex p ≠ 0 → 0 < getOffset p) src →
  loop with_map lax src s = Completed s' →
  ∃ out, written _ _ s' = written _ _ s ++ out
         ∧ Forall2 (redirected s') src out
         ∧ (∀ pp, pp ∈ copied _ _ s → pp ∈ copied _ _ s').
Proof.
  revert s. induction src as [|p rest IH]; intros s Hs Hpos Hrun.
  - injection Hrun as <-. exists []. by rewrite app_nil_r.
  - cbn [waveform_loop Waveform.waveform_loop] in Hrun.
    apply Forall_cons_1 in Hpos as [Hp Hpos].
    destruct (Z.eqb_spec (getIndex p) 0) as [H0|H0].
    + destruct (IH (write lax p s)) as (out & Hw & HF & Hsub);
        [by apply sound_write|done|done|].
      destruct (write_fields lax p s) as (_ & _ & _ & _ & Hwc & Hww & _).
      rewrite Hww in Hw. rewrite Hwc in Hsub.
      exists (p :: out). split; [|split; [|done]].
      * by rewrite Hw, <-app_assoc.
      * constructor; [|done]. unfold redirected.
        by destruct (Z.eqb_spec (getIndex p) 0).
    + destruct (redirect with_map p s) as [r|] eqn:Hr; [|done].
      destruct (redirect_sound with_map p s r Hs (Hp H0) Hr)
        as (Hs1 & Hsub1 & Hst & Hw1).
      destruct (IH (write lax r.2 r.1)) as (out & Hw & HF & Hsub);
        [by apply sound_write|done|done|].
      destruct (write_fields lax r.2 r.1) as (_ & _ & _ & _ & Hwc & Hww & _).
      rewrite Hww, Hw1 in Hw. rewrite Hwc in Hsub.
      exists (r.2 :: out). split; [|split].
      * by rewrite Hw, <-app_assoc.
      * constructor; [|done]. unfold redirected.
        destruct (Z.eqb_spec (getIndex p) 0); [done|].
        apply (stored_at_mono r.1); [exact Hsub|exact Hst].
      * intros pp Hin. by apply Hsub, Hsub1.
Qed.

(** Without the map, every copy is made for an offset above the one
    before. *)
Lemma loop_without_map_copies (lax : bool) (src : list wpoint) (s s' : state) :
  loop false lax src s = Completed s' →
  ∃ new, copied _ _ s' = copied _ _ s ++ new
         ∧ Sorted Z.lt (last_offset _ _ s :: ((λ pp, getOffset pp.1) <$> new))
         ∧ ((λ pp, getOffset pp.1) <$> new) ⊆+ attached_offsets src.
Proof.
  revert s. induction src as [|p rest IH]; intros s Hrun.
  - injection Hrun as <-. exists []. rewrite app_nil_r.
    split; [done|]. split; [by repeat constructor|done].
  - cbn [waveform_loop Waveform.waveform_loop] in Hrun.
    unfold attached_offsets. cbn [List.filter].
    destruct (Z.eqb_spec (getIndex p) 0) as [H0|H0]; cbn [negb].
    + destruct (IH _ Hrun) as (new & Hc & HS & Hsub).
      destruct (write_fields lax p s) as (Hwl & _ & _ & _ & Hwc & _).
      rewrite Hwl in HS. rewrite Hwc in Hc. by exists new.
    + pose proof (redirect_without_map p s) as Hr.
      destruct (redirect false p s) as [r|]; [|done].
      destruct Hr as (Hle & Hlast & _ & _ & _ & _ & _ & Hcase).
      destruct (IH _ Hrun) as (new & Hc & HS & Hsub).
      destruct (write_fields lax r.2 r.1) as (Hwl & _ & _ & _ & Hwc & _).
      rewrite Hwl, Hlast in HS. rewrite Hwc in Hc. rewrite fmap_cons.
      destruct (Z.eqb_spec (getOffset p) (last_offset _ _ s)) as [Heq|Hne].
      * destruct Hcase as (_ & _ & Hcs). exists new. rewrite Hc, Hcs.
        split; [done|]. split; [by rewrite <-Heq|].
        by apply submseteq_cons.
      * exists ((p, r.2) :: new). rewrite Hc, Hcase, <-app_assoc.
        split; [done|]. rewrite fmap_cons. cbn [fst]. split.
        -- constructor; [done|]. constructor. lia.
        -- by apply submseteq_skip.
Qed.

Lemma loop_counts (with_map lax : bool) (src : list wpoint) (s s' : state) :
  loop with_map lax src s = Completed s' →
  p_count _ _ s' = p_count _ _ s + Z.of_nat (length src)
  ∧ length (written _ _ s') = (length (written _ _ s) + length src)%nat.
Proof.
  revert s. induction src as [|p rest IH]; intros s Hrun.
  - injection Hrun as <-. cbn. split; lia.
  - cbn [waveform_loop Waveform.waveform_loop] in Hrun.
    destruct (getIndex p =? 0).
    + destruct (IH _ Hrun) as [-> ->].
      destruct (write_fields lax p s) as (_ & _ & _ & _ & _ & -> & -> & _).
      rewrite length_app. cbn [length]. split; lia.
    + destruct (redirect with_map p s) as [r|] eqn:Hr; [|done].
      destruct (IH _ Hrun) as [-> ->].
      destruct (write_fields lax r.2 r.1) as (_ & _ & _ & _ & _ & -> & -> & _).
      assert (p_count _ _ r.1 = p_count _ _ s ∧ written _ _ r.1 = written _ _ s)
        as [Hp Hw].
      { revert Hr. unfold Waveform.redirect.
        destruct (_ =? _); [by intros [= <-]|].
        destruct (_ <? _).
        - intros [= <-].
          destruct (warn_gap_fields with_map p (reference s))
            as (_ & _ & _ & _ & _ & Hp & Hw & _).
          cbn [fst Waveform.store p_count written]. by rewrite Hp, Hw.
        - destruct with_map; [|done]. destruct (_ !! _); by intros [= <-]. }
      rewrite length_app, Hp, Hw. cbn [length]. split; lia.
Qed.

Lemma loop_with_map_completes (lax : bool) (src : list wpoint) (s : state) :
  ∃ s', loop true lax src s = Completed s'.
Proof.
  revert s. induction src as [|p rest IH]; intros s; [by eexists|].
  cbn [waveform_loop Waveform.waveform_loop].
  destruct (getIndex p =? 0); [apply IH|].
  destruct (redirect_with_map p s) as [r ->]. apply IH.
Qed.

Lemma loop_outcome (with_map lax : bool) (src : list wpoint) (s : state) :
  (∃ s', loop with_map lax src s = Completed s')
  ∨ (∃ s', loop with_map lax src s = Byebye true s').
Proof.
  revert s. induction src as [|p rest IH]; intros s; [left; by eexists|].
  cbn [waveform_loop Waveform.waveform_loop].
  destruct (getIndex p =? 0); [apply IH|].
  destruct (redirect with_map p s) as [r|]; [apply IH|right; by eexists].
Qed.

Lemma sound_initial (files : waveforms) :
  sound (initial attributes waveforms files).
Proof.
  split; [cbn; lia|]. intros k e Hk.
  cbn [offset_size_map initial] in Hk. by rewrite lookup_empty in Hk.
Qed.

Lemma Sorted_lt_unique (l : list (wpoint * wpoint)) (a b : wpoint * wpoint) :
  Sorted Z.lt ((λ pp, getOffset pp.1) <$> l) →
  a ∈ l → b ∈ l → getOffset a.1 = getOffset b.1 → a = b.
Proof.
  intros HS. apply Sorted_StronglySorted in HS; [|intros x y z; lia].
  induction l as [|c l IH]; intros Ha Hb Hab; [by apply elem_of_nil in Ha|].
  rewrite fmap_cons in HS. apply StronglySorted_inv in HS as [HS Hall].
  rewrite List.Forall_forall in Hall.
  assert (Hgt : ∀ x, x ∈ l → getOffset c.1 < getOffset x.1).
  { intros x Hx. apply Hall. apply list_elem_of_In.
    apply list_elem_of_fmap. by exists x. }
  apply elem_of_cons in Ha as [->|Ha], Hb as [->|Hb]; [done| | |by apply IH].
  - specialize (Hgt _ Hb). lia.
  - specialize (Hgt _ Ha). lia.
Qed.

(** With [-lax], the waveform loop enters each point it writes in the
    index, under the count the writer has after the write. *)
Lemma loop_lasindex (with_map : bool) (src : list wpoint) (s s' : state) :
  loop with_map true src s = Completed s' →
  ∃ out, written _ _ s' = written _ _ s ++ out
         ∧ lasindex _ _ s'
           = lasindex _ _ s
             ++ zip out ((λ i, u32 (p_count _ _ s + Z.of_nat i + 1))
                           <$> seq 0 (length src)).
Proof.
  revert s. induction src as [|p rest IH]; intros s Hrun.
  - injection Hrun as <-. exists []. by rewrite !app_nil_r.
  - cbn [waveform_loop Waveform.waveform_loop] in Hrun.
    assert (Hstep : ∀ q s1,
              p_count _ _ s1 = p_count _ _ s → written _ _ s1 = written _ _ s →
              lasindex _ _ s1 = lasindex _ _ s →
              loop with_map true rest (write true q s1) = Completed s' →
              ∃ out, written _ _ s' = written _ _ s ++ out
                     ∧ lasindex _ _ s'
                       = lasindex _ _ s
                         ++ zip out ((λ i, u32 (p_count _ _ s + Z.of_nat i + 1))
                                       <$> seq 0 (length (p :: rest)))).
    { intros q s1 Hp Hw Hi Hr. destruct (IH _ Hr) as (out & Hw' & Hi').
      destruct (write_fields true q s1)
        as (_ & _ & _ & _ & _ & Hww & Hwp & Hwi).
      rewrite Hww, Hw in Hw'. rewrite Hwi, Hwp, Hp, Hi in Hi'.
      exists (q :: out). split.
      - by rewrite Hw', <-app_assoc.
      - rewrite Hi', <-app_assoc. f_equal. cbn [length].
        rewrite <-cons_seq, fmap_cons. cbn [zip zip_with app].
        rewrite Z.add_0_r. f_equal.
        rewrite <-(fmap_S_seq 0), <-list_fmap_compose. f_equal.
        apply list_fmap_ext. intros i x _. cbn. f_equal. lia. }
    destruct (getIndex p =? 0); [by apply (Hstep p s)|].
    destruct (redirect with_map p s) as [r|] eqn:Hr; [|done].
    apply (Hstep r.2 r.1); [| |  |done].
    all: revert Hr; unfold Waveform.redirect;
      destruct (_ =? _); [by intros [= <-]|];
      (destruct (_ <? _);
       [intros [= <-];
        destruct (warn_gap_fields with_map p (reference s))
          as (_ & _ & _ & _ & _ & Hp & Hw & _ & Hi);
        cbn [fst Waveform.store p_count written lasindex]; by rewrite ?Hp, ?Hw, ?Hi
       |destruct with_map; [|done]; destruct (_ !! _); by intros [= <-]]).
Qed.

(** X13.  The waveform loop without [-waveforms_with_map] gets to the end
    of the input exactly when the offsets of the points attached to a
    waveform, in input order, never step down; otherwise it ends in
    [byebye(true)] ("waveform offsets not in monotonically increasing
    order"). *)
Theorem waveform_loop_without_map_needs_ascending_offsets (lax : bool)
    (src : list wpoint) (files : waveforms) :
  Forall (λ p, 0 ≤ getOffset p) src →
  ((∃ s', loop false lax src (initial _ _ files) = Completed s')
   ↔ Sorted Z.le (attached_offsets src))
  ∧ (¬ Sorted Z.le (attached_offsets src) →
     ∃ s', loop false lax src (initial _ _ files) = Byebye true s').
Proof.
  intros Hpos.
  assert (Hiff : (∃ s', loop false lax src (initial _ _ files) = Completed s')
                 ↔ Sorted Z.le (attached_offsets src)).
  { rewrite loop_without_map_sorted.
    change (last_offset _ _ (initial _ _ files)) with 0. split.
    - intros HS. by apply Sorted_inv in HS as [HS _].
    - intros HS. constructor; [done|].
      assert (Forall (λ o, 0 ≤ o) (attached_offsets src)) as Ho.
      { unfold attached_offsets. apply Forall_fmap.
        rewrite list.Forall_forall in Hpos. apply list.Forall_forall.
        intros p Hp. apply Hpos. apply list_elem_of_In in Hp.
        apply List.filter_In in Hp as [Hp _]. by apply list_elem_of_In. }
      destruct Ho; by constructor. }
  split; [exact Hiff|]. intros Hns.
  destruct (loop_outcome false lax src (initial _ _ files)) as [Hc|Hb]; [|done].
  by apply Hiff in Hc.
Qed.

(** X14.  With [-waveforms_with_map] the loop never takes the error exit:
    whatever the offsets, it gets to the end of the input, having handed
    every point to the writer. *)
Theorem waveform_loop_with_map_never_aborts (lax : bool) (src : list wpoint)
    (s : state) :
  ∃ s', loop true lax src s = Completed s'
        ∧ p_count _ _ s' = p_count _ _ s + Z.of_nat (length src)
        ∧ length (written _ _ s') = (length (written _ _ s) + length src)%nat.
Proof.
  destruct (loop_with_map_completes lax src s) as [s' Hs'].
  exists s'. split; [done|]. by apply (loop_counts true lax src).
Qed.

(** X15.  With or without the map, when the loop gets to the end of the
    input every point has been handed to the writer, in input order; a point
    without waveform ([getIndex() == 0]) goes out unchanged, and a point
    attached to a waveform at a positive offset goes out with the offset and
    size that some [write_waveform] call left in a point that came with that
    same offset. *)
Theorem waveform_redirect_is_sound (with_map lax : bool) (src : list wpoint)
    (files : waveforms) (s' : state) :
  Forall (λ p, getIndex p ≠ 0 → 0 < getOffset p) src →
  loop with_map lax src (initial _ _ files) = Completed s' →
  Forall2 (redirected s') src (written _ _ s').
Proof.
  intros Hpos Hrun.
  destruct (loop_sound with_map lax src (initial _ _ files) s'
              (sound_initial files) Hpos Hrun) as (out & Hw & HF & _).
  by rewrite Hw.
Qed.

(** X16.  Without the map, when the loop gets to the end of the input the
    waveforms were copied in strictly ascending order of their offsets, so
    none was copied twice, and each copy was made for an attached point of
    the input. *)
Theorem waveform_copied_once_without_map (lax : bool) (src : list wpoint)
    (files : waveforms) (s' : state) :
  loop false lax src (initial _ _ files) = Completed s' →
  Sorted Z.lt (0 :: ((λ pp, getOffset pp.1) <$> copied _ _ s'))
  ∧ ((λ pp, getOffset pp.1) <$> copied _ _ s') ⊆+ attached_offsets src.
Proof.
  intros Hrun.
  destruct (loop_without_map_copies lax src _ _ Hrun) as (new & -> & HS & Hsub).
  done.
Qed.

(** X17.  Without the map, when the loop gets to the end of the input, any
    two points attached to waveforms at the same positive offset go out with
    the same offset and the same size: they share one copy. *)
Theorem waveform_shared_without_map (lax : bool) (src : list wpoint)
    (files : waveforms) (s' : state) (i k : nat) (q1 q2 q1' q2' : wpoint) :
  loop false lax src (initial _ _ files) = Completed s' →
  Forall (λ p, getIndex p ≠ 0 → 0 < getOffset p) src →
  src !! i = Some q1 → src !! k = Some q2 →
  getIndex q1 ≠ 0 → getIndex q2 ≠ 0 → getOffset q1 = getOffset q2 →
  written _ _ s' !! i = Some q1' → written _ _ s' !! k = Some q2' →
  getOffset q1' = getOffset q2' ∧ getSize q1' = getSize q2'.
Proof.
  intros Hrun Hpos Hi Hk H1 H2 Heq Hi' Hk'.
  destruct (loop_sound false lax src (initial _ _ files) s'
              (sound_initial files) Hpos Hrun) as (out & Hw & HF & _).
  change (written _ _ (initial _ _ files) ++ out) with out in Hw.
  rewrite <-Hw in HF.
  destruct (loop_without_map_copies lax src _ _ Hrun) as (new & Hc & HS & _).
  change (copied _ _ (initial _ _ files) ++ new) with new in Hc.
  rewrite <-Hc in HS. apply Sorted_inv in HS as [HS _].
  pose proof (Forall2_lookup_lr _ _ _ _ _ _ HF Hi Hi') as Hr1.
  pose proof (Forall2_lookup_lr _ _ _ _ _ _ HF Hk Hk') as Hr2.
  unfold redirected in Hr1, Hr2.
  destruct (Z.eqb_spec (getIndex q1) 0); [done|].
  destruct (Z.eqb_spec (getIndex q2) 0); [done|].
  destruct Hr1 as (a & Ha & Hao & <- & <-).
  destruct Hr2 as (b & Hb & Hbo & <- & <-).
  assert (a = b) as -> by (apply (Sorted_lt_unique _ a b HS Ha Hb); lia).
  done.
Qed.

End facts.

Lemma waveform_loop_without_map_needs_ascending_offsets_witness :
  let src := [WaveformToy.wp 1 60 10; WaveformToy.wp 0 0 0; WaveformToy.wp 1 60 10;
              WaveformToy.wp 2 70 5] in
  Forall (λ p, 0 ≤ getOffset p) src
  ∧ Sorted Z.le (attached_offsets src)
  ∧ ∃ s', waveform_loop unit Z WaveformToy.append_waveform false false src
            (initial unit Z 0) = Completed s'.
Proof.
  intros src.
  assert (Forall (λ p : Waveform.wpoint unit, 0 ≤ getOffset p) src) as Hpos.
  { repeat (apply Forall_cons_2; [by vm_compute|]). apply Forall_nil_2. }
  assert (Sorted Z.le (attached_offsets src)) as HS.
  { vm_compute. repeat constructor; by vm_compute. }
  split; [exact Hpos|]. split; [exact HS|].
  destruct (waveform_loop_without_map_needs_ascending_offsets
              WaveformToy.append_waveform false src 0 Hpos) as [Hiff _].
  by apply Hiff.
Defined.

Lemma waveform_redirect_is_sound_witness :
  let src := [WaveformToy.wp 1 60 10; WaveformToy.wp 0 0 0; WaveformToy.wp 1 60 10;
              WaveformToy.wp 2 70 5] in
  ∃ s', waveform_loop unit Z WaveformToy.append_waveform false false src
          (initial unit Z 0) = Completed s'
        ∧ Forall (λ p, getIndex p ≠ 0 → 0 < getOffset p) src
        ∧ Forall2 (redirected s') src (written _ _ s').
Proof.
  intros src. eexists. split; [by vm_compute|].
  assert (Forall (λ p : Waveform.wpoint unit, getIndex p ≠ 0 → 0 < getOffset p) src)
    as Hpos.
  { repeat (apply Forall_cons_2; [by vm_compute|]). apply Forall_nil_2. }
  split; [exact Hpos|].
  apply (waveform_redirect_is_sound WaveformToy.append_waveform false false src 0);
    [exact Hpos | by vm_compute].
Defined.

Lemma waveform_copied_once_without_map_witness :
  let src := [WaveformToy.wp 1 60 10; WaveformToy.wp 1 60 10; WaveformToy.wp 2 70 5] in
  ∃ s', waveform_loop unit Z WaveformToy.append_waveform false false src
          (initial unit Z 0) = Completed s'
        ∧ Sorted Z.lt (0 :: ((λ pp, getOffset pp.1) <$> copied _ _ s')).
Proof.
  intros src. eexists. split; [by vm_compute|].
  apply (waveform_copied_once_without_map WaveformToy.append_waveform false src 0).
  by vm_compute.
Defined.

Lemma waveform_shared_without_map_witness :
  let src := [WaveformToy.wp 1 60 10; WaveformToy.wp 0 0 0; WaveformToy.wp 1 60 10] in
  ∃ s' q1' q2',
    waveform_loop unit Z WaveformToy.append_waveform false false src
      (initial unit Z 0) = Completed s'
    ∧ written _ _ s' !! 0%nat = Some q1' ∧ written _ _ s' !! 2%nat = Some q2'
    ∧ getOffset q1' = getOffset q2' ∧ getSize q1' = getSize q2'.
Proof.
  intros src. eexists _, _, _.
  split; [by vm_compute|]. split; [by vm_compute|]. split; [by vm_compute|].
  eapply (waveform_shared_without_map WaveformToy.append_waveform false src 0 _
            0 2 (WaveformToy.wp 1 60 10) (WaveformToy.wp 1 60 10));
    try (by vm_compute).
  repeat (apply Forall_cons_2; [by vm_compute|]). apply Forall_nil_2.
Defined.

End WaveformExtras.

(** ** Properties of the serial loops *)

Module SerialPathsExtras.
Import Stream Writer Driver SerialPaths DriverFacts.

Section facts.
Context `{Collaborators}.
Variable point_memory : point → list Z.

Local Abbreviation eop_loop := (eop_loop point_memory).
Local Abbreviation is_end_of_points := (is_end_of_points point_memory).

Lemma lax_loop_index (src : list point) (w : writer) (idx : list (point * Z)) :
  (lax_loop src w idx).1 = feed src w
  ∧ (lax_loop src w idx).2
    = idx ++ zip src ((λ i, u32 (p_count w + Z.of_nat i)) <$> seq 0 (length src)).
Proof.
  revert w idx. induction src as [|p rest IH]; intros w idx.
  - cbn. by rewrite app_nil_r.
  - cbn [lax_loop length]. destruct (IH (write_point p w) (idx ++ [(p, u32 (p_count w))]))
      as [-> ->].
    split; [done|]. rewrite <-app_assoc. f_equal.
    rewrite <-cons_seq, fmap_cons. cbn [zip zip_with app].
    rewrite Z.add_0_r. f_equal. f_equal.
    rewrite <-(fmap_S_seq 0), <-list_fmap_compose.
    apply list_fmap_ext. intros i x _. cbn. rewrite p_count_write_point.
    f_equal. lia.
Qed.

(** X18.  The end-of-points loop of lines 784-792 and 1063-1071 writes
    exactly the points that come before the first point whose first 20 bytes
    all equal the [-eop] value, in order; it writes neither that point nor
    any point after it, and leaves the reader right behind it.  Without such
    a point it writes the whole input. *)
Theorem eop_loop_stops_at_marker (end_of_points : Z) (src : list point)
    (w : writer) :
  ∃ pre post,
    src = pre ++ post
    ∧ Forall (λ p, is_end_of_points end_of_points p = false) pre
    ∧ (eop_loop end_of_points src w).1 = feed pre w
    ∧ match post with
      | [] => (eop_loop end_of_points src w).2 = []
      | m :: rest =>
          is_end_of_points end_of_points m = true
          ∧ (eop_loop end_of_points src w).2 = rest
      end.
Proof.
  revert w. induction src as [|p rest IH]; intros w.
  - exists [], []. by repeat split.
  - cbn [SerialPaths.eop_loop].
    destruct (is_end_of_points end_of_points p) eqn:Hp.
    + exists [], (p :: rest). by repeat split.
    + destruct (IH (write_point p w)) as (pre & post & -> & HF & Hw & Hpost).
      exists (p :: pre), post. split; [done|]. split; [by constructor|].
      split; [exact Hw|exact Hpost].
Qed.

End facts.

(** X20.  The index entries of [-lax].  The lax loop of lines 752-756 and
    1030-1035 adds a point to the index before it writes it, so the point at
    position [i] of the input (from 0) is entered under [i]; the waveform loop
    (lines 698-702) adds it after the write, so there it is entered under
    [i + 1]. *)
Theorem lax_index_numbering `{Collaborators} {attributes waveforms : Type}
    (copy_waveform : waveforms → Waveform.wpoint attributes
                     → waveforms * Waveform.wpoint attributes)
    (compressed : bool) (e : encoder) (C : Z) (src : list point)
    (with_map : bool) (wsrc : list (Waveform.wpoint attributes))
    (files : waveforms) (s' : Waveform.state attributes waveforms) :
  Waveform.waveform_loop _ _ copy_waveform with_map true wsrc
    (Waveform.initial _ _ files) = Waveform.Completed s' →
  (lax_loop src (open true compressed e C) []).2
  = zip src ((λ i, u32 (Z.of_nat i)) <$> seq 0 (length src))
  ∧ Waveform.lasindex _ _ s'
    = zip (Waveform.written _ _ s')
        ((λ i, u32 (Z.of_nat i + 1)) <$> seq 0 (length wsrc)).
Proof.
  intros Hrun. split.
  - destruct (lax_loop_index src (open true compressed e C) []) as [_ ->].
    cbn [app]. f_equal.
  - destruct (WaveformExtras.loop_lasindex copy_waveform with_map wsrc _ _ Hrun)
      as (out & -> & ->).
    cbn [app Waveform.initial Waveform.written Waveform.lasindex Waveform.p_count].
    f_equal.
Qed.

Lemma lax_index_numbering_witness :
  let wsrc := [WaveformToy.wp 0 0 0; WaveformToy.wp 1 60 10] in
  ∃ s', Waveform.waveform_loop unit Z WaveformToy.append_waveform false true wsrc
          (Waveform.initial unit Z 0) = Waveform.Completed s'
        ∧ (lax_loop (H := Toy.toy) [7; 8] (open true true Toy.toy_enc 2) []).2
          = [(7, 0); (8, 1)]
        ∧ snd <$> Waveform.lasindex _ _ s' = [1; 2].
Proof.
  intros wsrc. eexists. split; [by vm_compute|].
  edestruct (lax_index_numbering (H := Toy.toy) WaveformToy.append_waveform true
               Toy.toy_enc 2 [7; 8] false wsrc 0) as [H1 H2]; [by vm_compute|].
  split; [exact H1|]. rewrite H2. by vm_compute.
Defined.

End SerialPathsExtras.

(** ** Properties of the header check *)

Module HeaderExtras.
Import Header.

Lemma testbit_u16 (x : Z) (n : Z) :
  0 ≤ n → Z.testbit (u16 x) n = (n <? 16) && Z.testbit x n.
Proof.
  intros Hn. unfold u16. destruct (Z.ltb_spec n 16).
  - by rewrite Z.mod_pow2_bits_low by lia.
  - by rewrite Z.mod_pow2_bits_high by lia.
Qed.

Lemma testbit_2 (n : Z) : Z.testbit 2 n = (n =? 1).
Proof.
  destruct (Z.eqb_spec n 1) as [->|Hn]; [done|].
  destruct (Z.lt_trichotomy n 0) as [?|[->|?]]; [by apply Z.testbit_neg_r|done|].
  change 2 with (2 ^ 1). apply Z.pow2_bits_false. lia.
Qed.

Lemma testbit_4 (n : Z) : Z.testbit 4 n = (n =? 2).
Proof.
  destruct (Z.eqb_spec n 2) as [->|Hn]; [done|].
  destruct (Z.lt_trichotomy n 0) as [?|[->|?]]; [by apply Z.testbit_neg_r|done|].
  change 4 with (2 ^ 2). apply Z.pow2_bits_false. lia.
Qed.

(** X21.  For a LAS 1.3+ header whose [global_encoding] is a [U16], the
    check of lines 538-550 leaves bit 1 (waveform data inside the file)
    clear, leaves every bit other than bits 1 and 2 as it was, and sets bit 2
    (waveform data in an external file) exactly when it was already set or bit
    1 was set and [start_of_waveform_data_packet_record] was not zero; in that
    last case, and only then, the header field is zeroed. *)
Theorem waveform_check_bits (h : header) :
  version_major h = 1 → 3 ≤ version_minor h → 0 ≤ global_encoding h < 2 ^ 16 →
  let h' := (waveform_check h).1 in
  let moved := Z.testbit (global_encoding h) 1
               && negb (start_of_waveform_data_packet_record h =? 0) in
  0 ≤ global_encoding h' < 2 ^ 16
  ∧ Z.testbit (global_encoding h') 1 = false
  ∧ Z.testbit (global_encoding h') 2
    = (Z.testbit (global_encoding h) 2 || moved)
  ∧ (∀ n, n ≠ 1 → n ≠ 2 →
       Z.testbit (global_encoding h') n = Z.testbit (global_encoding h) n)
  ∧ start_of_waveform_data_packet_record h'
    = (if moved then 0 else start_of_waveform_data_packet_record h)
  ∧ (waveform_check h).2
    = (if moved then i64 (start_of_waveform_data_packet_record h) else 0).
Proof.
  intros Hmaj Hmin Hg h' moved.
  assert (Hbit : (Z.land (global_encoding h) 2 =? 0)
                 = negb (Z.testbit (global_encoding h) 1)).
  { destruct (Z.testbit (global_encoding h) 1) eqn:Hb; cbn [negb].
    - apply Z.eqb_neq. intros H0.
      assert (Z.testbit (Z.land (global_encoding h) 2) 1 = false) as Hc
        by (by rewrite H0).
      by rewrite Z.land_spec, Hb in Hc.
    - apply Z.eqb_eq. apply Z.bits_inj'. intros n Hn.
      rewrite Z.land_spec, testbit_2, Z.bits_0.
      destruct (Z.eqb_spec n 1) as [->|]; [by rewrite Hb|by rewrite andb_false_r]. }
  assert (Hhigh : ∀ n, 16 ≤ n → Z.testbit (global_encoding h) n = false).
  { intros n Hn. destruct (Z.eq_dec (global_encoding h) 0) as [->|Hne].
    - apply Z.bits_0.
    - apply Z.bits_above_log2; [lia|].
      assert (Z.log2 (global_encoding h) < 16); [|lia].
      apply Z.log2_lt_pow2; lia. }
  assert (Hrange : ∀ x, 0 ≤ u16 x < 2 ^ 16).
  { intros x. unfold u16. apply Z.mod_pos_bound. lia. }
  unfold h', moved, waveform_check.
  rewrite Hmaj, Z.eqb_refl. destruct (Z.leb_spec 3 (version_minor h)); [|lia].
  cbn [andb]. rewrite Hbit, negb_involutive.
  destruct (Z.testbit (global_encoding h) 1) eqn:Hb1; cbn [andb fst snd].
  - destruct (Z.eqb_spec (start_of_waveform_data_packet_record h) 0) as [H0|H0];
      cbn [negb fst snd global_encoding start_of_waveform_data_packet_record].
    + split; [apply Hrange|]. split; [|split; [|split; [|done]]].
      * rewrite testbit_u16, Z.land_spec, Z.lnot_spec, testbit_2 by lia.
        cbn. by rewrite andb_false_r.
      * rewrite testbit_u16, Z.land_spec, Z.lnot_spec, testbit_2 by lia.
        cbn. by rewrite andb_true_r, orb_false_r.
      * intros n Hn1 Hn2.
        destruct (Z.lt_ge_cases n 0); [by rewrite !Z.testbit_neg_r|].
        rewrite testbit_u16, Z.land_spec, Z.lnot_spec, testbit_2 by lia.
        destruct (Z.eqb_spec n 1); [done|]. cbn [negb]. rewrite andb_true_r.
        destruct (Z.ltb_spec n 16); [done|]. by rewrite Hhigh.
    + split; [apply Hrange|]. split; [|split; [|split; [|done]]].
      * rewrite testbit_u16, Z.lor_spec, testbit_4 by lia.
        rewrite testbit_u16, Z.land_spec, Z.lnot_spec, testbit_2 by lia.
        cbn. by rewrite andb_false_r.
      * rewrite testbit_u16, Z.lor_spec, testbit_4 by lia.
        cbn. by rewrite !orb_true_r.
      * intros n Hn1 Hn2.
        destruct (Z.lt_ge_cases n 0); [by rewrite !Z.testbit_neg_r|].
        rewrite testbit_u16, Z.lor_spec, testbit_4 by lia.
        rewrite testbit_u16, Z.land_spec, Z.lnot_spec, testbit_2 by lia.
        destruct (Z.eqb_spec n 1); [done|]. destruct (Z.eqb_spec n 2); [done|].
        cbn [negb]. rewrite andb_true_r, orb_false_r.
        destruct (Z.ltb_spec n 16); [done|]. by rewrite Hhigh.
  - cbn [negb fst snd]. split; [done|]. split; [done|].
    split; [by rewrite orb_false_r|]. done.
Qed.

Lemma waveform_check_bits_witness :
  let h := {| version_major := 1; version_minor := 3; global_encoding := 3;
              start_of_waveform_data_packet_record := 1000 |} in
  (version_major h = 1 ∧ 3 ≤ version_minor h ∧ 0 ≤ global_encoding h < 2 ^ 16)
  ∧ Z.testbit (global_encoding (waveform_check h).1) 1 = false
  ∧ (waveform_check h).2 = 1000.
Proof.
  intros h. split; [by vm_compute|].
  destruct (waveform_check_bits h) as (_ & H1 & _ & _ & _ & H2);
    [done | by vm_compute | by vm_compute |].
  split; [exact H1|]. rewrite H2. reflexivity.
Defined.

End HeaderExtras.

(** ** Properties of the command line *)

Module CommandLineExtras.
Import stdpp.strings.
Import CommandLine.
Local Open Scope Z_scope.

Section facts.
Variable opener : Type.
Variable get_file_name_number : opener → Z.
Variable add_file_name : string → opener → opener.
Variable atoi : string → Z.

Local Abbreviation parse_arguments :=
  (parse_arguments opener get_file_name_number add_file_name atoi).

(** What every pass through the loop keeps. *)
Lemma parse_arguments_keeps (n : nat) (argv : list string)
    (o o' : options opener) :
  (length argv ≤ n)%nat →
  parse_arguments argv o = Continue o' →
  ((end_of_points o = -1 ∨ 0 ≤ end_of_points o ≤ 255) →
   end_of_points o' = -1 ∨ 0 ≤ end_of_points o' ≤ 255)
  ∧ ((waveform_with_map o = true → waveform o = true) →
     waveform_with_map o' = true → waveform o' = true).
Proof.
  revert argv o. induction n as [|n IH]; intros argv o Hlen Hrun.
  - destruct argv; [|simpl in Hlen; lia]. by injection Hrun as <-.
  - destruct argv as [|a rest]; [by injection Hrun as <-|].
    cbn [length] in Hlen. cbn [CommandLine.parse_arguments] in Hrun.
    repeat match type of Hrun with
           | (if ?b then _ else _) = _ => destruct b eqn:?
           | match ?l with [] => _ | _ :: _ => _ end = _ =>
               destruct l; cbn [length] in Hlen
           end;
      try discriminate;
      try (by injection Hrun as <-);
      try (apply IH in Hrun as [H1 H2]; [|lia]; split;
           [intros Hi; apply H1|intros Hi; apply H2]; cbn; try done; try lia).
    all: lia.
Qed.

(** X22.  When the argument loop of lines 185-336 runs through, whatever
    the arguments and whatever [atoi] makes of them, [end_of_points] is
    either still -1 (no [-eop] taken) or a value from 0 to 255: a value
    outside is answered with [usage(true)].  The marker [memset] builds from
    it then holds the value itself. *)
Theorem end_of_points_is_unset_or_a_byte (argv : list string) (lro : opener)
    (o' : options opener) :
  parse_arguments argv (defaults opener lro) = Continue o' →
  end_of_points o' = -1
  ∨ (0 ≤ end_of_points o' ≤ 255
     ∧ SerialPaths.point10 (end_of_points o') = replicate 20 (end_of_points o')).
Proof.
  intros Hrun.
  destruct (parse_arguments_keeps (length argv) argv _ _ (le_n _) Hrun)
    as [H1 _].
  destruct H1 as [H1|H1]; [by left|by left|]. right. split; [done|].
  unfold SerialPaths.point10. f_equal. apply Z.mod_small. lia.
Qed.

(** X23.  When the argument loop runs through, [waveform_with_map] is only
    set together with [waveform]: the map of the waveform loop is never asked
    for without the waveform loop itself. *)
Theorem waveform_with_map_sets_waveform (argv : list string) (lro : opener)
    (o' : options opener) :
  parse_arguments argv (defaults opener lro) = Continue o' →
  waveform_with_map o' = true → waveform o' = true.
Proof.
  intros Hrun.
  destruct (parse_arguments_keeps (length argv) argv _ _ (le_n _) Hrun)
    as [_ H2].
  by apply H2.
Qed.

End facts.

Lemma end_of_points_is_unset_or_a_byte_witness :
  ∃ o', CommandLineToy.parse ["-eop"; "255"; "-v"] ["a.las"] = Continue o'
        ∧ (end_of_points o' = -1
           ∨ (0 ≤ end_of_points o' ≤ 255
              ∧ SerialPaths.point10 (end_of_points o')
                = replicate 20 (end_of_points o'))).
Proof.
  eexists. split; [by vm_compute|].
  apply (end_of_points_is_unset_or_a_byte (list string)
           CommandLineToy.get_file_name_number CommandLineToy.add_file_name
           CommandLineToy.atoi ["-eop"; "255"; "-v"] ["a.las"]).
  by vm_compute.
Defined.

Lemma waveform_with_map_sets_waveform_witness :
  ∃ o', CommandLineToy.parse ["-waveforms_with_map"; "in.las"] [] = Continue o'
        ∧ waveform_with_map o' = true ∧ waveform o' = true.
Proof.
  eexists. split; [by vm_compute|]. split; [by vm_compute|].
  apply (waveform_with_map_sets_waveform (list string)
           CommandLineToy.get_file_name_number CommandLineToy.add_file_name
           CommandLineToy.atoi ["-waveforms_with_map"; "in.las"] []);
    by vm_compute.
Defined.

End CommandLineExtras.
